(** * hr-medbot-backend: chunker, ingestion, retrieval and chat turn

    A shallow embedding of the Python sources under [application/]:

    - [insertion/chunkers/golden_chunker.py]   (Module [Chunker])
    - [retrieval/augmented_retriever.py]       (Module [Retriever])
    - [chatsystem/summarizer.py]               (Module [Summarizer])
    - [chatsystem/history_manager.py]          (Module [History])
    - [chatsystem/orchestrator.py]             (Module [Orchestrator])
    - [insertion/neo_inserter.py], [database/__init__.py] (Module [Inserter])
    - [llm_client/reranker.py]                 (Module [Reranker])
    - [api/knowledgebase/upload.py]            (Module [Upload])

    Python [str] values are [string]s whose characters are read as the code
    points U+0000..U+00FF; [len] is [pylen].  Python [int]s are [Z], list
    indices that the code keeps non-negative are [nat].  A call that can
    raise returns a [result]. *)

From Stdlib Require Import ZArith QArith String Ascii List Lia Bool Sorted Permutation.
From Equations Require Import Equations.
From Equations.Prop Require Import Logic.
From stdpp Require Import base list strings pretty gmap.

(** ** Exceptions and results *)

Inductive exn : Type :=
| ValueError (msg : string)
| RuntimeError (msg : string)
| IndexError (msg : string)
| ServiceError (msg : string)
| GenerationAborted (partial : string).

(** [str(exc)]: the message an exception was built with.  [GenerationAborted]
    passes a fixed message to [Exception.__init__]. *)
Definition str (e : exn) : string :=
  match e with
  | ValueError m | RuntimeError m | IndexError m | ServiceError m => m
  | GenerationAborted _ => "Generation aborted early"
  end.

Inductive result (A : Type) : Type :=
| Ok (a : A)
| Raise (e : exn).
Arguments Ok {A} a.
Arguments Raise {A} e.

Definition rbind {A B} (r : result A) (k : A -> result B) : result B :=
  match r with
  | Ok a => k a
  | Raise e => Raise e
  end.

#[export] Instance result_bind : MBind result := fun A B k r => rbind r k.
#[export] Instance result_ret : MRet result := @Ok.

(** ** Python strings *)

Definition pylen (s : string) : Z := Z.of_nat (String.length s).

Definition nonempty (s : string) : bool :=
  match s with
  | EmptyString => false
  | String _ _ => true
  end.

Definition newline : ascii := ascii_of_nat 10.
Definition is_newline (c : ascii) : bool := Ascii.eqb c newline.
Definition is_hash (c : ascii) : bool := Ascii.eqb c "#"%char.
Definition is_dash (c : ascii) : bool := Ascii.eqb c "-"%char.

(** [str.isspace] and the regular-expression class [\s] on U+0000..U+00FF. *)
Definition py_isspace (c : ascii) : bool :=
  let n := N_of_ascii c in
  ((9 <=? n) && (n <=? 13) || (28 <=? n) && (n <=? 32) || (n =? 133) || (n =? 160))%N.

(** [s[:n]] and [s[n:]] for [0 <= n]. *)
Fixpoint str_take (n : nat) (s : string) : string :=
  match n, s with
  | S k, String c r => String c (str_take k r)
  | _, _ => EmptyString
  end.

Fixpoint str_drop (n : nat) (s : string) : string :=
  match n, s with
  | S k, String _ r => str_drop k r
  | _, _ => s
  end.

(** [s[a:b]] for [0 <= a]. *)
Definition str_slice (a b : nat) (s : string) : string :=
  str_take (b - a) (str_drop a s).

(** Length of the longest prefix whose characters all satisfy [p]. *)
Fixpoint span_len (p : ascii -> bool) (s : string) : nat :=
  match s with
  | String c r => if p c then S (span_len p r) else O
  | EmptyString => O
  end.

(** Index of the last character of [s] satisfying [p], if any. *)
Fixpoint last_index (p : ascii -> bool) (s : string) : option nat :=
  match s with
  | EmptyString => None
  | String c r =>
      match last_index p r with
      | Some k => Some (S k)
      | None => if p c then Some O else None
      end
  end.

Definition lstrip_chars (p : ascii -> bool) (s : string) : string :=
  str_drop (span_len p s) s.

Definition rstrip_chars (p : ascii -> bool) (s : string) : string :=
  match last_index (fun c => negb (p c)) s with
  | Some k => str_take (S k) s
  | None => EmptyString
  end.

(** [s.strip(chars)] and [s.strip()]. *)
Definition strip_chars (p : ascii -> bool) (s : string) : string :=
  rstrip_chars p (lstrip_chars p s).
Definition py_strip (s : string) : string := strip_chars py_isspace s.

(** ["".join(parts)]. *)
Definition join_all (parts : list string) : string :=
  fold_right String.append EmptyString parts.

(** [sep.join(parts)]. *)
Fixpoint join_with (sep : string) (parts : list string) : string :=
  match parts with
  | [] => EmptyString
  | [p] => p
  | p :: ps => p +:+ sep +:+ join_with sep ps
  end.

(** [len(s.split())]: the number of maximal runs of non-space characters. *)
Fixpoint count_words (in_word : bool) (s : string) : nat :=
  match s with
  | EmptyString => O
  | String c r =>
      if py_isspace c then count_words false r
      else if in_word then count_words true r
      else S (count_words true r)
  end.

(** [c * n] for a character [c]. *)
Fixpoint str_repeat (c : ascii) (n : nat) : string :=
  match n with
  | O => EmptyString
  | S k => String c (str_repeat c k)
  end.

(** Every character of [s] satisfies [p]. *)
Fixpoint str_forall (p : ascii -> bool) (s : string) : bool :=
  match s with
  | EmptyString => true
  | String c r => p c && str_forall p r
  end.

(** The first [n] characters of [s] exist and satisfy [p]. *)
Fixpoint prefix_all (p : ascii -> bool) (n : nat) (s : string) : Prop :=
  match n, s with
  | O, _ => True
  | S k, String c r => p c = true /\ prefix_all p k r
  | S _, EmptyString => False
  end.

(** [out] is [s] with some characters that satisfy [p] left out. *)
Inductive erases (p : ascii -> bool) : string -> string -> Prop :=
| erases_nil : erases p EmptyString EmptyString
| erases_keep (c : ascii) (s out : string) :
    erases p s out -> erases p (String c s) (String c out)
| erases_drop (c : ascii) (s out : string) :
    p c = true -> erases p s out -> erases p (String c s) out.

Lemma str_app_nil_l (b : string) : EmptyString +:+ b = b.
Proof. reflexivity. Qed.

Lemma str_app_cons (c : ascii) (a b : string) :
  String c a +:+ b = String c (a +:+ b).
Proof. reflexivity. Qed.

Lemma pylen_app (a b : string) : pylen (a +:+ b) = (pylen a + pylen b)%Z.
Proof.
  unfold pylen. induction a as [|c a IH].
  - rewrite str_app_nil_l. simpl. lia.
  - rewrite str_app_cons. simpl String.length. lia.
Qed.

Lemma pylen_nonneg (s : string) : (0 <= pylen s)%Z.
Proof. unfold pylen. lia. Qed.

Lemma str_app_assoc (a b c : string) : (a +:+ b) +:+ c = a +:+ (b +:+ c).
Proof.
  induction a as [|x a IH]; [reflexivity|].
  rewrite !str_app_cons. now rewrite IH.
Qed.

Lemma join_all_app (l1 l2 : list string) :
  join_all (l1 ++ l2) = join_all l1 +:+ join_all l2.
Proof.
  induction l1 as [|x l1 IH]; [reflexivity|].
  change (x +:+ join_all (l1 ++ l2) = (x +:+ join_all l1) +:+ join_all l2).
  now rewrite IH, str_app_assoc.
Qed.

Lemma str_app_nil_r (s : string) : s +:+ EmptyString = s.
Proof.
  induction s as [|c s IH]; [reflexivity|]. rewrite str_app_cons. now f_equal.
Qed.

Lemma str_app_length (a b : string) :
  String.length (a +:+ b) = (String.length a + String.length b)%nat.
Proof.
  induction a as [|c a IH]; [reflexivity|]. rewrite str_app_cons. simpl. lia.
Qed.

Lemma nonempty_false (s : string) : nonempty s = false -> s = EmptyString.
Proof. now destruct s. Qed.

Lemma str_take_drop (n : nat) (s : string) : str_take n s +:+ str_drop n s = s.
Proof.
  revert s. induction n as [|n IH]; intros [|c s]; try reflexivity.
  simpl. rewrite str_app_cons. now rewrite IH.
Qed.

Lemma str_drop_drop (m n : nat) (s : string) :
  str_drop n (str_drop m s) = str_drop (m + n) s.
Proof.
  revert s. induction m as [|m IH]; intros s; [reflexivity|].
  destruct s as [|c s]; simpl; [now destruct n|apply IH].
Qed.

Lemma str_take_all (n : nat) (s : string) :
  (String.length s <= n)%nat -> str_take n s = s.
Proof.
  revert s. induction n as [|n IH]; intros [|c s] H; simpl in *;
    try reflexivity; try lia.
  f_equal. apply IH. lia.
Qed.

Lemma str_take_length (n : nat) (s : string) :
  String.length (str_take n s) = Nat.min n (String.length s).
Proof.
  revert s. induction n as [|n IH]; intros [|c s]; simpl; auto.
Qed.

Lemma str_drop_length (n : nat) (s : string) :
  String.length (str_drop n s) = (String.length s - n)%nat.
Proof.
  revert s. induction n as [|n IH]; intros [|c s]; simpl; auto.
Qed.

Lemma str_take_app (n : nat) (a b : string) :
  (String.length a <= n)%nat ->
  str_take n (a +:+ b) = a +:+ str_take (n - String.length a) b.
Proof.
  revert n. induction a as [|c a IH]; intros n H.
  - rewrite !str_app_nil_l. simpl. now rewrite Nat.sub_0_r.
  - rewrite !str_app_cons. destruct n as [|n]; simpl in *; [lia|].
    rewrite IH by lia. reflexivity.
Qed.

Lemma str_repeat_length (c : ascii) (n : nat) :
  String.length (str_repeat c n) = n.
Proof. induction n; simpl; auto. Qed.

Lemma span_len_le (p : ascii -> bool) (s : string) :
  (span_len p s <= String.length s)%nat.
Proof. induction s as [|c s IH]; simpl; [lia|]. destruct (p c); lia. Qed.

Lemma last_index_lt (p : ascii -> bool) (s : string) (q : nat) :
  last_index p s = Some q -> (q < String.length s)%nat.
Proof.
  revert q. induction s as [|c s IH]; intros q; simpl; [discriminate|].
  destruct (last_index p s) as [k|].
  - intros [= <-]. specialize (IH k eq_refl). lia.
  - destruct (p c); [intros [= <-]; lia|discriminate].
Qed.

Lemma str_forall_drop (p : ascii -> bool) (n : nat) (s : string) :
  str_forall p s = true -> str_forall p (str_drop n s) = true.
Proof.
  revert s. induction n as [|n IH]; intros [|c s]; simpl; auto.
  intros H. apply andb_true_iff in H as [_ H]. auto.
Qed.

Lemma prefix_all_span (p q : ascii -> bool) (s : string) :
  (forall c, p c = true -> q c = true) ->
  prefix_all q (span_len p s) s.
Proof.
  intros Hpq. induction s as [|c s IH]; simpl; [exact I|].
  destruct (p c) eqn:E; simpl; auto.
Qed.

Lemma prefix_all_app (p : ascii -> bool) (m n : nat) (s : string) :
  prefix_all p m s -> prefix_all p n (str_drop m s) ->
  prefix_all p (m + n) s.
Proof.
  revert s. induction m as [|m IH]; intros s; simpl; [auto|].
  destruct s as [|c s]; [tauto|]. intros [Hc Hm] Hn. split; auto.
Qed.

Lemma prefix_all_le (p : ascii -> bool) (m n : nat) (s : string) :
  (m <= n)%nat -> prefix_all p n s -> prefix_all p m s.
Proof.
  revert n s. induction m as [|m IH]; intros n s Hle; simpl; [auto|].
  destruct n as [|n]; [lia|]. destruct s as [|c s]; simpl; [auto|].
  intros [Hc Hn]. split; [exact Hc|]. apply (IH n); [lia|exact Hn].
Qed.

Lemma join_all_filter_nonempty (parts : list string) :
  join_all (List.filter nonempty parts) = join_all parts.
Proof.
  induction parts as [|x parts IH]; [reflexivity|]. simpl.
  destruct x as [|c x]; simpl; [exact IH|].
  change (join_all (?a :: ?l)) with (a +:+ join_all l). now rewrite IH.
Qed.

Lemma str_forall_take (p : ascii -> bool) (n : nat) (s : string) :
  str_forall p s = true -> str_forall p (str_take n s) = true.
Proof.
  revert s. induction n as [|n IH]; intros [|c s]; simpl; auto.
  intros H. apply andb_true_iff in H as [Hc H]. rewrite Hc. simpl. auto.
Qed.

Lemma str_forall_take_span (p : ascii -> bool) (s : string) :
  str_forall p (str_take (span_len p s) s) = true.
Proof.
  induction s as [|c s IH]; simpl; [reflexivity|].
  destruct (p c) eqn:E; simpl; [now rewrite E|reflexivity].
Qed.

Lemma last_index_sat (q : ascii -> bool) (s : string) (j : nat) :
  last_index q s = Some j -> str_forall q (str_slice j (S j) s) = true.
Proof.
  revert j. induction s as [|c s IH]; intros j; simpl; [discriminate|].
  destruct (last_index q s) as [k|] eqn:E.
  - intros [= <-]. specialize (IH k eq_refl). unfold str_slice in *.
    simpl. exact IH.
  - destruct (q c) eqn:Ec; [|discriminate]. intros [= <-].
    unfold str_slice. simpl. now rewrite Ec.
Qed.

Lemma last_index_take (q : ascii -> bool) (s : string) (k : nat) :
  last_index q s = Some k -> last_index q (str_take (S k) s) = Some k.
Proof.
  revert k. induction s as [|c s IH]; intros k; [discriminate|].
  cbn [last_index]. destruct (last_index q s) as [k'|] eqn:E.
  - intros [= <-]. specialize (IH k' eq_refl).
    change (str_take (S (S k')) (String c s))
      with (String c (str_take (S k') s)).
    change (last_index q (String c (str_take (S k') s)))
      with (match last_index q (str_take (S k') s) with
            | Some k => Some (S k)
            | None => if q c then Some O else None
            end).
    now rewrite IH.
  - destruct (q c) eqn:Ec; [|discriminate]. intros [= <-]. simpl.
    now rewrite Ec.
Qed.

Lemma str_take_take (n : nat) (s : string) :
  str_take n (str_take n s) = str_take n s.
Proof.
  revert s. induction n as [|n IH]; intros [|c s]; simpl; auto.
  now rewrite IH.
Qed.

Lemma span_len_take (p : ascii -> bool) (n : nat) (s : string) :
  span_len p s = O -> span_len p (str_take n s) = O.
Proof.
  destruct n, s as [|c s]; simpl; auto. now destruct (p c).
Qed.

Lemma span_len_lstrip (p : ascii -> bool) (s : string) :
  span_len p (lstrip_chars p s) = O.
Proof.
  unfold lstrip_chars. induction s as [|c s IH]; simpl; [reflexivity|].
  destruct (p c) eqn:E; simpl; [exact IH|now rewrite E].
Qed.

Lemma strip_chars_idempotent (p : ascii -> bool) (s : string) :
  strip_chars p (strip_chars p s) = strip_chars p s.
Proof.
  unfold strip_chars. pose proof (span_len_lstrip p s) as H0.
  set (t := lstrip_chars p s) in *.
  unfold rstrip_chars at 2 3.
  destruct (last_index (fun c => negb (p c)) t) as [k|] eqn:Ek.
  - unfold lstrip_chars. rewrite (span_len_take p (S k) t H0).
    change (str_drop 0 (str_take (S k) t)) with (str_take (S k) t).
    unfold rstrip_chars. rewrite (last_index_take _ _ _ Ek).
    apply str_take_take.
  - reflexivity.
Qed.

Lemma strip_chars_forall (p q : ascii -> bool) (s : string) :
  str_forall q s = true -> str_forall q (strip_chars p s) = true.
Proof.
  intros H. unfold strip_chars, rstrip_chars, lstrip_chars.
  destruct (last_index _ _); [|reflexivity].
  now apply str_forall_take, str_forall_drop.
Qed.

Lemma strip_chars_length (p : ascii -> bool) (s : string) :
  (String.length (strip_chars p s) <= String.length s - span_len p s)%nat.
Proof.
  unfold strip_chars, rstrip_chars, lstrip_chars.
  destruct (last_index _ _); [|simpl; lia].
  rewrite str_take_length, str_drop_length. lia.
Qed.

Lemma strip_chars_fixed_first (p : ascii -> bool) (s : string) :
  strip_chars p s = s -> span_len p s = O.
Proof.
  intros H. pose proof (strip_chars_length p s) as Hl. rewrite H in Hl.
  pose proof (span_len_le p s). lia.
Qed.

Lemma span_len_app_stop (q : ascii -> bool) (v rest : string) :
  str_forall q v = true ->
  span_len q rest = O ->
  span_len q (v +:+ rest) = String.length v.
Proof.
  intros Hv Hr. induction v as [|c v IH].
  - now rewrite str_app_nil_l.
  - rewrite str_app_cons. simpl in *. apply andb_true_iff in Hv as [Hc Hv].
    rewrite Hc. now rewrite IH.
Qed.

Lemma str_take_app_exact (a b : string) :
  str_take (String.length a) (a +:+ b) = a.
Proof.
  rewrite str_take_app by lia. rewrite Nat.sub_diag.
  destruct b; simpl; apply str_app_nil_r.
Qed.

(** [for x in xs: acc = f(acc, x)] where the body can raise. *)
Fixpoint foldM {A B : Type} (f : A -> B -> result A) (acc : A) (xs : list B)
  : result A :=
  match xs with
  | [] => Ok acc
  | x :: rest => acc' ← f acc x; foldM f acc' rest
  end.

(** [lst[i]] for [0 <= i]. *)
Definition py_index {A : Type} (lst : list A) (i : nat) : result A :=
  match lst !! i with
  | Some x => Ok x
  | None => Raise (IndexError "list index out of range")
  end.

Lemma foldM_inv {A B : Type} (P : A -> Prop) (f : A -> B -> result A) :
  (forall a x a', P a -> f a x = Ok a' -> P a') ->
  forall xs a r, P a -> foldM f a xs = Ok r -> P r.
Proof.
  intros Hf xs. induction xs as [|x xs IH]; intros a r Ha; simpl.
  - now intros [= <-].
  - destruct (f a x) as [a'|e] eqn:E; simpl; [|discriminate].
    apply IH. eapply Hf; eauto.
Qed.

Lemma foldM_map {A B C : Type} (g : A -> C -> result A) (h : B -> C)
    (xs : list B) (acc : A) :
  foldM g acc (map h xs) = foldM (fun a x => g a (h x)) acc xs.
Proof.
  revert acc. induction xs as [|x xs IH]; intros acc; simpl; [reflexivity|].
  destruct (g acc (h x)); simpl; [apply IH|reflexivity].
Qed.

(** ** llm_client/generator.py

    The generation service as the callers see it: [invoke(prompt,
    stream=False)], [invoke(prompt, stream=True)] (the tokens the stream
    yields, then its normal end or the exception it raises),
    [generator(messages, stream=False)] and the token count of
    [count_conversation_tokens].  A message in OpenAI format is the pair of
    its role and content. *)
Record Generator : Type := {
  invoke : string -> result string;
  invoke_stream : string -> list string * option exn;
  chat_completion : list (string * string) -> result string;
  count_conversation_tokens : list (string * string) -> result Z
}.

(** * golden_chunker.py *)

Module Chunker.

Record GoldenChunker : Type := {
  max_size : Z;
  chunk_size : Z;
  min_size : Z;
  merge_reversed : bool
}.

(** [GoldenChunker.__init__] *)
Definition new (max chunk min : Z) (reversed : bool) : result GoldenChunker :=
  if (max <=? 0)%Z then Raise (ValueError "max_size must be a positive integer")
  else if (chunk <=? 0)%Z then Raise (ValueError "chunk_size must be a positive integer")
  else if (min <? 0)%Z then Raise (ValueError "min_size must be >= 0")
  else if (max <? min)%Z then Raise (ValueError "min_size cannot exceed max_size")
  else if (max <? chunk)%Z then Raise (ValueError "chunk_size cannot exceed max_size")
  else Ok {| max_size := max; chunk_size := chunk; min_size := min;
             merge_reversed := reversed |}.

(** *** Regular expressions of the module

    Each pattern is matched by a scanner written for it.  [bol] says that the
    scanner stands at the start of a line ([^] with [re.MULTILINE]); [skip] is
    the number of characters of the current match still to pass, matches
    being found left to right without overlap. *)

(** One attempt of [SECTION_PATTERN = ^\s*---+\s*$] where [^] holds: the
    length of the match.  Both [\s*] are greedy and span newlines; the
    second gives characters back until [$] holds, that is at the end of the
    text or in front of a newline. *)
Definition match_section_at (s : string) : option nat :=
  let ws := span_len py_isspace s in
  let s1 := str_drop ws s in
  let d := span_len is_dash s1 in
  if (d <? 3)%nat then None
  else
    let s2 := str_drop d s1 in
    let w := span_len py_isspace s2 in
    match str_drop w s2 with
    | EmptyString => Some (ws + d + w)%nat
    | String _ _ =>
        match last_index is_newline (str_take w s2) with
        | Some q => Some (ws + d + q)%nat
        | None => None
        end
    end.

Definition cons_char (c : ascii) (parts : list string) : list string :=
  match parts with
  | [] => [String c EmptyString]
  | p :: ps => String c p :: ps
  end.

(** [re.split(SECTION_PATTERN, text)]: the text between the matches. *)
Fixpoint re_split_sections (bol : bool) (skip : nat) (s : string) : list string :=
  match s with
  | EmptyString => [EmptyString]
  | String c rest =>
      match skip with
      | S k => re_split_sections (is_newline c) k rest
      | O =>
          match (if bol then match_section_at s else None) with
          | Some (S k) => EmptyString :: re_split_sections (is_newline c) k rest
          | _ => cons_char c (re_split_sections (is_newline c) O rest)
          end
      end
  end.

Definition _split_by_section (text : string) : list string :=
  List.filter nonempty (re_split_sections true 0 text).

(** One attempt of [^(#{level})\s+.*$] where [^] holds: the length of the
    match, which runs to the end of the line on which [\s+] stops. *)
Definition match_heading_at (level : nat) (s : string) : option nat :=
  let h := span_len is_hash s in
  if negb (h =? level)%nat then None
  else
    let s1 := str_drop h s in
    let r := span_len py_isspace s1 in
    if (r =? 0)%nat then None
    else
      let t := span_len (fun c => negb (is_newline c)) (str_drop r s1) in
      Some (h + r + t)%nat.

(** [[m.start() for m in pattern.finditer(text)]] *)
Fixpoint finditer_heading (level : nat) (bol : bool) (skip pos : nat) (s : string)
  : list nat :=
  match s with
  | EmptyString => []
  | String c rest =>
      match skip with
      | S k => finditer_heading level (is_newline c) k (S pos) rest
      | O =>
          match (if bol then match_heading_at level s else None) with
          | Some (S k) => pos :: finditer_heading level (is_newline c) k (S pos) rest
          | _ => finditer_heading level (is_newline c) O (S pos) rest
          end
      end
  end.

(** The slices [text[start:end]], [end] being the next start or [len(text)]. *)
Fixpoint heading_slices (text : string) (starts : list nat) : list string :=
  match starts with
  | [] => []
  | start :: rest =>
      let stop := match rest with
                  | next :: _ => next
                  | [] => String.length text
                  end in
      str_slice start stop text :: heading_slices text rest
  end.

Definition _split_by_heading_level (text : string) (level : nat) : list string :=
  let matches := finditer_heading level true 0 0 text in
  match matches with
  | [] => [text]
  | first :: _ =>
      let chunks := heading_slices text matches in
      let preamble := strip_chars is_newline (str_take first text) in
      if nonempty preamble then preamble :: chunks else chunks
  end.

(** One round of the group in [^(?:#+\s+.*(?:\n|$))+]: its length. *)
Definition header_line_at (s : string) : option nat :=
  let h := span_len is_hash s in
  if (h =? 0)%nat then None
  else
    let s1 := str_drop h s in
    let r := span_len py_isspace s1 in
    if (r =? 0)%nat then None
    else
      let s2 := str_drop r s1 in
      let t := span_len (fun c => negb (is_newline c)) s2 in
      match str_drop t s2 with
      | String _ _ => Some (h + r + t + 1)%nat
      | EmptyString => Some (h + r + t)%nat
      end.

(** Length of [re.match(r"^(?:#+\s+.*(?:\n|$))+", text).group(0)], 0 when
    there is no match. *)
Fixpoint header_prefix_len (skip : nat) (s : string) : nat :=
  match s with
  | EmptyString => O
  | String _ rest =>
      match skip with
      | S k => S (header_prefix_len k rest)
      | O =>
          match header_line_at s with
          | Some (S k) => S (header_prefix_len k rest)
          | _ => O
          end
      end
  end.

(** *** Small-chunk merge *)

(** One turn of the bottom-up [while i > 0] loop: the list, the index and
    the candidates written by this turn (at most one). *)
Definition bottom_up_body (self : GoldenChunker) (merged : list string) (i : nat)
  : result (list string * nat * list string) :=
  mi ← py_index merged i;
  if (pylen mi <? min_size self)%Z then
    mp ← py_index merged (i - 1);
    let candidate := mp +:+ mi in
    if (pylen candidate <=? max_size self)%Z then
      let merged' := delete i (<[(i - 1)%nat := candidate]> merged) in
      Ok (merged', Nat.min i (length merged' - 1), [candidate])
    else Ok (merged, (i - 1)%nat, [])
  else Ok (merged, (i - 1)%nat, []).

(** One turn of the top-down [while i < len(merged) - 1] loop. *)
Definition top_down_body (self : GoldenChunker) (merged : list string) (i : nat)
  : result (list string * nat * list string) :=
  mi ← py_index merged i;
  if (pylen mi <? min_size self)%Z then
    mn ← py_index merged (i + 1);
    let candidate := mi +:+ mn in
    if (pylen candidate <=? max_size self)%Z then
      Ok (delete (i + 1)%nat (<[i := candidate]> merged), i, [candidate])
    else Ok (merged, (i + 1)%nat, [])
  else Ok (merged, (i + 1)%nat, []).

Lemma bottom_up_body_decreases self merged i merged' i' ev :
  (0 < i)%nat ->
  bottom_up_body self merged i = Ok (merged', i', ev) ->
  (i' + length merged' < i + length merged)%nat.
Proof.
  intros Hi. unfold bottom_up_body, py_index.
  destruct (merged !! i) as [mi|] eqn:Emi; simpl; [|discriminate].
  pose proof (lookup_lt_Some _ _ _ Emi) as Hlt.
  destruct (pylen mi <? min_size self)%Z.
  - destruct (merged !! (i - 1)%nat) as [mp|]; simpl; [|discriminate].
    destruct (pylen (mp +:+ mi) <=? max_size self)%Z; intros [= <- <- <-].
    + rewrite length_delete.
      * rewrite length_insert. lia.
      * apply lookup_lt_is_Some. rewrite length_insert. exact Hlt.
    + lia.
  - intros [= <- <- <-]. lia.
Qed.

Lemma top_down_body_decreases self merged i merged' i' ev :
  (i < length merged - 1)%nat ->
  top_down_body self merged i = Ok (merged', i', ev) ->
  (2 * length merged' - i' < 2 * length merged - i)%nat.
Proof.
  intros Hi. unfold top_down_body, py_index.
  destruct (merged !! i) as [mi|]; simpl; [|discriminate].
  destruct (pylen mi <? min_size self)%Z.
  - destruct (merged !! (i + 1)%nat) as [mn|] eqn:Emn; simpl; [|discriminate].
    destruct (pylen (mi +:+ mn) <=? max_size self)%Z; intros [= <- <- <-].
    + rewrite length_delete.
      * rewrite length_insert. lia.
      * apply lookup_lt_is_Some. rewrite length_insert.
        exact (lookup_lt_Some _ _ _ Emn).
    + lia.
  - intros [= <- <- <-]. lia.
Qed.

(** The bottom-up loop, from the state [(merged, i)]; [log] collects the
    candidates written so far. *)
Equations? bottom_up_loop (self : GoldenChunker) (merged : list string) (i : nat)
    (log : list string) : result (list string * list string)
    by wf (i + length merged)%nat lt :=
  bottom_up_loop self merged i log with inspect (0 <? i)%nat := {
    | exist _ false _ := Ok (merged, log);
    | exist _ true Hi with inspect (bottom_up_body self merged i) := {
        | exist _ (Raise e) _ := Raise e;
        | exist _ (Ok (merged', i', ev)) Hb :=
            bottom_up_loop self merged' i' (log ++ ev) } }.
Proof.
  apply Nat.ltb_lt in Hi. eapply bottom_up_body_decreases; eauto.
Qed.

(** The top-down loop. *)
Equations? top_down_loop (self : GoldenChunker) (merged : list string) (i : nat)
    (log : list string) : result (list string * list string)
    by wf (2 * length merged - i)%nat lt :=
  top_down_loop self merged i log with inspect (i <? length merged - 1)%nat := {
    | exist _ false _ := Ok (merged, log);
    | exist _ true Hi with inspect (top_down_body self merged i) := {
        | exist _ (Raise e) _ := Raise e;
        | exist _ (Ok (merged', i', ev)) Hb :=
            top_down_loop self merged' i' (log ++ ev) } }.
Proof.
  apply Nat.ltb_lt in Hi. eapply top_down_body_decreases; eauto.
Qed.

(** [_merge_small_chunks], with the candidates it wrote, in order. *)
Definition merge_small_chunks_log (self : GoldenChunker) (chunks : list string)
  : result (list string * list string) :=
  if (min_size self =? 0)%Z || (match chunks with [] => true | _ => false end)
  then Ok (chunks, [])
  else if merge_reversed self
       then bottom_up_loop self chunks (length chunks - 1) []
       else top_down_loop self chunks 0 [].

Definition _merge_small_chunks (self : GoldenChunker) (chunks : list string)
  : result (list string) :=
  '(merged, _) ← merge_small_chunks_log self chunks; Ok merged.

(** *** The fallback splitter and the driver *)

Section WithSplitter.

(** [RecursiveCharacterTextSplitter(chunk_size=size, chunk_overlap=0,
    add_start_index=False).split_text(body)] of [langchain_text_splitters],
    a library outside the repository: building the splitter may raise, and
    [split_text] returns the pieces. *)
Variable split_text : Z -> string -> result (list string).

Definition _fallback_split_with_headers (self : GoldenChunker) (text : string)
  : result (list string) :=
  let header_prefix := str_take (header_prefix_len 0 text) text in
  let effective_size :=
    if nonempty header_prefix
    then (chunk_size self - pylen header_prefix)%Z
    else chunk_size self in
  let body :=
    if nonempty header_prefix
    then str_drop (String.length header_prefix) text
    else text in
  body_chunks ← split_text effective_size body;
  if negb (nonempty header_prefix) then Ok body_chunks
  else Ok (map (fun chunk => header_prefix +:+ chunk) body_chunks).

(** [target = chunks if len(sub) <= self.chunk_size else next_round;
    target.append(sub)] on the pair [(chunks, next_round)]. *)
Definition route (self : GoldenChunker) (acc : list string * list string)
    (sub : string) : list string * list string :=
  let '(chunks, next_round) := acc in
  if (pylen sub <=? chunk_size self)%Z
  then (chunks ++ [sub], next_round)
  else (chunks, next_round ++ [sub]).

(** The body of [for piece in oversized]. *)
Definition split_piece (self : GoldenChunker) (level : nat)
    (acc : list string * list string) (piece : string)
  : list string * list string :=
  let '(chunks, next_round) := acc in
  if (pylen piece <=? chunk_size self)%Z then (chunks ++ [piece], next_round)
  else
    let sub_parts := _split_by_heading_level piece level in
    if (length sub_parts =? 1)%nat then (chunks, next_round ++ [piece])
    else fold_left (route self) sub_parts (chunks, next_round).

(** [for level in range(1, 7)], with its early [break]: the pair
    [(oversized, chunks)] after the loop. *)
Fixpoint split_levels (self : GoldenChunker) (levels : list nat)
    (oversized chunks : list string) : list string * list string :=
  match levels with
  | [] => (oversized, chunks)
  | level :: more =>
      let '(chunks', next_round) :=
        fold_left (split_piece self level) oversized (chunks, []) in
      match next_round with
      | [] => ([], chunks')
      | _ :: _ => split_levels self more next_round chunks'
      end
  end.

Definition _split_recursively (self : GoldenChunker) (text : string)
  : result (list string) :=
  let '(oversized, chunks) := split_levels self (seq 1 6) [text] [] in
  chunks ← _merge_small_chunks self chunks;
  foldM (fun chunks remainder =>
           if (max_size self <? pylen remainder)%Z
           then parts ← _fallback_split_with_headers self remainder;
                Ok (chunks ++ parts)
           else Ok (chunks ++ [remainder]))
        chunks oversized.

Definition chunk (self : GoldenChunker) (text : string) : result (list string) :=
  foldM (fun chunks section =>
           if (pylen section <=? chunk_size self)%Z
           then Ok (chunks ++ [section])
           else parts ← _split_recursively self section;
                Ok (chunks ++ parts))
        [] (_split_by_section text).

End WithSplitter.

(** A splitter used to run the chunker on examples: consecutive pieces of
    [size] characters, and [ValueError] for a size that is not positive. *)
Fixpoint fixed_pieces (fuel size : nat) (s : string) : list string :=
  match fuel, s with
  | S fuel', String _ _ =>
      str_take size s :: fixed_pieces fuel' size (str_drop size s)
  | _, _ => []
  end.

Definition fixed_size_splitter (size : Z) (body : string) : result (list string) :=
  if (size <=? 0)%Z then Raise (ValueError "chunk_size must be > 0")
  else Ok (fixed_pieces (String.length body) (Z.to_nat size) body).

(** *** Properties of the merge step *)

Definition within (bound : Z) (c : string) : Prop := (pylen c <= bound)%Z.

(** Gluing the neighbours at [j] and [S j] of a list. *)
Lemma glue_at (l : list string) (j : nat) (a b c : string) :
  l !! j = Some a -> l !! S j = Some b ->
  l = take j l ++ a :: b :: drop (S (S j)) l /\
  delete (S j) (<[j := c]> l) = take j l ++ c :: drop (S (S j)) l.
Proof.
  revert j. induction l as [|x l IH]; intros [|j] Ha Hb; simpl in *;
    try discriminate.
  - destruct l as [|y l]; simpl in *; [discriminate|].
    injection Ha as ->. injection Hb as ->. rewrite drop_0. split; reflexivity.
  - destruct (IH j Ha Hb) as [E1 E2]. split.
    + f_equal. exact E1.
    + f_equal. exact E2.
Qed.

(** What one turn of a loop did: nothing but move the index, or one merge of
    two neighbours whose result fits [max_size]. *)
Inductive turn (self : GoldenChunker) (merged : list string)
  : list string -> list string -> Prop :=
| turn_skip : turn self merged merged []
| turn_merge (j : nat) (a b : string) :
    merged !! j = Some a -> merged !! S j = Some b ->
    (pylen (a +:+ b) <= max_size self)%Z ->
    turn self merged (take j merged ++ (a +:+ b) :: drop (S (S j)) merged)
         [a +:+ b].

Lemma bottom_up_body_turn self merged i merged' i' ev :
  (0 < i)%nat ->
  bottom_up_body self merged i = Ok (merged', i', ev) ->
  turn self merged merged' ev.
Proof.
  intros Hi. unfold bottom_up_body, py_index.
  destruct (merged !! i) as [mi|] eqn:Emi; simpl; [|discriminate].
  destruct (pylen mi <? min_size self)%Z.
  - destruct (merged !! (i - 1)%nat) as [mp|] eqn:Emp; simpl; [|discriminate].
    destruct (pylen (mp +:+ mi) <=? max_size self)%Z eqn:Efit;
      intros [= <- <- <-]; [|constructor].
    replace i with (S (i - 1)) in Emi |- * by lia.
    replace (S (i - 1) - 1)%nat with (i - 1)%nat by lia.
    destruct (glue_at merged (i - 1) mp mi (mp +:+ mi) Emp Emi) as [_ ->].
    apply turn_merge; auto. now apply Z.leb_le.
  - intros [= <- <- <-]. constructor.
Qed.

Lemma top_down_body_turn self merged i merged' i' ev :
  top_down_body self merged i = Ok (merged', i', ev) ->
  turn self merged merged' ev.
Proof.
  unfold top_down_body, py_index.
  destruct (merged !! i) as [mi|] eqn:Emi; simpl; [|discriminate].
  destruct (pylen mi <? min_size self)%Z.
  - replace (i + 1)%nat with (S i) by lia.
    destruct (merged !! S i) as [mn|] eqn:Emn; simpl; [|discriminate].
    destruct (pylen (mi +:+ mn) <=? max_size self)%Z eqn:Efit;
      intros [= <- <- <-]; [|constructor].
    destruct (glue_at merged i mi mn (mi +:+ mn) Emi Emn) as [_ ->].
    apply turn_merge; auto. now apply Z.leb_le.
  - intros [= <- <- <-]. constructor.
Qed.

Lemma turn_within self merged merged' ev :
  turn self merged merged' ev ->
  Forall (within (max_size self)) merged ->
  Forall (within (max_size self)) merged'.
Proof.
  intros [|j a b Ha Hb Hfit] Hall; [exact Hall|].
  apply Forall_app. split.
  - now apply Forall_take.
  - constructor; [exact Hfit | now apply Forall_drop].
Qed.

Lemma turn_log self merged merged' ev :
  turn self merged merged' ev -> Forall (within (max_size self)) ev.
Proof. intros [|j a b Ha Hb Hfit]; repeat constructor. exact Hfit. Qed.

Lemma turn_join self merged merged' ev :
  turn self merged merged' ev -> join_all merged' = join_all merged.
Proof.
  intros [|j a b Ha Hb Hfit]; [reflexivity|].
  destruct (glue_at merged j a b (a +:+ b) Ha Hb) as [E _].
  rewrite E at 3. rewrite !join_all_app. f_equal.
  change (join_all ((a +:+ b) :: ?l)) with ((a +:+ b) +:+ join_all l).
  change (join_all (a :: b :: ?l)) with (a +:+ (b +:+ join_all l)).
  apply str_app_assoc.
Qed.

(** Loop invariants: a property of [(merged, log)] kept by every turn holds
    when the loop returns. *)
Lemma bottom_up_loop_inv self (I : list string -> list string -> Prop) :
  (forall merged log merged' ev,
      I merged log -> turn self merged merged' ev -> I merged' (log ++ ev)) ->
  forall merged i log merged' log',
    I merged log ->
    bottom_up_loop self merged i log = Ok (merged', log') ->
    I merged' log'.
Proof.
  intros Hstep merged i log.
  funelim (bottom_up_loop self merged i log); intros m' l' HI Hres.
  - injection Hres as <- <-. exact HI.
  - eapply H; [exact Hstep | | exact Hres].
    eapply Hstep; [exact HI|].
    eapply bottom_up_body_turn; [|exact Hb]. now apply Nat.ltb_lt.
  - discriminate.
Qed.

Lemma top_down_loop_inv self (I : list string -> list string -> Prop) :
  (forall merged log merged' ev,
      I merged log -> turn self merged merged' ev -> I merged' (log ++ ev)) ->
  forall merged i log merged' log',
    I merged log ->
    top_down_loop self merged i log = Ok (merged', log') ->
    I merged' log'.
Proof.
  intros Hstep merged i log.
  funelim (top_down_loop self merged i log); intros m' l' HI Hres.
  - injection Hres as <- <-. exact HI.
  - eapply H; [exact Hstep | | exact Hres].
    eapply Hstep; [exact HI|].
    eapply top_down_body_turn; exact Hb.
  - discriminate.
Qed.

Lemma merge_small_chunks_log_inv self (I : list string -> list string -> Prop) :
  (forall merged log merged' ev,
      I merged log -> turn self merged merged' ev -> I merged' (log ++ ev)) ->
  forall chunks merged log,
    I chunks [] ->
    merge_small_chunks_log self chunks = Ok (merged, log) ->
    I merged log.
Proof.
  intros Hstep chunks merged log HI. unfold merge_small_chunks_log.
  destruct (_ || _).
  - intros [= <- <-]. exact HI.
  - destruct (merge_reversed self).
    + now apply bottom_up_loop_inv.
    + now apply top_down_loop_inv.
Qed.

(** The loops never leave the list: no [IndexError]. *)
Lemma bottom_up_body_ok self merged i :
  (0 < i < length merged)%nat ->
  exists merged' i' ev,
    bottom_up_body self merged i = Ok (merged', i', ev) /\
    (i' < length merged')%nat.
Proof.
  intros [Hi Hlt]. unfold bottom_up_body, py_index.
  destruct (lookup_lt_is_Some_2 merged i Hlt) as [mi ->].
  destruct (lookup_lt_is_Some_2 merged (i - 1)) as [mp ->]; [lia|]. simpl.
  destruct (pylen mi <? min_size self)%Z; simpl.
  - destruct (pylen (mp +:+ mi) <=? max_size self)%Z.
    + eexists _, _, _. split; [reflexivity|].
      rewrite length_delete, length_insert; [lia|].
      apply lookup_lt_is_Some. now rewrite length_insert.
    + eexists _, _, _. split; [reflexivity|lia].
  - eexists _, _, _. split; [reflexivity|lia].
Qed.

Lemma top_down_body_ok self merged i :
  (i < length merged - 1)%nat ->
  exists r, top_down_body self merged i = Ok r.
Proof.
  intros Hlt. unfold top_down_body, py_index.
  destruct (lookup_lt_is_Some_2 merged i) as [mi ->]; [lia|].
  destruct (lookup_lt_is_Some_2 merged (i + 1)) as [mn ->]; [lia|]. simpl.
  destruct (pylen mi <? min_size self)%Z; simpl; [|eauto].
  destruct (pylen (mi +:+ mn) <=? max_size self)%Z; eauto.
Qed.

Lemma bottom_up_loop_total self merged i log :
  (i < length merged)%nat ->
  exists r, bottom_up_loop self merged i log = Ok r.
Proof.
  funelim (bottom_up_loop self merged i log); intros Hlt.
  - eauto.
  - apply H. pose proof (proj1 (Nat.ltb_lt _ _) Hi) as Hi'.
    destruct (bottom_up_body_ok self merged i) as (m & j & e & E & Hj); [lia|].
    assert (Ok (m, j, e) = Ok (merged', i', ev)) as [= -> -> ->]
      by now rewrite <- E.
    exact Hj.
  - pose proof (proj1 (Nat.ltb_lt _ _) Hi) as Hi'.
    destruct (bottom_up_body_ok self merged i) as (m & j & ev & E & Hj); [lia|].
    congruence.
Qed.

Lemma top_down_loop_total self merged i log :
  exists r, top_down_loop self merged i log = Ok r.
Proof.
  funelim (top_down_loop self merged i log).
  - eauto.
  - exact H.
  - pose proof (proj1 (Nat.ltb_lt _ _) Hi) as Hi'.
    destruct (top_down_body_ok self merged i Hi') as [r E].
    congruence.
Qed.

Lemma merge_small_chunks_log_total self chunks :
  exists merged log, merge_small_chunks_log self chunks = Ok (merged, log).
Proof.
  unfold merge_small_chunks_log.
  destruct chunks as [|c chunks].
  - rewrite orb_true_r. eauto.
  - rewrite orb_false_r. destruct (min_size self =? 0)%Z; [eauto|].
    destruct (merge_reversed self).
    + destruct (bottom_up_loop_total self (c :: chunks)
                  (length (c :: chunks) - 1) []) as [[m l] E];
        [simpl; lia | eauto].
    + destruct (top_down_loop_total self (c :: chunks) 0 []) as [[m l] E].
      eauto.
Qed.

Lemma merge_small_chunks_unfold self chunks merged :
  _merge_small_chunks self chunks = Ok merged <->
  exists log, merge_small_chunks_log self chunks = Ok (merged, log).
Proof.
  unfold _merge_small_chunks.
  destruct (merge_small_chunks_log self chunks) as [[m l]|e]; simpl.
  - split; [intros [= <-]; eauto | intros [l' [= <- <-]]; reflexivity].
  - split; [discriminate | intros [l' E]; discriminate].
Qed.

Lemma merge_small_chunks_within self chunks merged :
  Forall (within (max_size self)) chunks ->
  _merge_small_chunks self chunks = Ok merged ->
  Forall (within (max_size self)) merged.
Proof.
  intros Hall Hm. apply merge_small_chunks_unfold in Hm as [log Hm].
  apply (merge_small_chunks_log_inv self
           (fun m _ => Forall (within (max_size self)) m)) in Hm; auto.
  intros m l m' ev Hm' Ht. eapply turn_within; eauto.
Qed.

Lemma within_mono (a b : Z) (c : string) :
  (a <= b)%Z -> within a c -> within b c.
Proof. unfold within. lia. Qed.

Lemma fold_route_within self subs acc :
  Forall (within (chunk_size self)) (fst acc) ->
  Forall (within (chunk_size self)) (fst (fold_left (route self) subs acc)).
Proof.
  revert acc. induction subs as [|sub subs IH]; intros [chunks nr] H; simpl.
  - exact H.
  - apply IH. unfold route.
    destruct (pylen sub <=? chunk_size self)%Z eqn:E; simpl in *; [|exact H].
    apply Forall_app. split; [exact H|].
    repeat constructor. unfold within. now apply Z.leb_le.
Qed.

Lemma split_piece_within self level acc piece :
  Forall (within (chunk_size self)) (fst acc) ->
  Forall (within (chunk_size self)) (fst (split_piece self level acc piece)).
Proof.
  destruct acc as [chunks nr]. intros H. unfold split_piece.
  destruct (pylen piece <=? chunk_size self)%Z eqn:E; simpl.
  - apply Forall_app. split; [exact H|].
    repeat constructor. unfold within. now apply Z.leb_le.
  - destruct (length _ =? 1)%nat; simpl; [exact H|].
    now apply fold_route_within.
Qed.

Lemma fold_split_piece_within self level oversized acc :
  Forall (within (chunk_size self)) (fst acc) ->
  Forall (within (chunk_size self))
         (fst (fold_left (split_piece self level) oversized acc)).
Proof.
  revert acc. induction oversized as [|p ps IH]; intros acc H; simpl.
  - exact H.
  - apply IH. now apply split_piece_within.
Qed.

Lemma split_levels_within self levels oversized chunks :
  Forall (within (chunk_size self)) chunks ->
  Forall (within (chunk_size self))
         (snd (split_levels self levels oversized chunks)).
Proof.
  revert oversized chunks.
  induction levels as [|level more IH]; intros oversized chunks H; simpl.
  - exact H.
  - pose proof (fold_split_piece_within self level oversized (chunks, []) H)
      as Hf.
    destruct (fold_left _ oversized (chunks, [])) as [chunks' nr].
    destruct nr; simpl in *; [exact Hf | now apply IH].
Qed.

Section SplitterContract.

Variable split_text : Z -> string -> result (list string).

(** The contract of the library splitter: a size that is not positive is
    refused when the splitter is built, and no piece is longer than a
    positive size. *)
Hypothesis split_text_rejects :
  forall size body, (size <= 0)%Z -> exists e, split_text size body = Raise e.
Hypothesis split_text_bound :
  forall size body pieces,
    (0 < size)%Z -> split_text size body = Ok pieces ->
    Forall (within size) pieces.

Lemma split_text_within size body pieces :
  split_text size body = Ok pieces -> Forall (within size) pieces.
Proof.
  intros E. destruct (Z.lt_ge_cases 0 size) as [Hpos|Hneg].
  - eapply split_text_bound; eauto.
  - destruct (split_text_rejects size body Hneg) as [e E']. congruence.
Qed.

Lemma fallback_within self text parts :
  _fallback_split_with_headers split_text self text = Ok parts ->
  Forall (within (chunk_size self)) parts.
Proof.
  unfold _fallback_split_with_headers.
  set (hp := str_take (header_prefix_len 0 text) text).
  destruct (nonempty hp); simpl.
  - destruct (split_text _ _) as [pieces|e] eqn:E; simpl; [|discriminate].
    intros [= <-]. apply split_text_within in E.
    apply Forall_map. eapply Forall_impl; [exact E|].
    intros c Hc. unfold within in *. simpl. rewrite pylen_app. lia.
  - destruct (split_text _ _) as [pieces|e] eqn:E; simpl; [|discriminate].
    intros [= <-]. now apply split_text_within in E.
Qed.

Lemma split_recursively_within self text parts :
  (chunk_size self <= max_size self)%Z ->
  _split_recursively split_text self text = Ok parts ->
  Forall (within (max_size self)) parts.
Proof.
  intros Hle. unfold _split_recursively.
  pose proof (split_levels_within self (seq 1 6) [text] []
                (List.Forall_nil _))
    as Hsl.
  destruct (split_levels self (seq 1 6) [text] []) as [oversized chunks].
  simpl in Hsl.
  destruct (_merge_small_chunks self chunks) as [merged|e] eqn:Em; simpl;
    [|discriminate].
  apply merge_small_chunks_within in Em;
    [|eapply Forall_impl; [exact Hsl | intros c; now apply within_mono]].
  apply foldM_inv; [|exact Em].
  intros acc remainder acc' Hacc.
  destruct (max_size self <? pylen remainder)%Z eqn:Ebig.
  - destruct (_fallback_split_with_headers _ _ _) as [ps|e] eqn:Ef; simpl;
      [|discriminate].
    intros [= <-]. apply Forall_app. split; [exact Hacc|].
    apply fallback_within in Ef.
    eapply Forall_impl; [exact Ef | intros c; now apply within_mono].
  - intros [= <-]. apply Forall_app. split; [exact Hacc|].
    repeat constructor. unfold within. apply Z.ltb_ge in Ebig. lia.
Qed.

(** C1.  For every text and every chunker with [max_size > 0],
    [chunk_size <= max_size] and [min_size <= max_size], every string of the
    list returned by [chunk] has length at most [max_size].  The fallback
    splitter is any function meeting the contract of the library splitter. *)
Theorem chunk_within_max_size (self : GoldenChunker) (text : string)
    (chunks : list string) :
  (0 < max_size self)%Z ->
  (chunk_size self <= max_size self)%Z ->
  (min_size self <= max_size self)%Z ->
  chunk split_text self text = Ok chunks ->
  Forall (fun c => (pylen c <= max_size self)%Z) chunks.
Proof.
  intros _ Hle _. unfold chunk.
  apply (foldM_inv (Forall (within (max_size self)))); [|constructor].
  intros acc section acc' Hacc.
  destruct (pylen section <=? chunk_size self)%Z eqn:Efit.
  - intros [= <-]. apply Forall_app. split; [exact Hacc|].
    repeat constructor. unfold within. apply Z.leb_le in Efit. lia.
  - destruct (_split_recursively _ _ _) as [ps|e] eqn:Er; simpl;
      [|discriminate].
    intros [= <-]. apply Forall_app. split; [exact Hacc|].
    now apply split_recursively_within in Er.
Qed.

End SplitterContract.

Lemma fixed_pieces_within fuel size s :
  (0 < size)%nat -> Forall (within (Z.of_nat size)) (fixed_pieces fuel size s).
Proof.
  intros Hpos. revert s. induction fuel as [|fuel IH]; intros s; simpl.
  - constructor.
  - destruct s as [|c s]; constructor; [|apply IH].
    unfold within, pylen. apply inj_le.
    generalize (String c s). clear. intros s. revert s.
    induction size as [|n IHn]; intros [|c s]; simpl; try lia.
    specialize (IHn s). lia.
Qed.

Lemma fixed_size_splitter_rejects size body :
  (size <= 0)%Z -> exists e, fixed_size_splitter size body = Raise e.
Proof.
  intros H. unfold fixed_size_splitter.
  destruct (size <=? 0)%Z eqn:E; [eauto|]. apply Z.leb_gt in E. lia.
Qed.

Lemma fixed_size_splitter_bound size body pieces :
  (0 < size)%Z -> fixed_size_splitter size body = Ok pieces ->
  Forall (within size) pieces.
Proof.
  intros H. unfold fixed_size_splitter.
  destruct (size <=? 0)%Z eqn:E; [discriminate|]. intros [= <-].
  rewrite <- (Z2Nat.id size) at 1 by lia.
  apply fixed_pieces_within. lia.
Qed.

(** A text whose only section is a heading line followed by twelve letters:
    nothing fits [chunk_size], so the fallback splitter cuts it. *)
Definition demo_chunker : GoldenChunker :=
  {| max_size := 8; chunk_size := 6; min_size := 2; merge_reversed := false |}.
Definition demo_text : string :=
  "# T" +:+ String newline "abcdefghijkl".

Lemma chunk_within_max_size_witness :
  exists chunks,
    chunk fixed_size_splitter demo_chunker demo_text = Ok chunks /\
    length chunks = 6%nat /\
    Forall (fun c => (pylen c <= max_size demo_chunker)%Z) chunks.
Proof.
  eexists. split; [vm_compute; reflexivity|]. split; [reflexivity|].
  apply (chunk_within_max_size fixed_size_splitter
           fixed_size_splitter_rejects fixed_size_splitter_bound
           demo_chunker demo_text).
  - simpl; lia.
  - simpl; lia.
  - simpl; lia.
  - vm_compute; reflexivity.
Defined.

(** C8.  Every merge performed by the small-chunk merge step writes a chunk
    of length at most [max_size] ([log] lists the chunks written, one per
    chunk removed); and a turn of either loop whose candidate would exceed
    [max_size] leaves the list as it is and moves on. *)
Theorem merges_stay_within_max_size (self : GoldenChunker)
    (chunks : list string) :
  (exists merged log,
      merge_small_chunks_log self chunks = Ok (merged, log) /\
      Forall (fun c => (pylen c <= max_size self)%Z) log /\
      (length merged + length log = length chunks)%nat) /\
  (forall merged i a b,
      merged !! (i - 1)%nat = Some a -> merged !! i = Some b ->
      (max_size self < pylen (a +:+ b))%Z ->
      bottom_up_body self merged i = Ok (merged, (i - 1)%nat, [])) /\
  (forall merged i a b,
      merged !! i = Some a -> merged !! (i + 1)%nat = Some b ->
      (max_size self < pylen (a +:+ b))%Z ->
      top_down_body self merged i = Ok (merged, (i + 1)%nat, [])).
Proof.
  split; [|split].
  - destruct (merge_small_chunks_log_total self chunks) as (merged & log & E).
    exists merged, log. split; [exact E|].
    apply (merge_small_chunks_log_inv self
             (fun m l => Forall (within (max_size self)) l /\
                         (length m + length l = length chunks)%nat)) in E;
      [exact E | | split; [constructor | simpl; lia]].
    intros m l m' ev [Hl Hlen] Ht. split.
    + apply Forall_app. split; [exact Hl | eapply turn_log; eauto].
    + rewrite length_app.
      destruct Ht as [|j a b Ha Hb Hfit]; simpl; [lia|].
      pose proof (lookup_lt_Some _ _ _ Hb).
      rewrite length_app, length_take. simpl. rewrite length_drop. lia.
  - intros merged i a b Ha Hb Hbig. unfold bottom_up_body, py_index.
    rewrite Hb, Ha. simpl.
    destruct (pylen b <? min_size self)%Z; simpl; [|reflexivity].
    apply Z.leb_gt in Hbig. now rewrite Hbig.
  - intros merged i a b Ha Hb Hbig. unfold top_down_body, py_index.
    rewrite Hb, Ha. simpl.
    destruct (pylen a <? min_size self)%Z; simpl; [|reflexivity].
    apply Z.leb_gt in Hbig. now rewrite Hbig.
Qed.

(** C10.  For every chunk list and both merge directions, the merge step
    returns, and the concatenation of its output equals the concatenation of
    its input. *)
Theorem merge_preserves_text (self : GoldenChunker) (chunks : list string) :
  exists merged,
    _merge_small_chunks self chunks = Ok merged /\
    join_all merged = join_all chunks.
Proof.
  destruct (merge_small_chunks_log_total self chunks) as (merged & log & E).
  exists merged. split.
  - apply merge_small_chunks_unfold. eauto.
  - apply (merge_small_chunks_log_inv self
             (fun m _ => join_all m = join_all chunks)) in E; auto.
    intros m l m' ev Hm Ht. rewrite <- Hm. eapply turn_join; eauto.
Qed.

(** Runs of the merge step: bottom-up, top-down, and a merge refused because
    the glued chunk would exceed [max_size]. *)
Example merge_bottom_up_run :
  merge_small_chunks_log
    {| max_size := 6; chunk_size := 4; min_size := 3; merge_reversed := true |}
    ["ab"; "cd"; "efgh"; "i"; "jk"]
  = Ok (["abcd"; "efgh"; "ijk"], ["ijk"; "abcd"]).
Proof. vm_compute. reflexivity. Qed.

Example merge_top_down_run :
  merge_small_chunks_log
    {| max_size := 6; chunk_size := 4; min_size := 3; merge_reversed := false |}
    ["ab"; "cd"; "efgh"; "i"; "jk"]
  = Ok (["abcd"; "efgh"; "ijk"], ["abcd"; "ijk"]).
Proof. vm_compute. reflexivity. Qed.

Example merge_refused_run :
  merge_small_chunks_log
    {| max_size := 3; chunk_size := 3; min_size := 3; merge_reversed := false |}
    ["ab"; "cd"]
  = Ok (["ab"; "cd"], []).
Proof. vm_compute. reflexivity. Qed.

(** The scanners on small texts. *)
Example split_by_section_run :
  _split_by_section
    ("a" +:+ String newline (String newline "---") +:+ String newline "b")
  = ["a" +:+ String newline ""; String newline "b"].
Proof. vm_compute. reflexivity. Qed.

Example split_by_heading_run :
  _split_by_heading_level
    ("intro" +:+ String newline "# A" +:+ String newline "## sub"
             +:+ String newline "# B") 1
  = ["intro"; "# A" +:+ String newline "## sub" +:+ String newline "";
     "# B"].
Proof. vm_compute. reflexivity. Qed.

(** *** What the merge step leaves behind *)

(** A chunk left short by the merge step could not be glued to the
    neighbour its loop glues it to: the chunk in front of it for the
    bottom-up loop, the chunk behind it for the top-down loop. *)
Definition settled_up (self : GoldenChunker) (merged : list string) (j : nat)
  : Prop :=
  forall a b, merged !! (j - 1)%nat = Some a -> merged !! j = Some b ->
    (pylen b < min_size self)%Z -> (max_size self < pylen (a +:+ b))%Z.

Definition settled_down (self : GoldenChunker) (merged : list string) (j : nat)
  : Prop :=
  forall a b, merged !! j = Some a -> merged !! S j = Some b ->
    (pylen a < min_size self)%Z -> (max_size self < pylen (a +:+ b))%Z.

Lemma bottom_up_body_settled self merged i merged' i' ev :
  (0 < i)%nat ->
  (forall j, (i < j)%nat -> settled_up self merged j) ->
  bottom_up_body self merged i = Ok (merged', i', ev) ->
  forall j, (i' < j)%nat -> settled_up self merged' j.
Proof.
  intros Hi Hinv. unfold bottom_up_body, py_index.
  destruct (merged !! i) as [mi|] eqn:Emi; simpl; [|discriminate].
  pose proof (lookup_lt_Some _ _ _ Emi) as Hlt.
  destruct (pylen mi <? min_size self)%Z eqn:Esmall.
  - destruct (merged !! (i - 1)%nat) as [mp|] eqn:Emp; simpl; [|discriminate].
    destruct (pylen (mp +:+ mi) <=? max_size self)%Z eqn:Efit;
      intros [= <- <- <-]; intros j Hj a b Ha Hb Hsmall.
    + assert (length (delete i (<[(i - 1)%nat:=mp +:+ mi]> merged))
              = (length merged - 1)%nat) as Hlen.
      { rewrite length_delete, length_insert; [reflexivity|].
        apply lookup_lt_is_Some. now rewrite length_insert. }
      pose proof (lookup_lt_Some _ _ _ Hb) as Hjlt. rewrite Hlen in Hj, Hjlt.
      rewrite list_lookup_delete_ge in Ha, Hb by lia.
      rewrite list_lookup_insert_ne in Ha, Hb by lia.
      apply (Hinv (S j)); [lia| |exact Hb|exact Hsmall].
      replace (S j - 1)%nat with (S (j - 1)) by lia. exact Ha.
    + apply Z.leb_gt in Efit.
      destruct (decide (j = i)) as [->|Hne].
      * rewrite Emp in Ha. rewrite Emi in Hb. now injection Ha as <-; injection Hb as <-.
      * apply (Hinv j); auto. lia.
  - intros [= <- <- <-]. intros j Hj a b Ha Hb Hsmall.
    destruct (decide (j = i)) as [->|Hne].
    + rewrite Emi in Hb. injection Hb as <-. apply Z.ltb_ge in Esmall. lia.
    + apply (Hinv j); auto. lia.
Qed.

Lemma bottom_up_loop_settled self merged i log :
  forall merged' log',
  (forall j, (i < j)%nat -> settled_up self merged j) ->
  bottom_up_loop self merged i log = Ok (merged', log') ->
  forall j, (0 < j)%nat -> settled_up self merged' j.
Proof.
  funelim (bottom_up_loop self merged i log); intros m' l' Hinv Hres.
  - injection Hres as <- <-. intros j Hj. apply Hinv.
    destruct i; [exact Hj|discriminate].
  - eapply H; [|exact Hres].
    eapply bottom_up_body_settled; [|exact Hinv|exact Hb].
    now apply Nat.ltb_lt.
  - discriminate.
Qed.

Lemma top_down_body_settled self merged i merged' i' ev :
  (forall j, (j < i)%nat -> settled_down self merged j) ->
  top_down_body self merged i = Ok (merged', i', ev) ->
  forall j, (j < i')%nat -> settled_down self merged' j.
Proof.
  intros Hinv. unfold top_down_body, py_index.
  destruct (merged !! i) as [mi|] eqn:Emi; simpl; [|discriminate].
  destruct (pylen mi <? min_size self)%Z eqn:Esmall.
  - replace (i + 1)%nat with (S i) by lia.
    destruct (merged !! S i) as [mn|] eqn:Emn; simpl; [|discriminate].
    destruct (pylen (mi +:+ mn) <=? max_size self)%Z eqn:Efit;
      intros [= <- <- <-]; intros j Hj a b Ha Hb Hsmall.
    + rewrite list_lookup_delete_lt in Ha by lia.
      rewrite list_lookup_insert_ne in Ha by lia.
      rewrite list_lookup_delete_lt in Hb by lia.
      destruct (decide (S j = i)) as [E|Hne].
      * subst i. rewrite list_lookup_insert_eq in Hb
          by exact (lookup_lt_Some _ _ _ Emi).
        injection Hb as <-.
        pose proof (Hinv j Hj a mi Ha Emi Hsmall) as Hbig.
        rewrite pylen_app in Hbig |- *. rewrite pylen_app.
        pose proof (pylen_nonneg mn). lia.
      * rewrite list_lookup_insert_ne in Hb by lia.
        apply (Hinv j); auto.
    + apply Z.leb_gt in Efit.
      destruct (decide (j = i)) as [->|Hne].
      * rewrite Emi in Ha. rewrite Emn in Hb.
        now injection Ha as <-; injection Hb as <-.
      * apply (Hinv j); auto. lia.
  - intros [= <- <- <-]. intros j Hj a b Ha Hb Hsmall.
    destruct (decide (j = i)) as [->|Hne].
    + rewrite Emi in Ha. injection Ha as <-. apply Z.ltb_ge in Esmall. lia.
    + apply (Hinv j); auto. lia.
Qed.

Lemma top_down_loop_settled self merged i log :
  forall merged' log',
  (forall j, (j < i)%nat -> settled_down self merged j) ->
  top_down_loop self merged i log = Ok (merged', log') ->
  forall j, settled_down self merged' j.
Proof.
  funelim (top_down_loop self merged i log); intros m' l' Hinv Hres.
  - injection Hres as <- <-. intros j a b Ha Hb.
    pose proof (lookup_lt_Some _ _ _ Hb).
    pose proof (proj1 (Nat.ltb_ge _ _) e).
    apply (Hinv j); auto. lia.
  - eapply H; [|exact Hres].
    eapply top_down_body_settled; [exact Hinv|exact Hb].
  - discriminate.
Qed.

Lemma bottom_up_body_skip self merged i :
  (0 < i < length merged)%nat -> settled_up self merged i ->
  bottom_up_body self merged i = Ok (merged, (i - 1)%nat, []).
Proof.
  intros [Hi Hlt] Hs. unfold bottom_up_body, py_index.
  destruct (lookup_lt_is_Some_2 merged i Hlt) as [mi Emi].
  destruct (lookup_lt_is_Some_2 merged (i - 1)) as [mp Emp]; [lia|].
  rewrite Emi, Emp. simpl.
  destruct (pylen mi <? min_size self)%Z eqn:Esmall; simpl; [|reflexivity].
  apply Z.ltb_lt in Esmall. pose proof (Hs mp mi Emp Emi Esmall) as Hbig.
  apply Z.leb_gt in Hbig. now rewrite Hbig.
Qed.

Lemma top_down_body_skip self merged i :
  (i < length merged - 1)%nat -> settled_down self merged i ->
  top_down_body self merged i = Ok (merged, (i + 1)%nat, []).
Proof.
  intros Hlt Hs. unfold top_down_body, py_index.
  destruct (lookup_lt_is_Some_2 merged i) as [mi Emi]; [lia|].
  destruct (lookup_lt_is_Some_2 merged (S i)) as [mn Emn]; [lia|].
  replace (i + 1)%nat with (S i) by lia. rewrite Emi, Emn. simpl.
  destruct (pylen mi <? min_size self)%Z eqn:Esmall; simpl; [|reflexivity].
  apply Z.ltb_lt in Esmall. pose proof (Hs mi mn Emi Emn Esmall) as Hbig.
  apply Z.leb_gt in Hbig. now rewrite Hbig.
Qed.

Lemma bottom_up_loop_fixed self merged i log :
  (i < length merged)%nat ->
  (forall j, (0 < j)%nat -> settled_up self merged j) ->
  bottom_up_loop self merged i log = Ok (merged, log).
Proof.
  funelim (bottom_up_loop self merged i log); intros Hlt Hs.
  - reflexivity.
  - pose proof (proj1 (Nat.ltb_lt _ _) Hi) as Hi'.
    pose proof (bottom_up_body_skip self merged i (conj Hi' Hlt) (Hs i Hi'))
      as E.
    assert (Ok (merged, (i - 1)%nat, []) = Ok (merged', i', ev))
      as [= <- <- <-] by now rewrite <- E.
    rewrite H; [now rewrite app_nil_r|lia|exact Hs].
  - pose proof (proj1 (Nat.ltb_lt _ _) Hi) as Hi'.
    pose proof (bottom_up_body_skip self merged i (conj Hi' Hlt) (Hs i Hi')).
    congruence.
Qed.

Lemma top_down_loop_fixed self merged i log :
  (forall j, settled_down self merged j) ->
  top_down_loop self merged i log = Ok (merged, log).
Proof.
  funelim (top_down_loop self merged i log); intros Hs.
  - reflexivity.
  - pose proof (proj1 (Nat.ltb_lt _ _) Hi) as Hi'.
    pose proof (top_down_body_skip self merged i Hi' (Hs i)) as E.
    assert (Ok (merged, (i + 1)%nat, []) = Ok (merged', i', ev))
      as [= <- <- <-] by now rewrite <- E.
    rewrite H; [now rewrite app_nil_r|exact Hs].
  - pose proof (proj1 (Nat.ltb_lt _ _) Hi) as Hi'.
    pose proof (top_down_body_skip self merged i Hi' (Hs i)).
    congruence.
Qed.

(** The neighbour pairs of the list a merge direction looks at, none of
    which can be glued. *)
Definition settled (self : GoldenChunker) (merged : list string) : Prop :=
  forall j a b, merged !! j = Some a -> merged !! S j = Some b ->
    (pylen (if merge_reversed self then b else a) < min_size self)%Z ->
    (max_size self < pylen (a +:+ b))%Z.

Lemma merge_small_chunks_log_settled self chunks merged log :
  merge_small_chunks_log self chunks = Ok (merged, log) -> settled self merged.
Proof.
  unfold merge_small_chunks_log, settled.
  destruct (min_size self =? 0)%Z eqn:Emin; simpl.
  - intros [= <- <-] j a b _ _ Hsmall. apply Z.eqb_eq in Emin.
    pose proof (pylen_nonneg (if merge_reversed self then b else a)). lia.
  - destruct chunks as [|c chunks].
    + intros [= <- <-] j a b Ha. discriminate.
    + destruct (merge_reversed self).
      * intros Hl j a b Ha Hb.
        refine (bottom_up_loop_settled _ _ _ _ _ _ _ Hl (S j) _ a b _ Hb);
          [|lia|now replace (S j - 1)%nat with j by lia].
        intros k Hk a' b' _ Hb'. apply lookup_lt_Some in Hb'. lia.
      * intros Hl j a b Ha Hb.
        refine (top_down_loop_settled _ _ _ _ _ _ _ Hl j a b Ha Hb).
        intros k Hk. lia.
Qed.

Lemma merge_small_chunks_log_fixed self chunks :
  settled self chunks -> merge_small_chunks_log self chunks = Ok (chunks, []).
Proof.
  intros Hs. unfold merge_small_chunks_log.
  destruct (min_size self =? 0)%Z; simpl; [reflexivity|].
  destruct chunks as [|c chunks]; [reflexivity|].
  unfold settled in Hs.
  destruct (merge_reversed self).
  - apply bottom_up_loop_fixed; [simpl; lia|].
    intros j Hj a b Ha Hb. apply (Hs (j - 1)%nat); [exact Ha|].
    now replace (S (j - 1)) with j by lia.
  - apply top_down_loop_fixed. intros j a b. apply Hs.
Qed.

(** X1.  The merge step is exhaustive.  It always returns, and in the list
    it returns no chunk shorter than [min_size] is left beside the neighbour
    its loop would glue it to, unless the glued chunk would exceed
    [max_size]: with [merge_reversed=True] (the bottom-up loop) that
    neighbour is the chunk right before it, with the default
    [merge_reversed=False] (the top-down loop) the chunk right after it. *)
Theorem merge_is_exhaustive (self : GoldenChunker) (chunks : list string) :
  exists merged,
    _merge_small_chunks self chunks = Ok merged /\
    forall j a b, merged !! j = Some a -> merged !! S j = Some b ->
      (pylen (if merge_reversed self then b else a) < min_size self)%Z ->
      (max_size self < pylen (a +:+ b))%Z.
Proof.
  destruct (merge_small_chunks_log_total self chunks) as (merged & log & E).
  exists merged. split.
  - apply merge_small_chunks_unfold. eauto.
  - exact (merge_small_chunks_log_settled self chunks merged log E).
Qed.

(** X2.  The merge step is idempotent: merging its own output changes
    nothing. *)
Theorem merge_is_idempotent (self : GoldenChunker) (chunks : list string) :
  exists merged,
    _merge_small_chunks self chunks = Ok merged /\
    _merge_small_chunks self merged = Ok merged.
Proof.
  destruct (merge_small_chunks_log_total self chunks) as (merged & log & E).
  exists merged. split; apply merge_small_chunks_unfold.
  - eauto.
  - exists []. apply merge_small_chunks_log_fixed.
    exact (merge_small_chunks_log_settled self chunks merged log E).
Qed.

(** X3.  A list with no chunk shorter than [min_size] is returned as it
    is, in both directions. *)
Theorem merge_keeps_large_chunks (self : GoldenChunker) (chunks : list string) :
  Forall (fun c => (min_size self <= pylen c)%Z) chunks ->
  _merge_small_chunks self chunks = Ok chunks.
Proof.
  intros Hall. apply merge_small_chunks_unfold. exists [].
  apply merge_small_chunks_log_fixed. intros j a b Ha Hb Hsmall.
  rewrite Forall_lookup in Hall.
  destruct (merge_reversed self).
  - specialize (Hall _ _ Hb). simpl in Hall. lia.
  - specialize (Hall _ _ Ha). simpl in Hall. lia.
Qed.

Lemma merge_keeps_large_chunks_witness :
  _merge_small_chunks
    {| max_size := 6; chunk_size := 4; min_size := 2; merge_reversed := true |}
    ["ab"; "cde"] = Ok ["ab"; "cde"].
Proof.
  apply merge_keeps_large_chunks. repeat constructor; simpl; vm_compute;
    discriminate.
Defined.

(** *** Properties of the two splits *)

(** A string that opens with a heading marker of the level: [level] hash
    signs and a white-space character. *)
Definition heading_first (level : nat) (part : string) : Prop :=
  exists c rest,
    part = str_repeat "#" level +:+ String c rest /\ py_isspace c = true.

Lemma span_hash_shape (s : string) :
  s = str_repeat "#" (span_len is_hash s) +:+ str_drop (span_len is_hash s) s.
Proof.
  induction s as [|c s IH]; [reflexivity|]. simpl.
  destruct (is_hash c) eqn:E; [|reflexivity].
  apply Ascii.eqb_eq in E. subst c. simpl. rewrite str_app_cons. now f_equal.
Qed.

Lemma match_heading_at_shape level s m :
  match_heading_at level s = Some m ->
  heading_first level s /\ (level + 1 <= m <= String.length s)%nat.
Proof.
  unfold match_heading_at.
  destruct (span_len is_hash s =? level)%nat eqn:Eh; simpl; [|discriminate].
  apply Nat.eqb_eq in Eh.
  destruct (span_len py_isspace (str_drop (span_len is_hash s) s) =? 0)%nat
    eqn:Er; [discriminate|].
  apply Nat.eqb_neq in Er. intros [= <-].
  pose proof (span_hash_shape s) as Hs. rewrite Eh in *.
  set (s1 := str_drop level s) in *.
  pose proof (span_len_le py_isspace s1) as Hr.
  pose proof (span_len_le (fun c => negb (is_newline c))
                (str_drop (span_len py_isspace s1) s1)) as Ht.
  rewrite str_drop_length in Ht.
  assert (String.length s = level + String.length s1)%nat as Hlen.
  { rewrite Hs at 1. now rewrite str_app_length, str_repeat_length. }
  split; [|lia].
  destruct s1 as [|c s1']; [simpl in Er; lia|].
  exists c, s1'. split; [exact Hs|].
  simpl in Er. destruct (py_isspace c); [reflexivity|lia].
Qed.

Lemma heading_first_take level s n :
  heading_first level s -> (level + 1 <= n)%nat ->
  heading_first level (str_take n s).
Proof.
  intros (c & rest & -> & Hc) Hn.
  exists c, (str_take (n - level - 1) rest). split; [|exact Hc].
  rewrite str_take_app by (rewrite str_repeat_length; lia).
  rewrite str_repeat_length. f_equal.
  set (a := (n - level - 1)%nat).
  assert ((n - level)%nat = S a) as -> by (unfold a; lia). reflexivity.
Qed.

(** The starts found by [finditer_heading] from position [pos] of a text
    whose rest is [s]: each is the start of a match, and the next start
    lies behind the match. *)
Fixpoint heading_chain (level : nat) (s : string) (pos : nat)
    (starts : list nat) : Prop :=
  match starts with
  | [] => True
  | p :: rest =>
      (pos <= p)%nat /\
      (exists k,
          match_heading_at level (str_drop (p - pos) s) = Some (S k) /\
          match rest with
          | q :: _ => (p + S k <= q)%nat
          | [] => True
          end) /\
      heading_chain level s pos rest
  end.

Lemma heading_chain_shift level c s pos starts :
  Forall (fun p => (S pos <= p)%nat) starts ->
  heading_chain level s (S pos) starts ->
  heading_chain level (String c s) pos starts.
Proof.
  induction starts as [|p rest IH]; intros Hall; [auto|].
  apply Forall_cons_1 in Hall as [Hp Hrest].
  intros (_ & (k & Hm & Hn) & Hc). simpl. split; [lia|]. split.
  - exists k. split; [|exact Hn].
    replace (p - pos)%nat with (S (p - S pos)) by lia. exact Hm.
  - now apply IH.
Qed.

Lemma heading_chain_bound level s pos starts :
  heading_chain level s pos starts -> Forall (fun p => (pos <= p)%nat) starts.
Proof.
  induction starts as [|p rest IH]; intros H; [constructor|].
  destruct H as (Hp & _ & Hc). constructor; auto.
Qed.

Lemma finditer_heading_chain level s :
  forall bol skip pos,
    let starts := finditer_heading level bol skip pos s in
    heading_chain level s pos starts /\
    Forall (fun p => (pos + skip <= p)%nat) starts.
Proof.
  induction s as [|c s IH]; intros bol skip pos; simpl; [split; constructor|].
  assert (forall b k,
             heading_chain level (String c s) pos
               (finditer_heading level b k (S pos) s) /\
             Forall (fun p => (pos + S k <= p)%nat)
               (finditer_heading level b k (S pos) s)) as Hrec.
  { intros b k. destruct (IH b k (S pos)) as [Hc Hb]. split.
    - apply heading_chain_shift; [|exact Hc].
      eapply Forall_impl; [exact Hb|]. simpl. intros; lia.
    - eapply Forall_impl; [exact Hb|]. simpl. intros; lia. }
  destruct skip as [|k].
  - destruct (if bol then match_heading_at level (String c s) else None)
      as [[|k]|] eqn:Em.
    + destruct (Hrec (is_newline c) O) as [Hc Hb]. split; [exact Hc|].
      eapply Forall_impl; [exact Hb|]. simpl. intros; lia.
    + destruct (Hrec (is_newline c) k) as [Hc Hb]. split.
      * simpl. split; [lia|]. split; [|exact Hc].
        exists k. rewrite Nat.sub_diag. simpl.
        destruct bol; [|discriminate]. split; [exact Em|].
        destruct (finditer_heading level (is_newline c) k (S pos) s)
          as [|q r]; [exact I|].
        apply Forall_cons_1 in Hb as [Hq _]. lia.
      * constructor; [lia|].
        eapply Forall_impl; [exact Hb|]. simpl. intros; lia.
    + destruct (Hrec (is_newline c) O) as [Hc Hb]. split; [exact Hc|].
      eapply Forall_impl; [exact Hb|]. simpl. intros; lia.
  - destruct (Hrec (is_newline c) k) as [Hc Hb]. split; [exact Hc|].
    eapply Forall_impl; [exact Hb|]. simpl. intros; lia.
Qed.

Lemma heading_slices_spec level text starts :
  heading_chain level text 0 starts ->
  Forall (heading_first level) (heading_slices text starts) /\
  match starts with
  | [] => True
  | p :: _ => join_all (heading_slices text starts) = str_drop p text
  end.
Proof.
  induction starts as [|p rest IH]; [split; [constructor|exact I]|].
  intros (_ & (k & Hm & Hn) & Hc). rewrite Nat.sub_0_r in Hm.
  destruct (IH Hc) as [Hall Hjoin].
  apply match_heading_at_shape in Hm as [Hfirst Hlen].
  rewrite str_drop_length in Hlen.
  cbn [heading_slices]. split.
  - constructor; [|exact Hall]. unfold str_slice.
    apply heading_first_take; [exact Hfirst|].
    destruct rest as [|q r]; lia.
  - change (join_all (?x :: ?l)) with (x +:+ join_all l).
    destruct rest as [|q r].
    + simpl. unfold str_slice. rewrite str_take_all.
      * generalize (str_drop p text). intros s. clear.
        induction s as [|c s IH]; [reflexivity|].
        rewrite str_app_cons. now f_equal.
      * rewrite str_drop_length. lia.
    + rewrite Hjoin. unfold str_slice.
      replace (str_drop q text) with (str_drop (q - p) (str_drop p text)).
      * apply str_take_drop.
      * rewrite str_drop_drop. f_equal. lia.
Qed.

(** X4.  [_split_by_heading_level] loses nothing but newlines around the
    text in front of the first heading: the parts it returns, concatenated,
    are the text with that preamble stripped of its leading and trailing
    newlines. *)
Theorem split_by_heading_level_keeps_text (text : string) (level : nat) :
  exists pre rest,
    text = pre +:+ rest /\
    join_all (_split_by_heading_level text level)
    = strip_chars is_newline pre +:+ rest.
Proof.
  unfold _split_by_heading_level.
  pose proof (finditer_heading_chain level text true 0 0) as [Hc _].
  simpl in Hc.
  destruct (finditer_heading level true 0 0 text) as [|p rest] eqn:E.
  - exists EmptyString, text. split; [reflexivity|]. simpl.
    now rewrite str_app_nil_r.
  - apply heading_slices_spec in Hc as [_ Hjoin].
    exists (str_take p text), (str_drop p text).
    split; [now rewrite str_take_drop|].
    destruct (nonempty (strip_chars is_newline (str_take p text))) eqn:En.
    + change (join_all (?x :: ?l)) with (x +:+ join_all l). now rewrite Hjoin.
    + apply nonempty_false in En. rewrite En, Hjoin. reflexivity.
Qed.

(** X5.  [_split_by_heading_level] never returns an empty list, and every
    part after the first opens with a heading marker of the level: [level]
    hash signs and a white-space character. *)
Theorem split_by_heading_level_parts_open_with_heading (text : string)
    (level : nat) :
  _split_by_heading_level text level <> [] /\
  Forall (heading_first level) (tail (_split_by_heading_level text level)).
Proof.
  unfold _split_by_heading_level.
  pose proof (finditer_heading_chain level text true 0 0) as [Hc _].
  simpl in Hc.
  destruct (finditer_heading level true 0 0 text) as [|p rest] eqn:E.
  - split; [discriminate|constructor].
  - apply heading_slices_spec in Hc as [Hall _].
    destruct (nonempty _); [split; [discriminate|exact Hall]|].
    cbn [heading_slices] in *. split; [discriminate|].
    simpl. now apply Forall_cons_1 in Hall as [_ Hall].
Qed.

(** The characters a separator line is made of. *)
Definition is_separator_char (c : ascii) : bool := py_isspace c || is_dash c.

Lemma match_section_at_separator (s : string) (m : nat) :
  match_section_at s = Some m -> prefix_all is_separator_char m s.
Proof.
  unfold match_section_at.
  set (ws := span_len py_isspace s). set (s1 := str_drop ws s).
  set (d := span_len is_dash s1). set (s2 := str_drop d s1).
  set (w := span_len py_isspace s2).
  destruct (d <? 3)%nat; [discriminate|].
  assert (prefix_all is_separator_char (ws + d + w) s) as Hall.
  { rewrite <- Nat.add_assoc. apply prefix_all_app.
    - apply prefix_all_span. unfold is_separator_char. intros c ->. reflexivity.
    - fold s1. apply prefix_all_app.
      + apply prefix_all_span. unfold is_separator_char. intros c ->.
        apply orb_true_r.
      + fold s2. apply prefix_all_span. unfold is_separator_char.
        intros c ->. reflexivity. }
  destruct (str_drop w s2).
  - now intros [= <-].
  - destruct (last_index is_newline (str_take w s2)) as [q|] eqn:Eq;
      [|discriminate].
    intros [= <-]. apply last_index_lt in Eq. rewrite str_take_length in Eq.
    eapply prefix_all_le; [|exact Hall]. lia.
Qed.

Lemma join_all_cons_char (c : ascii) (parts : list string) :
  join_all (cons_char c parts) = String c (join_all parts).
Proof. destruct parts; reflexivity. Qed.

Lemma re_split_sections_erases (s : string) :
  forall bol skip,
    prefix_all is_separator_char skip s ->
    erases is_separator_char s (join_all (re_split_sections bol skip s)).
Proof.
  induction s as [|c s IH]; intros bol skip Hskip; simpl.
  - constructor.
  - destruct skip as [|k].
    + destruct (if bol then match_section_at (String c s) else None)
        as [[|k]|] eqn:Em.
      * rewrite join_all_cons_char. constructor. now apply IH.
      * destruct bol; [|discriminate].
        apply match_section_at_separator in Em. destruct Em as [Hc Hk].
        change (join_all (EmptyString :: ?l)) with (join_all l).
        apply erases_drop; [exact Hc|]. now apply IH.
      * rewrite join_all_cons_char. constructor. now apply IH.
    + destruct Hskip as [Hc Hk]. apply erases_drop; [exact Hc|]. now apply IH.
Qed.

(** X6.  [_split_by_section] yields no empty section, and the sections,
    concatenated, are the text with nothing left out but white space and
    dashes. *)
Theorem split_by_section_drops_separators_only (text : string) :
  Forall (fun part => part <> EmptyString) (_split_by_section text) /\
  erases is_separator_char text (join_all (_split_by_section text)).
Proof.
  unfold _split_by_section. split.
  - apply List.Forall_forall. intros x Hx. apply filter_In in Hx as [_ Hx].
    now destruct x.
  - rewrite join_all_filter_nonempty. now apply re_split_sections_erases.
Qed.

(** The text holds no dash. *)
Definition no_dash (s : string) : bool :=
  str_forall (fun c => negb (is_dash c)) s.

Lemma match_section_at_no_dash (s : string) :
  no_dash s = true -> match_section_at s = None.
Proof.
  intros H. unfold match_section_at.
  pose proof (str_forall_drop _ (span_len py_isspace s) s H) as H1.
  destruct (str_drop (span_len py_isspace s) s) as [|c r]; [reflexivity|].
  simpl in H1. apply andb_true_iff in H1 as [Hc _]. simpl.
  apply negb_true_iff in Hc. now rewrite Hc.
Qed.

Lemma re_split_sections_no_dash (s : string) (bol : bool) :
  no_dash s = true -> re_split_sections bol 0 s = [s].
Proof.
  revert bol. induction s as [|c s IH]; intros bol H; [reflexivity|].
  cbn [re_split_sections].
  assert ((if bol then match_section_at (String c s) else None) = None) as ->.
  { destruct bol; [now apply match_section_at_no_dash|reflexivity]. }
  simpl in H. apply andb_true_iff in H as [_ H]. now rewrite IH.
Qed.

Section ShortText.

Variable split_text : Z -> string -> result (list string).

(** X7.  A text that is not empty, holds no dash and is not longer than
    [chunk_size] comes back from [chunk] as its only chunk, whatever the
    fallback splitter does. *)
Theorem chunk_short_text_is_one_chunk (self : GoldenChunker) (text : string) :
  no_dash text = true -> text <> EmptyString ->
  (pylen text <= chunk_size self)%Z ->
  chunk split_text self text = Ok [text].
Proof.
  intros Hd Hne Hfit. unfold chunk, _split_by_section.
  rewrite re_split_sections_no_dash by exact Hd.
  destruct text as [|c t]; [contradiction|]. simpl.
  apply Z.leb_le in Hfit. now rewrite Hfit.
Qed.
End ShortText.

Lemma chunk_short_text_is_one_chunk_witness :
  chunk (fun _ _ => Raise (ValueError "unused"))
        {| max_size := 8; chunk_size := 6; min_size := 2;
           merge_reversed := false |}
        "# T a"
  = Ok ["# T a"].
Proof.
  apply chunk_short_text_is_one_chunk;
    [reflexivity | discriminate | vm_compute; discriminate].
Defined.

End Chunker.

(** * augmented_retriever.py *)

Module Retriever.

(** A Python [dict] with [str] keys: the items in insertion order, every key
    once. *)
Definition dict (V : Type) : Type := list (string * V).

Fixpoint dict_get {V : Type} (d : dict V) (k : string) : option V :=
  match d with
  | [] => None
  | (k', v) :: rest => if String.eqb k' k then Some v else dict_get rest k
  end.

(** [d[k] = v]: an existing key keeps its place, a new one goes last. *)
Fixpoint dict_set {V : Type} (d : dict V) (k : string) (v : V) : dict V :=
  match d with
  | [] => [(k, v)]
  | (k', v') :: rest =>
      if String.eqb k' k then (k', v) :: rest else (k', v') :: dict_set rest k v
  end.

(** *** Dictionaries *)

Definition keys {V : Type} (d : dict V) : list string := map fst d.

Lemma dict_get_set_eq {V : Type} (d : dict V) k (v : V) :
  dict_get (dict_set d k v) k = Some v.
Proof.
  induction d as [|[k' v'] d IH]; simpl.
  - now rewrite String.eqb_refl.
  - destruct (String.eqb k' k) eqn:E; simpl; rewrite E; [reflexivity|exact IH].
Qed.

Lemma dict_get_set_ne {V : Type} (d : dict V) k k' (v : V) :
  k <> k' -> dict_get (dict_set d k v) k' = dict_get d k'.
Proof.
  intros Hne. induction d as [|[k0 v0] d IH]; simpl.
  - destruct (String.eqb_spec k k'); [contradiction|reflexivity].
  - destruct (String.eqb_spec k0 k) as [->|Hk]; simpl.
    + destruct (String.eqb_spec k k'); [contradiction|reflexivity].
    + destruct (String.eqb k0 k'); [reflexivity|exact IH].
Qed.

Lemma dict_get_absent {V : Type} (d : dict V) k :
  ~ In k (keys d) -> dict_get d k = None.
Proof.
  induction d as [|[k' v'] d IH]; simpl; [reflexivity|]. intros Hn.
  destruct (String.eqb_spec k' k) as [->|Hk]; [tauto|]. apply IH. tauto.
Qed.

Lemma keys_dict_set {V : Type} (d : dict V) k (v : V) :
  keys (dict_set d k v) =
  match dict_get d k with Some _ => keys d | None => keys d ++ [k] end.
Proof.
  induction d as [|[k' v'] d IH]; simpl; [reflexivity|].
  destruct (String.eqb_spec k' k) as [->|Hk]; simpl; [reflexivity|].
  rewrite IH. now destruct (dict_get d k).
Qed.

Lemma dict_set_NoDup {V : Type} (d : dict V) k (v : V) :
  NoDup (keys d) -> NoDup (keys (dict_set d k v)).
Proof.
  intros Hd. rewrite keys_dict_set.
  destruct (dict_get d k) eqn:E; [exact Hd|].
  apply NoDup_app. split; [exact Hd|]. split.
  - intros x Hx Hxk. apply list_elem_of_In in Hxk. destruct Hxk as [<-|[]].
    apply list_elem_of_In in Hx. clear Hd. induction d as [|[k' v'] d IH]; simpl in *; [tauto|].
    destruct (String.eqb_spec k' k) as [->|Hk]; [discriminate|].
    destruct Hx as [->|Hx]; [tauto|auto].
  - apply NoDup_singleton.
Qed.

(** [lst[:n]] for any integer [n]. *)
Definition py_take {A : Type} (n : Z) (l : list A) : list A :=
  if (0 <=? n)%Z then take (Z.to_nat n) l
  else take (length l - Z.to_nat (- n)) l.

Example py_take_runs :
  py_take 2 [1; 2; 3]%nat = [1; 2]%nat /\ py_take 5 [1; 2; 3]%nat = [1; 2; 3]%nat /\
  py_take (-1) [1; 2; 3]%nat = [1; 2]%nat.
Proof. repeat split. Qed.

Record BigChunk : Type := { id : string; text : string }.

Inductive Submodel : Type := BigChunkSummary | SmallChunk.

Section Scores.

(** Python [float]: the operations the retriever uses.  [sleb a b] is
    [a <= b]; Python's [a < b] is [negb (sleb b a)]. *)
Variable score : Type.
Variables s0 s1 : score.
Variables sadd ssub smul : score -> score -> score.
Variable sleb : score -> score -> bool.

Definition slt (a b : score) : bool := negb (sleb b a).
Definition seqv (a b : score) : bool := sleb a b && sleb b a.

Record AugmentedRetriever : Type := {
  limit : Z;
  prefetch_limit : Z;
  alpha : score;
  summary_limit : Z;
  small_chunk_limit : Z
}.

(** The collaborators of [retrieve]: the embedding service, the two queries
    of the similarity store (rows [(big_chunk_id, distance)] nearest first,
    already restricted to [ok] files and the access filters), the fetch of
    big chunks by id, and [Reranker.rerank]. *)
Record Services : Type := {
  embedder : string -> result (list score);
  nearest : Submodel -> Z -> list score -> result (list (string * score));
  select_big_chunks : list string -> result (list BigChunk);
  rerank : string -> list string -> result (list (nat * score))
}.

Record ContextItem : Type := {
  chunk : BigChunk;
  summary_score : score;
  small_chunk_score : score;
  combined_score : score;
  rerank_score : score
}.

(** [list.sort(key=key, reverse=True)] and [sorted(..., reverse=True)]:
    descending by key, items with equal keys in their original order.
    [insert_desc] passes the items whose key is greater. *)
Fixpoint insert_desc {A : Type} (key : A -> score) (x : A) (l : list A) : list A :=
  match l with
  | [] => [x]
  | y :: rest =>
      if slt (key x) (key y) then y :: insert_desc key x rest else x :: l
  end.

Definition sort_desc {A : Type} (key : A -> score) (l : list A) : list A :=
  fold_right (insert_desc key) [] l.

(** [scores[row.big_chunk_id] = 1 - row.distance] over the rows. *)
Definition _get_submodel_similarity (svc : Services) (db_model : Submodel)
    (fetch_limit : Z) (query_embedding : list score) : result (dict score) :=
  rows ← nearest svc db_model fetch_limit query_embedding;
  Ok (fold_left (fun scores row => dict_set scores (fst row) (ssub s1 (snd row)))
                rows []).

(** [combined_scores[big_chunk_id] += weight * score] on a
    [defaultdict(float)]. *)
Definition add_weighted (weight : score) (combined : dict score)
    (item : string * score) : dict score :=
  let '(big_chunk_id, sc) := item in
  let old := default s0 (dict_get combined big_chunk_id) in
  dict_set combined big_chunk_id (sadd old (smul weight sc)).

Definition _merge_scores (self : AugmentedRetriever)
    (summary_scores small_chunk_scores : dict score) : dict score :=
  let combined := fold_left (add_weighted (alpha self)) small_chunk_scores [] in
  fold_left (add_weighted (ssub s1 (alpha self))) summary_scores combined.

Definition _get_top_big_chunks (self : AugmentedRetriever) (svc : Services)
    (big_chunk_scores : dict score) : result (list BigChunk) :=
  match big_chunk_scores with
  | [] => Ok []
  | _ :: _ =>
      let sorted_chunks := sort_desc snd big_chunk_scores in
      let top_chunk_ids := map fst (py_take (prefetch_limit self) sorted_chunks) in
      big_chunks ← select_big_chunks svc top_chunk_ids;
      let chunk_dict :=
        fold_left (fun d c => dict_set d (id c) c) big_chunks [] in
      Ok (omap (dict_get chunk_dict) top_chunk_ids)
  end.

(** The pairs [zip(big_chunks, scores)] that [_rerank_chunks_with_scores]
    sorts. *)
Definition chunk_score_pairs (svc : Services) (query : string)
    (big_chunks : list BigChunk) : result (list (BigChunk * score)) :=
  match big_chunks with
  | [] => Ok []
  | _ :: _ =>
      let candidates := map text big_chunks in
      rerank_scores ← rerank svc query candidates;
      Ok (zip big_chunks (map snd rerank_scores))
  end.

Definition _rerank_chunks_with_scores (svc : Services) (query : string)
    (big_chunks : list BigChunk) : result (list BigChunk * list score) :=
  match big_chunks with
  | [] => Ok ([], [])
  | _ :: _ =>
      let candidates := map text big_chunks in
      rerank_scores ← rerank svc query candidates;
      let pairs := zip big_chunks (map snd rerank_scores) in
      let sorted_pairs := sort_desc snd pairs in
      Ok (map fst sorted_pairs, map snd sorted_pairs)
  end.

(** The large chunks in fused-score order, as handed to the reranker. *)
Definition top_big_chunks (self : AugmentedRetriever) (svc : Services)
    (query : string) : result (list BigChunk) :=
  query_embedding ← embedder svc query;
  summary_scores ←
    _get_submodel_similarity svc BigChunkSummary (summary_limit self)
                             query_embedding;
  small_chunk_scores ←
    _get_submodel_similarity svc SmallChunk (small_chunk_limit self)
                             query_embedding;
  _get_top_big_chunks self svc (_merge_scores self summary_scores small_chunk_scores).

(** The fused scores of the query: [big_chunk_scores] in [retrieve]. *)
Definition fused_scores (self : AugmentedRetriever) (svc : Services)
    (query : string) : result (dict score) :=
  query_embedding ← embedder svc query;
  summary_scores ←
    _get_submodel_similarity svc BigChunkSummary (summary_limit self)
                             query_embedding;
  small_chunk_scores ←
    _get_submodel_similarity svc SmallChunk (small_chunk_limit self)
                             query_embedding;
  Ok (_merge_scores self summary_scores small_chunk_scores).

Definition retrieve (self : AugmentedRetriever) (svc : Services) (query : string)
  : result (list ContextItem) :=
  query_embedding ← embedder svc query;
  summary_scores ←
    _get_submodel_similarity svc BigChunkSummary (summary_limit self)
                             query_embedding;
  small_chunk_scores ←
    _get_submodel_similarity svc SmallChunk (small_chunk_limit self)
                             query_embedding;
  let big_chunk_scores :=
    _merge_scores self summary_scores small_chunk_scores in
  top ← _get_top_big_chunks self svc big_chunk_scores;
  '(reranked_chunks, rerank_scores) ← _rerank_chunks_with_scores svc query top;
  Ok (imap (fun i c =>
              {| chunk := c;
                 summary_score := default s0 (dict_get summary_scores (id c));
                 small_chunk_score :=
                   default s0 (dict_get small_chunk_scores (id c));
                 combined_score := default s0 (dict_get big_chunk_scores (id c));
                 rerank_score := default s0 (rerank_scores !! i) |})
           (py_take (limit self) reranked_chunks)).

(** The maps built by [_get_submodel_similarity] hold every key once. *)
Lemma get_submodel_similarity_NoDup svc m n q d :
  _get_submodel_similarity svc m n q = Ok d -> NoDup (keys d).
Proof.
  unfold _get_submodel_similarity.
  destruct (nearest svc m n q) as [rows|e]; simpl; [|discriminate].
  intros [= <-].
  assert (forall acc, NoDup (keys acc) ->
            NoDup (keys (fold_left
                           (fun scores row =>
                              dict_set scores (fst row) (ssub s1 (snd row)))
                           rows acc))) as H.
  { induction rows as [|r rows IH]; intros acc Hacc; simpl; [exact Hacc|].
    apply IH. now apply dict_set_NoDup. }
  apply H. constructor.
Qed.

Lemma fold_add_weighted_get (w : score) (items : dict score) :
  NoDup (keys items) ->
  forall combined k,
    dict_get (fold_left (add_weighted w) items combined) k =
    match dict_get items k with
    | Some sc => Some (sadd (default s0 (dict_get combined k)) (smul w sc))
    | None => dict_get combined k
    end.
Proof.
  induction items as [|[k0 sc0] items IH]; intros Hnd combined k; simpl;
    [reflexivity|].
  apply NoDup_cons in Hnd as [Hk0 Hnd]. rewrite (IH Hnd).
  destruct (String.eqb_spec k0 k) as [->|Hne].
  - rewrite dict_get_absent by (now rewrite <- list_elem_of_In).
    apply dict_get_set_eq.
  - unfold add_weighted. rewrite dict_get_set_ne by exact Hne. reflexivity.
Qed.

(** *** Sorting *)

Lemma insert_desc_perm {A : Type} (key : A -> score) x l :
  Permutation (insert_desc key x l) (x :: l).
Proof.
  induction l as [|y l IH]; simpl; [reflexivity|].
  destruct (slt (key x) (key y)); [|reflexivity].
  rewrite IH. apply perm_swap.
Qed.

Lemma sort_desc_perm {A : Type} (key : A -> score) l :
  Permutation (sort_desc key l) l.
Proof.
  induction l as [|x l IH]; simpl; [reflexivity|].
  rewrite insert_desc_perm. now constructor.
Qed.

Lemma insert_desc_filter {A : Type} (key : A -> score) (P : A -> bool) x l :
  (forall y, P x = true -> P y = true -> slt (key x) (key y) = false) ->
  List.filter P (insert_desc key x l) = List.filter P (x :: l).
Proof.
  intros HP. induction l as [|y l IH]; [reflexivity|].
  simpl insert_desc. destruct (slt (key x) (key y)) eqn:E; [|reflexivity].
  simpl. simpl in IH. rewrite IH.
  pose proof (HP y) as Hxy.
  destruct (P x), (P y); try reflexivity.
  rewrite Hxy in E by reflexivity. discriminate.
Qed.

Lemma sort_desc_filter {A : Type} (key : A -> score) (P : A -> bool) l :
  (forall x y, P x = true -> P y = true -> slt (key x) (key y) = false) ->
  List.filter P (sort_desc key l) = List.filter P l.
Proof.
  intros HP. induction l as [|x l IH]; [reflexivity|].
  simpl sort_desc. rewrite insert_desc_filter by (apply HP).
  simpl. now rewrite IH.
Qed.

Section Order.

(** The scores compared by the sort are totally preordered (no NaN). *)
Hypothesis sleb_total : forall a b, sleb a b = true \/ sleb b a = true.
Hypothesis sleb_trans :
  forall a b c, sleb a b = true -> sleb b c = true -> sleb a c = true.

Definition desc {A : Type} (key : A -> score) (a b : A) : Prop :=
  sleb (key b) (key a) = true.

Lemma insert_desc_sorted {A : Type} (key : A -> score) x l :
  StronglySorted (desc key) l -> StronglySorted (desc key) (insert_desc key x l).
Proof.
  induction 1 as [|y l Hs IH Hy]; simpl.
  - repeat constructor.
  - unfold slt. destruct (sleb (key y) (key x)) eqn:E; simpl.
    + constructor; [now constructor|]. constructor; [exact E|].
      eapply Forall_impl; [exact Hy|]. intros z Hz. unfold desc in *.
      eapply sleb_trans; eauto.
    + constructor; [exact IH|].
      eapply Permutation_Forall; [symmetry; apply insert_desc_perm|].
      constructor; [|exact Hy]. unfold desc.
      destruct (sleb_total (key x) (key y)); congruence.
Qed.

Lemma sort_desc_sorted {A : Type} (key : A -> score) l :
  StronglySorted (desc key) (sort_desc key l).
Proof.
  induction l as [|x l IH]; simpl; [constructor|].
  now apply insert_desc_sorted.
Qed.

Lemma sort_desc_stable {A : Type} (key : A -> score) l s :
  List.filter (fun x => seqv (key x) s) (sort_desc key l) =
  List.filter (fun x => seqv (key x) s) l.
Proof.
  apply sort_desc_filter. intros x y Hx Hy. unfold seqv, slt in *.
  apply andb_prop in Hx as [_ Hx]. apply andb_prop in Hy as [Hy _].
  now rewrite (sleb_trans _ _ _ Hy Hx).
Qed.

Lemma sorted_take {A : Type} (R : A -> A -> Prop) (n : nat) (l : list A) :
  StronglySorted R l -> StronglySorted R (take n l).
Proof.
  intros Hs. revert n. induction Hs as [|x l Hs IH Hx]; intros [|n]; simpl;
    try constructor; auto. now apply Forall_take.
Qed.

Lemma sorted_keys {A : Type} (key : A -> score) (l : list A) :
  StronglySorted (desc key) l ->
  StronglySorted (fun a b => sleb b a = true) (map key l).
Proof.
  induction 1 as [|x l Hs IH Hx]; simpl; constructor; auto.
  apply Forall_map. exact Hx.
Qed.

(** The fused score [retrieve] reports for a large chunk. *)
Definition fused (big_chunk_scores : dict score) (c : BigChunk) : score :=
  default s0 (dict_get big_chunk_scores (id c)).

Lemma chunk_dict_ids (big_chunks : list BigChunk) (d : dict BigChunk) k c :
  (forall k' c', dict_get d k' = Some c' -> id c' = k') ->
  dict_get (fold_left (fun d c => dict_set d (id c) c) big_chunks d) k = Some c ->
  id c = k.
Proof.
  revert d. induction big_chunks as [|b bs IH]; intros d Hd; simpl.
  - apply Hd.
  - apply IH. intros k' c'.
    destruct (String.eqb_spec (id b) k') as [<-|Hne].
    + rewrite dict_get_set_eq. now intros [= <-].
    + rewrite dict_get_set_ne by exact Hne. apply Hd.
Qed.

Lemma dict_get_in {V : Type} (d : dict V) k (v : V) :
  NoDup (keys d) -> In (k, v) d -> dict_get d k = Some v.
Proof.
  induction d as [|[k' v'] d IH]; simpl; [tauto|].
  intros Hnd Hin. apply NoDup_cons in Hnd as [Hk Hnd].
  destruct Hin as [[= -> ->]|Hin].
  - now rewrite String.eqb_refl.
  - destruct (String.eqb_spec k' k) as [->|Hne]; [|auto].
    exfalso. apply Hk. apply list_elem_of_In.
    change (In (fst (k, v)) (map fst d)). now apply in_map.
Qed.

Lemma merge_scores_NoDup self su sm : NoDup (keys (_merge_scores self su sm)).
Proof.
  unfold _merge_scores.
  assert (forall w items acc, NoDup (keys acc) ->
            NoDup (keys (fold_left (add_weighted w) items acc))) as H.
  { intros w items. induction items as [|[k v] items IH]; intros acc Hacc;
      simpl; [exact Hacc|]. apply IH. now apply dict_set_NoDup. }
  apply H, H. constructor.
Qed.

Lemma omap_fused_sorted (chunk_dict : dict BigChunk) (scores : dict score)
    (L : list (string * score)) :
  (forall k c, dict_get chunk_dict k = Some c -> id c = k) ->
  (forall k v, In (k, v) L -> dict_get scores k = Some v) ->
  StronglySorted (desc snd) L ->
  StronglySorted (desc (fused scores)) (omap (dict_get chunk_dict) (map fst L)).
Proof.
  intros Hids Hin HL.
  induction HL as [|[k v] L HL IH Hkv]; simpl; [constructor|].
  assert (StronglySorted (desc (fused scores))
                         (omap (dict_get chunk_dict) (map fst L))) as Htail.
  { apply IH. intros k' v' H. apply Hin. now right. }
  destruct (dict_get chunk_dict k) as [c|] eqn:Ec; [|exact Htail].
  constructor; [exact Htail|].
  apply Forall_forall. intros c' Hc'.
  apply list_elem_of_omap in Hc' as (k' & Hk' & Ec').
  apply list_elem_of_fmap in Hk' as ([k2 v'] & -> & Hk2). simpl in Ec'.
  apply Hids in Ec as <-. apply Hids in Ec' as <-.
  unfold desc, fused.
  rewrite (Hin (id c) v) by now left.
  rewrite (Hin (id c') v') by (right; now apply list_elem_of_In).
  simpl. rewrite Forall_forall in Hkv.
  apply (Hkv (id c', v')). exact Hk2.
Qed.

(** The chunks handed to the reranker are in descending order of fused
    score. *)
Lemma top_big_chunks_fused_order self svc (scores : dict score) top :
  NoDup (keys scores) ->
  _get_top_big_chunks self svc scores = Ok top ->
  StronglySorted (desc (fused scores)) top.
Proof.
  intros Hnd. unfold _get_top_big_chunks.
  destruct scores as [|kv scores']; [intros [= <-]; constructor|].
  destruct (select_big_chunks svc _) as [big_chunks|e]; [|discriminate].
  intros [= <-]. apply omap_fused_sorted.
  - intros k c. apply chunk_dict_ids. intros k' c'. discriminate.
  - intros k v Hkv. apply dict_get_in; [exact Hnd|].
    apply (Permutation_in _ (sort_desc_perm snd (kv :: scores'))).
    unfold py_take in Hkv. apply list_elem_of_In in Hkv.
    apply list_elem_of_In.
    destruct (0 <=? _)%Z; exact (subseteq_take _ _ _ Hkv).
  - unfold py_take.
    destruct (0 <=? _)%Z;
      exact (sorted_take _ _ _ (sort_desc_sorted snd (kv :: scores'))).
Qed.

Definition ranked (results : list ContextItem) : list (BigChunk * score) :=
  map (fun r => (chunk r, rerank_score r)) results.

Lemma ranked_imap (sorted_pairs : list (BigChunk * score)) (k : nat)
    (F : nat -> BigChunk -> ContextItem) :
  (forall i c, chunk (F i c) = c) ->
  (forall i c, rerank_score (F i c) = default s0 (map snd sorted_pairs !! i)) ->
  ranked (imap F (take k (map fst sorted_pairs))) = take k sorted_pairs.
Proof.
  revert k F. induction sorted_pairs as [|[c sc] rest IH]; intros k F Hc Hs.
  - now destruct k.
  - destruct k as [|k]; [reflexivity|]. simpl. unfold ranked in *. simpl.
    rewrite Hc, Hs. simpl. f_equal. apply IH.
    + intros i c'. apply Hc.
    + intros i c'. simpl. now rewrite Hs.
Qed.

Lemma py_take_map {A B : Type} (f : A -> B) (n : Z) (l : list A) :
  py_take n (map f l) = map f (py_take n l).
Proof.
  unfold py_take. rewrite length_map.
  destruct (0 <=? n)%Z; symmetry; apply fmap_take.
Qed.

Lemma py_take_length {A : Type} (n : Z) (l : list A) :
  (0 <= n)%Z -> (Z.of_nat (length (py_take n l)) <= n)%Z.
Proof.
  intros Hn. unfold py_take.
  destruct (0 <=? n)%Z eqn:E; [|apply Z.leb_gt in E; lia].
  rewrite length_take. lia.
Qed.

(** C5.  When [retrieve] returns and [limit] is not negative, the list has
    at most [limit] items; its rerank scores are in descending order; and it
    is the front of a list [full] that permutes the candidates [pairs] (the
    large chunks [top] in descending fused-score order, each with its rerank
    score) and keeps, for every score, the candidates of that score in the
    order they have in [pairs]. *)
Theorem retrieve_ranked (self : AugmentedRetriever) (svc : Services)
    (query : string) (results : list ContextItem) :
  retrieve self svc query = Ok results ->
  ((0 <= limit self)%Z -> (Z.of_nat (length results) <= limit self)%Z) /\
  StronglySorted (fun a b => sleb b a = true) (map rerank_score results) /\
  exists scores top pairs full,
    fused_scores self svc query = Ok scores /\
    top_big_chunks self svc query = Ok top /\
    StronglySorted (fun a b => sleb (fused scores b) (fused scores a) = true)
                   top /\
    chunk_score_pairs svc query top = Ok pairs /\
    Permutation full pairs /\
    ranked results = py_take (limit self) full /\
    forall s,
      List.filter (fun p => seqv (snd p) s) full =
      List.filter (fun p => seqv (snd p) s) pairs.
Proof.
  unfold retrieve, top_big_chunks, fused_scores.
  destruct (embedder svc query) as [qe|e]; simpl; [|discriminate].
  destruct (_get_submodel_similarity svc BigChunkSummary _ qe) as [su|e];
    simpl; [|discriminate].
  destruct (_get_submodel_similarity svc SmallChunk _ qe) as [sm|e];
    simpl; [|discriminate].
  destruct (_get_top_big_chunks self svc _) as [top|e] eqn:Etop; simpl;
    [|discriminate].
  apply top_big_chunks_fused_order in Etop; [|apply merge_scores_NoDup].
  assert ((exists pairs,
              chunk_score_pairs svc query top = Ok pairs /\
              _rerank_chunks_with_scores svc query top =
              Ok (map fst (sort_desc snd pairs), map snd (sort_desc snd pairs)))
          \/ (exists e, _rerank_chunks_with_scores svc query top = Raise e))
    as Hrr.
  { unfold chunk_score_pairs, _rerank_chunks_with_scores.
    destruct top as [|c top]; [left; eauto|].
    destruct (rerank svc query _) as [rs|e]; simpl; eauto. }
  destruct Hrr as [(pairs & Hp & ->)|[e ->]]; simpl; [|discriminate].
  intros [= <-].
  set (sorted_pairs := sort_desc snd pairs).
  assert (ranked
            (imap (fun i c =>
                     {| chunk := c;
                        summary_score := default s0 (dict_get su (id c));
                        small_chunk_score := default s0 (dict_get sm (id c));
                        combined_score :=
                          default s0 (dict_get (_merge_scores self su sm) (id c));
                        rerank_score :=
                          default s0 (map snd sorted_pairs !! i) |})
                  (py_take (limit self) (map fst sorted_pairs)))
          = py_take (limit self) sorted_pairs) as Hranked.
  { unfold py_take. rewrite length_map.
    destruct (0 <=? limit self)%Z; now apply ranked_imap. }
  split; [|split].
  - intros Hn. rewrite length_imap. now apply py_take_length.
  - match goal with
    | |- StronglySorted _ (map rerank_score ?l) =>
        replace (map rerank_score l) with (map snd (ranked l))
          by (unfold ranked; rewrite map_map; reflexivity)
    end.
    rewrite Hranked. apply sorted_keys. unfold py_take.
    destruct (0 <=? limit self)%Z; apply sorted_take, sort_desc_sorted.
  - exists (_merge_scores self su sm), top, pairs, sorted_pairs.
    repeat split; auto.
    + apply sort_desc_perm.
    + intros s. apply sort_desc_stable.
Qed.

End Order.

Section Fusion.

(** Adding to the [0.0] a [defaultdict(float)] starts from changes nothing. *)
Hypothesis sadd_0_l : forall x, sadd s0 x = x.

(** C6.  The fused score of a large chunk present in both maps is
    [alpha * small + (1 - alpha) * summary]; a chunk present in one map only
    gets the one weighted term; a chunk in neither has no fused score. *)
Theorem fused_score (self : AugmentedRetriever)
    (summary_scores small_chunk_scores : dict score) (big_chunk_id : string) :
  NoDup (keys summary_scores) -> NoDup (keys small_chunk_scores) ->
  dict_get (_merge_scores self summary_scores small_chunk_scores) big_chunk_id =
  match dict_get small_chunk_scores big_chunk_id,
        dict_get summary_scores big_chunk_id with
  | Some small, Some summary =>
      Some (sadd (smul (alpha self) small)
                 (smul (ssub s1 (alpha self)) summary))
  | Some small, None => Some (smul (alpha self) small)
  | None, Some summary => Some (smul (ssub s1 (alpha self)) summary)
  | None, None => None
  end.
Proof.
  intros Hsu Hsm. unfold _merge_scores.
  rewrite (fold_add_weighted_get _ _ Hsu), (fold_add_weighted_get _ _ Hsm).
  simpl.
  destruct (dict_get small_chunk_scores big_chunk_id) as [small|],
           (dict_get summary_scores big_chunk_id) as [summary|];
    simpl; rewrite ?sadd_0_l; reflexivity.
Qed.

End Fusion.

(** *** The similarity maps and the candidates *)

(** The rows of a similarity query that carry the id [k], in row order. *)
Definition rows_of (k : string) (rows : list (string * score))
  : list (string * score) :=
  List.filter (fun row => String.eqb (fst row) k) rows.

Lemma fold_similarity_get (rows : list (string * score)) :
  forall acc k,
    dict_get (fold_left (fun scores row =>
                           dict_set scores (fst row) (ssub s1 (snd row)))
                        rows acc) k =
    match last (rows_of k rows) with
    | Some row => Some (ssub s1 (snd row))
    | None => dict_get acc k
    end.
Proof.
  induction rows as [|r rows IH]; intros acc k; simpl; [reflexivity|].
  rewrite IH. unfold rows_of. simpl.
  destruct (String.eqb_spec (fst r) k) as [<-|Hne].
  - rewrite last_cons. destruct (last _); [reflexivity|]. apply dict_get_set_eq.
  - destruct (last _); [reflexivity|]. now apply dict_get_set_ne.
Qed.

Lemma py_take_sublist {A : Type} (n : Z) (l : list A) :
  sublist (py_take n l) l.
Proof. unfold py_take. destruct (0 <=? n)%Z; apply sublist_take. Qed.

Lemma zip_fst_sublist {A B : Type} (l : list A) (k : list B) :
  sublist (map fst (zip l k)) l.
Proof.
  revert k. induction l as [|x l IH]; intros [|y k]; simpl.
  - constructor.
  - constructor.
  - apply sublist_nil_l.
  - apply sublist_skip, IH.
Qed.

Lemma omap_ids_sublist (d : dict BigChunk) (ks : list string) :
  (forall k c, dict_get d k = Some c -> id c = k) ->
  sublist (map id (omap (dict_get d) ks)) ks.
Proof.
  intros Hd. induction ks as [|k ks IH]; simpl; [constructor|].
  destruct (dict_get d k) as [c|] eqn:E; simpl.
  - rewrite (Hd _ _ E). now apply sublist_skip.
  - now apply sublist_cons.
Qed.

Lemma imap_chunk_ids (F : nat -> BigChunk -> ContextItem) (l : list BigChunk) :
  (forall i c, chunk (F i c) = c) ->
  map (fun r => id (chunk r)) (imap F l) = map id l.
Proof.
  revert F. induction l as [|c l IH]; intros F HF; [reflexivity|].
  simpl. rewrite HF. f_equal. apply IH. intros i c'. apply HF.
Qed.

(** The candidates fetched for the reranker: no id twice, every id a key of
    the fused scores. *)
Lemma top_big_chunks_ids self svc (scores : dict score) top :
  NoDup (keys scores) ->
  _get_top_big_chunks self svc scores = Ok top ->
  NoDup (map id top) /\ Forall (fun c => In (id c) (keys scores)) top.
Proof.
  intros Hnd. unfold _get_top_big_chunks.
  destruct scores as [|kv scores']; [intros [= <-]; split; constructor|].
  destruct (select_big_chunks svc _) as [big_chunks|e]; [|discriminate].
  intros [= <-].
  set (d := fold_left (fun d c => dict_set d (id c) c) big_chunks []).
  set (ids := map fst (py_take (prefetch_limit self)
                               (sort_desc snd (kv :: scores')))).
  assert (forall k c, dict_get d k = Some c -> id c = k) as Hd.
  { intros k c. apply chunk_dict_ids. intros k' c'. discriminate. }
  assert (sublist ids (map fst (sort_desc snd (kv :: scores')))) as Hsub.
  { apply fmap_sublist, py_take_sublist. }
  assert (Permutation (map fst (sort_desc snd (kv :: scores')))
                      (keys (kv :: scores'))) as Hperm.
  { unfold keys. apply Permutation_map, sort_desc_perm. }
  pose proof (omap_ids_sublist d ids Hd) as Htop.
  split.
  - eapply sublist_NoDup; [|exact Htop].
    eapply sublist_NoDup; [|exact Hsub]. now rewrite Hperm.
  - apply List.Forall_forall. intros c Hc.
    apply (Permutation_in _ Hperm). apply list_elem_of_In.
    eapply elem_of_sublist; [|exact Hsub].
    eapply elem_of_sublist; [|exact Htop].
    apply list_elem_of_In. now apply in_map.
Qed.

(** X8.  When several rows of a similarity query carry the same large-chunk
    id, the similarity kept for that chunk is the one of the last such row:
    the rows come nearest first, so it is the similarity of the farthest of
    them.  A chunk id without a row has no entry. *)
Theorem similarity_keeps_last_row (svc : Services) (db_model : Submodel)
    (fetch_limit : Z) (query_embedding : list score) (scores : dict score) :
  _get_submodel_similarity svc db_model fetch_limit query_embedding = Ok scores ->
  exists rows,
    nearest svc db_model fetch_limit query_embedding = Ok rows /\
    forall big_chunk_id,
      dict_get scores big_chunk_id =
      match last (rows_of big_chunk_id rows) with
      | Some row => Some (ssub s1 (snd row))
      | None => None
      end.
Proof.
  unfold _get_submodel_similarity.
  destruct (nearest svc db_model fetch_limit query_embedding) as [rows|e];
    simpl; [|discriminate].
  intros [= <-]. exists rows. split; [reflexivity|].
  intros k. now rewrite fold_similarity_get.
Qed.

(** X9.  [retrieve] never returns the same large chunk twice, and every
    chunk it returns has a fused score, which is the [combined_score]
    reported for it: the [0.0] default is never used for that field. *)
Theorem retrieve_returns_distinct_candidates (self : AugmentedRetriever)
    (svc : Services) (query : string) (results : list ContextItem) :
  retrieve self svc query = Ok results ->
  NoDup (map (fun r => id (chunk r)) results) /\
  exists scores,
    fused_scores self svc query = Ok scores /\
    Forall (fun r => dict_get scores (id (chunk r)) = Some (combined_score r))
           results.
Proof.
  unfold retrieve, fused_scores.
  destruct (embedder svc query) as [qe|e]; simpl; [|discriminate].
  destruct (_get_submodel_similarity svc BigChunkSummary _ qe) as [su|e];
    simpl; [|discriminate].
  destruct (_get_submodel_similarity svc SmallChunk _ qe) as [sm|e];
    simpl; [|discriminate].
  destruct (_get_top_big_chunks self svc _) as [top|e] eqn:Etop; simpl;
    [|discriminate].
  apply top_big_chunks_ids in Etop as [Hnd Hin]; [|apply merge_scores_NoDup].
  assert (forall reranked scores,
             _rerank_chunks_with_scores svc query top = Ok (reranked, scores) ->
             exists l, Permutation reranked l /\ sublist l top) as Hrr.
  { unfold _rerank_chunks_with_scores. intros reranked scores.
    destruct top as [|c top'].
    - intros [= <- <-]. exists []. split; constructor.
    - destruct (rerank svc query _) as [rs|e]; simpl; [|discriminate].
      intros [= <- <-].
      exists (map fst (zip (c :: top') (map snd rs))).
      split; [|apply zip_fst_sublist].
      apply Permutation_map, sort_desc_perm. }
  destruct (_rerank_chunks_with_scores svc query top) as [[reranked rs]|e];
    simpl; [|discriminate].
  destruct (Hrr reranked rs eq_refl) as (l & Hperm & Hsub).
  intros [= <-].
  assert (NoDup (map id reranked)) as Hnd'.
  { rewrite Hperm. eapply sublist_NoDup; [exact Hnd|].
    now apply fmap_sublist. }
  assert (Forall (fun c => In (id c) (keys (_merge_scores self su sm)))
                 reranked) as Hin'.
  { apply List.Forall_forall. intros c Hc.
    rewrite List.Forall_forall in Hin. apply Hin.
    apply list_elem_of_In. eapply elem_of_sublist; [|exact Hsub].
    apply list_elem_of_In. now apply (Permutation_in _ Hperm). }
  split.
  - rewrite imap_chunk_ids by reflexivity.
    eapply sublist_NoDup; [exact Hnd'|]. apply fmap_sublist, py_take_sublist.
  - eexists. split; [reflexivity|].
    apply List.Forall_forall. intros r Hr.
    apply list_elem_of_In, list_elem_of_lookup in Hr as [i Hr].
    rewrite list_lookup_imap in Hr.
    destruct (py_take (limit self) reranked !! i) as [c|] eqn:Ec;
      [|discriminate].
    injection Hr as <-. simpl.
    assert (In (id c) (keys (_merge_scores self su sm))) as Hk.
    { rewrite List.Forall_forall in Hin'. apply Hin'.
      apply list_elem_of_In. eapply elem_of_sublist; [|apply py_take_sublist].
      eapply list_elem_of_lookup_2. exact Ec. }
    destruct (dict_get (_merge_scores self su sm) (id c)) as [v|] eqn:Ev;
      [reflexivity|].
    exfalso. clear -Hk Ev. unfold keys in Hk.
    induction (_merge_scores self su sm) as [|[k v] d IH]; simpl in *;
      [tauto|].
    destruct (String.eqb_spec k (id c)) as [E|Hne]; [discriminate|].
    destruct Hk as [Hk|Hk]; [contradiction|auto].
Qed.

(** X10.  When neither similarity query finds a row, [retrieve] returns the
    empty list without fetching chunks or calling the reranker: whatever
    those two services would do. *)
Theorem retrieve_without_hits (self : AugmentedRetriever) (svc : Services)
    (query : string) (query_embedding : list score) :
  embedder svc query = Ok query_embedding ->
  nearest svc BigChunkSummary (summary_limit self) query_embedding = Ok [] ->
  nearest svc SmallChunk (small_chunk_limit self) query_embedding = Ok [] ->
  retrieve self svc query = Ok [].
Proof.
  intros He Hsu Hsm. unfold retrieve, _get_submodel_similarity.
  rewrite He. simpl. rewrite Hsu, Hsm. simpl. unfold py_take.
  destruct (0 <=? limit self)%Z; now rewrite take_nil.
Qed.

End Scores.

(** *** A run on rationals

    Three large chunks; [a] and [b] are found by both indices, [c] by the
    small-chunk index only.  The reranker puts [b] first and gives [a] and
    [c] the same score. *)

Lemma Qplus_0_l_eq (x : Q) : Qplus 0%Q x = x.
Proof.
  destruct x as [n d]. unfold Qplus. simpl. now rewrite Z.mul_1_r.
Qed.

Lemma Qle_bool_total (a b : Q) : Qle_bool a b = true \/ Qle_bool b a = true.
Proof.
  rewrite !Qle_bool_iff. destruct (Qlt_le_dec a b) as [H|H]; [left|right]; auto.
  now apply Qlt_le_weak.
Qed.

Lemma Qle_bool_trans (a b c : Q) :
  Qle_bool a b = true -> Qle_bool b c = true -> Qle_bool a c = true.
Proof. rewrite !Qle_bool_iff. apply Qle_trans. Qed.

Definition demo_retriever : AugmentedRetriever Q :=
  {| limit := 3%Z; prefetch_limit := 10%Z; alpha := (1 # 2)%Q;
     summary_limit := 10%Z; small_chunk_limit := 50%Z |}.

Definition demo_summary_scores : dict Q := [("a", 3 # 5); ("b", 1 # 5)]%Q.
Definition demo_small_chunk_scores : dict Q := [("a", 4 # 5); ("c", 1 # 2)]%Q.

Definition demo_store : list BigChunk :=
  [ {| id := "a"; text := "text of a" |};
    {| id := "b"; text := "text of b" |};
    {| id := "c"; text := "text of c" |} ].

Definition demo_services : Services Q :=
  {| embedder := fun _ => Ok [1 # 1]%Q;
     nearest := fun m _ _ =>
       match m with
       | BigChunkSummary => Ok [("a", 2 # 5); ("b", 4 # 5)]%Q
       | SmallChunk => Ok [("a", 1 # 5); ("c", 1 # 2)]%Q
       end;
     select_big_chunks := fun ids =>
       Ok (List.filter
             (fun c => existsb (String.eqb (id c)) ids) demo_store);
     rerank := fun _ candidates =>
       Ok (zip (seq 0 (length candidates)) [7 # 10; 9 # 10; 7 # 10]%Q) |}.

Lemma fused_score_witness :
  dict_get (_merge_scores Q 0%Q 1%Q Qplus Qminus Qmult demo_retriever
                          demo_summary_scores demo_small_chunk_scores) "a"
  = Some ((1 # 2) * (4 # 5) + (1 - (1 # 2)) * (3 # 5))%Q /\
  dict_get (_merge_scores Q 0%Q 1%Q Qplus Qminus Qmult demo_retriever
                          demo_summary_scores demo_small_chunk_scores) "c"
  = Some ((1 # 2) * (1 # 2))%Q.
Proof.
  assert (NoDup (keys demo_summary_scores)) as Hsu.
  { unfold demo_summary_scores, keys. simpl.
    repeat (apply NoDup_cons_2;
            [intros H; apply list_elem_of_In in H; simpl in H;
             intuition discriminate|]).
    apply NoDup_nil_2. }
  assert (NoDup (keys demo_small_chunk_scores)) as Hsm.
  { unfold demo_small_chunk_scores, keys. simpl.
    repeat (apply NoDup_cons_2;
            [intros H; apply list_elem_of_In in H; simpl in H;
             intuition discriminate|]).
    apply NoDup_nil_2. }
  split.
  - exact (fused_score Q 0%Q 1%Q Qplus Qminus Qmult Qplus_0_l_eq demo_retriever
             demo_summary_scores demo_small_chunk_scores "a" Hsu Hsm).
  - exact (fused_score Q 0%Q 1%Q Qplus Qminus Qmult Qplus_0_l_eq demo_retriever
             demo_summary_scores demo_small_chunk_scores "c" Hsu Hsm).
Defined.

Lemma retrieve_ranked_witness :
  exists results,
    retrieve Q 0%Q 1%Q Qplus Qminus Qmult Qle_bool
             demo_retriever demo_services "q" = Ok results /\
    map (fun r => id (chunk Q r)) results = ["c"; "a"; "b"] /\
    StronglySorted (fun a b => Qle_bool b a = true)
                   (map (rerank_score Q) results).
Proof.
  eexists. split; [vm_compute; reflexivity|]. split; [reflexivity|].
  refine (proj1 (proj2
            (retrieve_ranked Q 0%Q 1%Q Qplus Qminus Qmult Qle_bool
               Qle_bool_total Qle_bool_trans
               demo_retriever demo_services "q" _ _))).
  vm_compute; reflexivity.
Defined.

(** Two large chunks with the same fused score, [A] reranked 0.9 and [B]
    reranked 0.7: the result is [[A; B]]. *)
Definition tie_services : Services Q :=
  {| embedder := fun _ => Ok [1 # 1]%Q;
     nearest := fun m _ _ =>
       match m with
       | BigChunkSummary => Ok [("B", 1 # 5); ("A", 1 # 5)]%Q
       | SmallChunk => Ok [("B", 1 # 5); ("A", 1 # 5)]%Q
       end;
     select_big_chunks := fun _ =>
       Ok [ {| id := "A"; text := "text of A" |};
            {| id := "B"; text := "text of B" |} ];
     rerank := fun _ _ => Ok [(0%nat, 7 # 10); (1%nat, 9 # 10)]%Q |}.

Example retrieve_tie_run :
  match retrieve Q 0%Q 1%Q Qplus Qminus Qmult Qle_bool demo_retriever
                 tie_services "q" with
  | Ok results =>
      map (fun r => (id (chunk Q r), combined_score Q r, rerank_score Q r))
          results
  | Raise _ => []
  end
  = [("A", ((1 # 2) * (1 - (1 # 5)) + (1 - (1 # 2)) * (1 - (1 # 5)))%Q, 9 # 10);
     ("B", ((1 # 2) * (1 - (1 # 5)) + (1 - (1 # 2)) * (1 - (1 # 5)))%Q, 7 # 10)]%Q.
Proof. vm_compute. reflexivity. Qed.

(** Two small chunks of the large chunk [a] among the rows, at distances
    0.1 and 0.3: the similarity kept for [a] is 0.7. *)
Definition repeated_rows_services : Services Q :=
  {| embedder := fun _ => Ok [1 # 1]%Q;
     nearest := fun _ _ _ => Ok [("a", 1 # 10); ("b", 1 # 5); ("a", 3 # 10)]%Q;
     select_big_chunks := fun _ => Ok demo_store;
     rerank := fun _ candidates =>
       Ok (zip (seq 0 (length candidates)) [7 # 10; 9 # 10; 7 # 10]%Q) |}.

Lemma similarity_keeps_last_row_witness :
  exists scores,
    _get_submodel_similarity Q 1%Q Qminus repeated_rows_services SmallChunk
                             50%Z [1 # 1]%Q = Ok scores /\
    dict_get scores "a" = Some (1 - (3 # 10))%Q /\
    dict_get scores "zzz" = None.
Proof.
  eexists. split; [vm_compute; reflexivity|].
  destruct (similarity_keeps_last_row Q 1%Q Qminus repeated_rows_services
              SmallChunk 50%Z [1 # 1]%Q _ eq_refl) as (rows & Hrows & Hget).
  injection Hrows as <-. split; [exact (Hget "a")|exact (Hget "zzz")].
Defined.

Lemma retrieve_returns_distinct_candidates_witness :
  exists results,
    retrieve Q 0%Q 1%Q Qplus Qminus Qmult Qle_bool
             demo_retriever demo_services "q" = Ok results /\
    NoDup (map (fun r => id (chunk Q r)) results).
Proof.
  eexists. split; [vm_compute; reflexivity|].
  refine (proj1 (retrieve_returns_distinct_candidates Q 0%Q 1%Q Qplus Qminus
                   Qmult Qle_bool demo_retriever demo_services "q" _ _)).
  vm_compute; reflexivity.
Defined.

(** An empty knowledge base, with a chunk store and a reranker that are
    down. *)
Definition empty_base_services : Services Q :=
  {| embedder := fun _ => Ok [1 # 1]%Q;
     nearest := fun _ _ _ => Ok [];
     select_big_chunks := fun _ => Raise (ServiceError "store unavailable");
     rerank := fun _ _ => Raise (RuntimeError "Rerank request failed") |}.

Lemma retrieve_without_hits_witness :
  retrieve Q 0%Q 1%Q Qplus Qminus Qmult Qle_bool
           demo_retriever empty_base_services "q" = Ok [].
Proof.
  apply (retrieve_without_hits Q 0%Q 1%Q Qplus Qminus Qmult Qle_bool
           demo_retriever empty_base_services "q" [1 # 1]%Q); reflexivity.
Defined.

End Retriever.

(** * chatsystem/summarizer.py *)

Module Summarizer.

Definition to_upper (c : ascii) : ascii :=
  let n := nat_of_ascii c in
  if (97 <=? n)%nat && (n <=? 122)%nat then ascii_of_nat (n - 32) else c.

(** [s] without [prefix], compared as [re.IGNORECASE] compares ASCII letters. *)
Fixpoint strip_prefix_nocase (prefix s : string) : option string :=
  match prefix, s with
  | EmptyString, _ => Some s
  | String p ps, String c cs =>
      if Ascii.eqb (to_upper p) (to_upper c) then strip_prefix_nocase ps cs
      else None
  | String _ _, EmptyString => None
  end.

Definition not_newline (c : ascii) : bool := negb (is_newline c).

(** One attempt of [^\s*PREFIX:\s*(.+)$] where [^] holds: group 1.  The
    second [\s*] gives characters back when nothing but white space follows
    the colon. *)
Definition match_prefixed_at (prefix s : string) : option string :=
  let s1 := str_drop (span_len py_isspace s) s in
  match strip_prefix_nocase (prefix +:+ ":") s1 with
  | None => None
  | Some s2 =>
      let w := span_len py_isspace s2 in
      match str_drop w s2 with
      | String _ _ as r => Some (str_take (span_len not_newline r) r)
      | EmptyString =>
          match last_index not_newline s2 with
          | Some j => Some (str_slice j (S j) s2)
          | None => None
          end
      end
  end.

(** [re.search(pattern, text, re.I | re.M)]: the first line start at which
    the pattern matches. *)
Fixpoint search_prefixed (prefix : string) (bol : bool) (s : string)
  : option string :=
  match s with
  | EmptyString => None
  | String c rest =>
      match (if bol then match_prefixed_at prefix s else None) with
      | Some g => Some g
      | None => search_prefixed prefix (is_newline c) rest
      end
  end.

Definition _extract_prefixed (text prefix : string) : result string :=
  match search_prefixed prefix true text with
  | Some g => Ok (py_strip g)
  | None =>
      Raise (ValueError ("Model response did not start with '" +:+ prefix +:+ ":'"))
  end.

(** [f"{m['role']}: {m['content']}"] joined by newlines. *)
Definition render_history (history_openai : list (string * string)) : string :=
  join_with (String newline EmptyString)
            (map (fun m => fst m +:+ ": " +:+ snd m) history_openai).

(** [try: return self._extract_prefixed(raw, prefix)
     except ValueError: return raw.strip()] *)
Definition extract_or_raw (raw prefix : string) : result string :=
  match _extract_prefixed raw prefix with
  | Ok r => Ok r
  | Raise (ValueError _) => Ok (py_strip raw)
  | Raise e => Raise e
  end.

Section Prompts.

(** [TEMPLATE.format(...)] for the three prompt templates of the module, as
    functions of the values filled in. *)
Variable REWRITE_PROMPT_PREFIX : Z -> string -> string -> string.
Variable SUMMARY_PROMPT_PREFIX : Z -> string -> string.
Variable TITLE_PROMPT_PREFIX : Z -> string -> string -> string.

Record ConversationUtils : Type := {
  generator : Generator;
  max_tokens : Z
}.

(** [rewrite]: the value returned or the exception raised, and the prompts
    sent to the generation service. *)
Definition rewrite (self : ConversationUtils) (query : string)
    (history_openai : list (string * string)) : result string * list string :=
  match history_openai with
  | [] => (Ok query, [])
  | _ :: _ =>
      let prompt :=
        REWRITE_PROMPT_PREFIX (max_tokens self) (render_history history_openai)
                              query in
      (raw_response ← invoke (generator self) prompt;
       extract_or_raw raw_response "REWRITE",
       [prompt])
  end.

Definition summarise (self : ConversationUtils)
    (history_openai : list (string * string)) : result string :=
  let prompt :=
    SUMMARY_PROMPT_PREFIX (max_tokens self) (render_history history_openai) in
  raw_response ← invoke (generator self) prompt;
  extract_or_raw raw_response "SUMMARY".

Definition generate_title (self : ConversationUtils)
    (first_user_msg assistant_response : string) : result string :=
  let prompt :=
    TITLE_PROMPT_PREFIX (max_tokens self) first_user_msg assistant_response in
  raw_response ← invoke (generator self) prompt;
  extract_or_raw raw_response "TITLE".

(** C9.  With an empty history, [rewrite] returns the query unchanged and
    sends nothing to the generation service. *)
Theorem rewrite_empty_history (self : ConversationUtils) (q : string) :
  rewrite self q [] = (Ok q, []).
Proof. reflexivity. Qed.

End Prompts.

(** *** Reading the model's answer *)

Lemma match_prefixed_at_line prefix s g :
  match_prefixed_at prefix s = Some g -> str_forall not_newline g = true.
Proof.
  unfold match_prefixed_at.
  destruct (strip_prefix_nocase _ _) as [s2|]; [|discriminate].
  destruct (str_drop (span_len py_isspace s2) s2) as [|c r] eqn:Er.
  - destruct (last_index not_newline s2) as [j|] eqn:Ej; [|discriminate].
    intros [= <-]. now apply last_index_sat.
  - intros [= <-]. exact (str_forall_take_span not_newline (String c r)).
Qed.

Lemma search_prefixed_line prefix s : forall bol g,
  search_prefixed prefix bol s = Some g -> str_forall not_newline g = true.
Proof.
  induction s as [|c s IH]; intros bol g; simpl; [discriminate|].
  destruct (if bol then match_prefixed_at prefix (String c s) else None)
    as [g'|] eqn:Em.
  - intros [= <-]. destruct bol; [|discriminate].
    eapply match_prefixed_at_line; eauto.
  - apply IH.
Qed.

Lemma strip_prefix_nocase_app (p rest : string) :
  strip_prefix_nocase p (p +:+ rest) = Some rest.
Proof.
  induction p as [|c p IH]; [now destruct rest|].
  rewrite str_app_cons. simpl. now rewrite Ascii.eqb_refl.
Qed.

Lemma search_prefixed_first prefix s g :
  match_prefixed_at prefix s = Some g -> s <> EmptyString ->
  search_prefixed prefix true s = Some g.
Proof.
  intros Hm Hs. destruct s as [|c s]; [contradiction|].
  simpl. now rewrite Hm.
Qed.

(** X11.  What [_extract_prefixed] returns is a part of one line, trimmed:
    it holds no newline and has no white space at either end. *)
Theorem extract_prefixed_returns_trimmed_line (text prefix r : string) :
  _extract_prefixed text prefix = Ok r ->
  str_forall not_newline r = true /\ py_strip r = r.
Proof.
  unfold _extract_prefixed.
  destruct (search_prefixed prefix true text) as [g|] eqn:E; [|discriminate].
  intros [= <-]. split.
  - apply strip_chars_forall. eapply search_prefixed_line; eauto.
  - apply strip_chars_idempotent.
Qed.

Lemma extract_prefixed_returns_trimmed_line_witness :
  _extract_prefixed ("Sure." +:+ String newline "  rewrite:  Where is it?  ")
                    "REWRITE" = Ok "Where is it?" /\
  str_forall not_newline "Where is it?" = true /\
  py_strip "Where is it?" = "Where is it?".
Proof.
  split; [reflexivity|].
  apply (extract_prefixed_returns_trimmed_line
           ("Sure." +:+ String newline "  rewrite:  Where is it?  ")
           "REWRITE").
  reflexivity.
Defined.

(** X12.  Round trip of the answer format the prompts ask for.  A value
    that is not empty, holds no newline and has no white space at either
    end is read back from the line [PREFIX: value], alone or followed by
    further lines, for every prefix that does not open with white space. *)
Theorem extract_prefixed_round_trip (prefix value rest : string) :
  (forall c p, prefix = String c p -> py_isspace c = false) ->
  value <> EmptyString ->
  str_forall not_newline value = true ->
  py_strip value = value ->
  (rest = EmptyString \/ exists t, rest = String newline t) ->
  _extract_prefixed (prefix +:+ ": " +:+ value +:+ rest) prefix = Ok value.
Proof.
  intros Hp Hne Hline Hstrip Hrest. unfold _extract_prefixed.
  assert (span_len not_newline rest = O) as Hstop.
  { destruct Hrest as [->|[t ->]]; reflexivity. }
  assert (span_len py_isspace value = O) as Hfirst
    by now apply strip_chars_fixed_first.
  assert (match_prefixed_at prefix (prefix +:+ ": " +:+ value +:+ rest)
          = Some value) as Hm.
  { unfold match_prefixed_at.
    assert (span_len py_isspace (prefix +:+ ": " +:+ value +:+ rest) = O)
      as ->.
    { destruct prefix as [|c p]; [reflexivity|].
      rewrite str_app_cons. simpl. now rewrite (Hp c p eq_refl). }
    change (str_drop 0 ?x) with x.
    replace (prefix +:+ ": " +:+ value +:+ rest)
      with ((prefix +:+ ":") +:+ (" " +:+ value +:+ rest))
      by (now rewrite str_app_assoc).
    rewrite strip_prefix_nocase_app.
    change (" " +:+ value +:+ rest) with (String " " (value +:+ rest)).
    assert (span_len py_isspace (String " " (value +:+ rest)) = 1%nat) as ->.
    { change (span_len py_isspace (String " " (value +:+ rest)))
        with (S (span_len py_isspace (value +:+ rest))).
      f_equal. destruct value as [|c v]; [contradiction|].
      rewrite str_app_cons. simpl in *. now destruct (py_isspace c). }
    change (str_drop 1 (String " " (value +:+ rest))) with (value +:+ rest).
    destruct (value +:+ rest) as [|c r] eqn:E.
    - destruct value; [contradiction|]. now rewrite str_app_cons in E.
    - rewrite <- E. rewrite span_len_app_stop by assumption.
      now rewrite str_take_app_exact. }
  rewrite (search_prefixed_first _ _ _ Hm).
  - now rewrite Hstrip.
  - destruct prefix; [discriminate|]. now rewrite str_app_cons.
Qed.

Lemma extract_prefixed_round_trip_witness :
  _extract_prefixed ("TITLE: Annual Leave" +:+ String newline "TITLE: other")
                    "TITLE" = Ok "Annual Leave".
Proof.
  apply (extract_prefixed_round_trip "TITLE" "Annual Leave"
           (String newline "TITLE: other")).
  - intros c p [= <- <-]. reflexivity.
  - discriminate.
  - reflexivity.
  - reflexivity.
  - right. eauto.
Defined.

(** The fallback of the three helper calls: whatever the model answered,
    a trimmed text comes back. *)
Lemma extract_or_raw_total raw prefix :
  exists r, extract_or_raw raw prefix = Ok r /\ py_strip r = r.
Proof.
  unfold extract_or_raw, _extract_prefixed.
  destruct (search_prefixed prefix true raw); eexists;
    (split; [reflexivity|apply strip_chars_idempotent]).
Qed.

Section HelperCalls.

Variable REWRITE_PROMPT_PREFIX : Z -> string -> string -> string.
Variable SUMMARY_PROMPT_PREFIX : Z -> string -> string.
Variable TITLE_PROMPT_PREFIX : Z -> string -> string -> string.

(** X13.  [rewrite] (with a history that is not empty), [summarise] and
    [generate_title] return a trimmed text whenever the generation service
    answers, whatever it answers: an answer without the expected prefix is
    returned trimmed instead of raising.  They raise only what the service
    raises. *)
Theorem helper_calls_fail_only_with_the_service (self : ConversationUtils) :
  (forall query m history,
      match invoke (generator self)
              (REWRITE_PROMPT_PREFIX (max_tokens self)
                 (render_history (m :: history)) query) with
      | Ok _ =>
          exists r,
            fst (rewrite REWRITE_PROMPT_PREFIX self query (m :: history)) = Ok r
            /\ py_strip r = r
      | Raise e =>
          fst (rewrite REWRITE_PROMPT_PREFIX self query (m :: history)) = Raise e
      end) /\
  (forall history,
      match invoke (generator self)
              (SUMMARY_PROMPT_PREFIX (max_tokens self)
                 (render_history history)) with
      | Ok _ =>
          exists r,
            summarise SUMMARY_PROMPT_PREFIX self history = Ok r /\
            py_strip r = r
      | Raise e => summarise SUMMARY_PROMPT_PREFIX self history = Raise e
      end) /\
  (forall first_user_msg assistant_response,
      match invoke (generator self)
              (TITLE_PROMPT_PREFIX (max_tokens self) first_user_msg
                 assistant_response) with
      | Ok _ =>
          exists r,
            generate_title TITLE_PROMPT_PREFIX self first_user_msg
                           assistant_response = Ok r /\
            py_strip r = r
      | Raise e =>
          generate_title TITLE_PROMPT_PREFIX self first_user_msg
                         assistant_response = Raise e
      end).
Proof.
  split; [|split].
  - intros query m history. unfold rewrite. simpl.
    destruct (invoke _ _) as [raw|e]; simpl; [|reflexivity].
    apply extract_or_raw_total.
  - intros history. unfold summarise.
    destruct (invoke _ _) as [raw|e]; simpl; [|reflexivity].
    apply extract_or_raw_total.
  - intros u a. unfold generate_title.
    destruct (invoke _ _) as [raw|e]; simpl; [|reflexivity].
    apply extract_or_raw_total.
Qed.

End HelperCalls.

Example extract_prefixed_rewrite :
  _extract_prefixed ("Sure." +:+ String newline "  rewrite:  Where is it?  ")
                    "REWRITE"
  = Ok "Where is it?".
Proof. reflexivity. Qed.

Example extract_prefixed_missing :
  extract_or_raw "  no tag here " "TITLE" = Ok "no tag here".
Proof. reflexivity. Qed.

End Summarizer.

(** * chatsystem/history_manager.py *)

Module History.

(** An item of [ChatHistory.messages].  [entry_id] is the ["id"] key, which
    entries loaded from the store do not have; [db_id] is the ["db_id"] key;
    [context] is the diagnostics payload, kept as text. *)
Record Entry : Type := {
  entry_id : option string;
  role : string;
  content : string;
  context : string;
  created_at : Z;
  persisted : bool;
  db_id : option string
}.

Record Conversation : Type := {
  conv_id : option string;
  title : option string;
  token_budgeting_summary : option string;
  token_budgeting_message_id : option string
}.

Record Message : Type := {
  message_id : string;
  conversation_id : option string;
  message_role : string;
  message_content : string;
  message_context : string;
  message_created_at : Z
}.

(** The relational store as the history manager uses it: whether it accepts
    a session, the conversation rows, the message rows, and the number of
    primary keys its defaults have generated. *)
Record Store : Type := {
  store_up : bool;
  conversations : list Conversation;
  stored_messages : list Message;
  generated : nat
}.

Record ChatHistory : Type := {
  conversation : Conversation;
  token_threshold : Z;
  messages : list Entry
}.

Definition uuid_of (n : nat) : string := "uuid-" +:+ pretty n.

(** [ChatHistory.add] *)
Definition add (self : ChatHistory) (role content : string) (msg_id : string)
    (created_at : Z) (context : string) : ChatHistory :=
  {| conversation := conversation self;
     token_threshold := token_threshold self;
     messages :=
       messages self ++
       [ {| entry_id := Some msg_id; role := role; content := content;
            context := context; created_at := created_at;
            persisted := false; db_id := None |} ] |}.

Definition to_openai_format (self : ChatHistory) : list (string * string) :=
  map (fun m => (role m, content m)) (messages self).

(** [sum(len(m["content"].split()) for m in msgs)] *)
Definition rough_count (msgs : list Entry) : Z :=
  Z.of_nat (list_sum (map (fun m => count_words false (content m)) msgs)).

(** [_tokens_in(msgs)]; [token_count] is the same on [self.messages]. *)
Definition _tokens_in (gen : Generator) (msgs : list Entry) : Z :=
  match count_conversation_tokens gen
          (map (fun m => (role m, content m)) msgs) with
  | Ok n => n
  | Raise _ => rough_count msgs
  end.

Definition token_count (gen : Generator) (self : ChatHistory) : Z :=
  _tokens_in gen (messages self).

Definition _history_as_plain (self : ChatHistory) : string :=
  join_with (String newline EmptyString)
            (map (fun m => role m +:+ ": " +:+ content m) (messages self)).

(** The body of [for m in self.messages] in [flush_to_db]: the entries seen
    so far, the conversation, the store, and whether [m] is
    [self.messages[0]]. *)
Definition flush_entry (acc : list Entry * Conversation * Store) (first : bool)
    (m : Entry) : list Entry * Conversation * Store :=
  let '(done, conv, db) := acc in
  if persisted m then (done ++ [m], conv, db)
  else
    let '(mid, db) :=
      match entry_id m with
      | Some i => (i, db)
      | None =>
          (uuid_of (generated db),
           {| store_up := store_up db; conversations := conversations db;
              stored_messages := stored_messages db;
              generated := S (generated db) |})
      end in
    let row := {| message_id := mid; conversation_id := conv_id conv;
                  message_role := role m; message_content := content m;
                  message_context := context m;
                  message_created_at := created_at m |} in
    let db := {| store_up := store_up db; conversations := conversations db;
                 stored_messages := stored_messages db ++ [row];
                 generated := generated db |} in
    let m' := {| entry_id := entry_id m; role := role m; content := content m;
                 context := context m; created_at := created_at m;
                 persisted := true; db_id := Some mid |} in
    let conv :=
      match token_budgeting_message_id conv, first with
      | None, true =>
          {| conv_id := conv_id conv; title := title conv;
             token_budgeting_summary := token_budgeting_summary conv;
             token_budgeting_message_id := Some mid |}
      | _, _ => conv
      end in
    (done ++ [m'], conv, db).

Fixpoint flush_entries (acc : list Entry * Conversation * Store) (first : bool)
    (msgs : list Entry) : list Entry * Conversation * Store :=
  match msgs with
  | [] => acc
  | m :: rest => flush_entries (flush_entry acc first m) false rest
  end.

(** The conversation rows after [session.add(self.conversation)] and the
    commit: the row of this conversation replaced or added. *)
Definition upsert (conv : Conversation) (rows : list Conversation)
  : list Conversation :=
  List.filter (fun c => negb (bool_decide (conv_id c = conv_id conv))) rows
  ++ [conv].

(** [flush_to_db].  A store that is down raises at the first flush of the
    session, before any entry is marked. *)
Definition flush_to_db (self : ChatHistory) (db : Store)
  : result unit * (ChatHistory * Store) :=
  if negb (store_up db)
  then (Raise (ServiceError "database session failed"), (self, db))
  else
    let '(conv, db) :=
      match conv_id (conversation self) with
      | Some _ => (conversation self, db)
      | None =>
          ({| conv_id := Some (uuid_of (generated db));
              title := title (conversation self);
              token_budgeting_summary :=
                token_budgeting_summary (conversation self);
              token_budgeting_message_id :=
                token_budgeting_message_id (conversation self) |},
           {| store_up := store_up db; conversations := conversations db;
              stored_messages := stored_messages db;
              generated := S (generated db) |})
      end in
    let '(msgs, conv, db) := flush_entries ([], conv, db) true (messages self) in
    (Ok (),
     ({| conversation := conv; token_threshold := token_threshold self;
         messages := msgs |},
      {| store_up := store_up db; conversations := upsert conv (conversations db);
         stored_messages := stored_messages db; generated := generated db |})).

(** [while self.token_count() > self.token_threshold and
    len(self.messages) > 1: self.messages.popleft()] *)
Fixpoint drop_oldest (gen : Generator) (threshold : Z) (msgs : list Entry)
  : list Entry :=
  match msgs with
  | m :: (_ :: _) as rest =>
      if (threshold <? _tokens_in gen msgs)%Z
      then drop_oldest gen threshold rest
      else msgs
  | _ => msgs
  end.

(** Two states of one transcript entry: everything but the persistence
    marks agrees. *)
Definition same_entry (m m' : Entry) : Prop :=
  entry_id m' = entry_id m /\ role m' = role m /\ content m' = content m /\
  context m' = context m /\ created_at m' = created_at m.

Lemma same_entry_refl m : same_entry m m.
Proof. repeat split. Qed.

Lemma same_entry_trans m1 m2 m3 :
  same_entry m1 m2 -> same_entry m2 m3 -> same_entry m1 m3.
Proof. unfold same_entry. intuition congruence. Qed.

Lemma flush_entry_spec done conv db first m done' conv' db' :
  flush_entry (done, conv, db) first m = (done', conv', db') ->
  exists m', done' = done ++ [m'] /\ same_entry m m'.
Proof.
  unfold flush_entry. destruct (persisted m).
  - intros [= <- <- <-]. exists m. split; [reflexivity|apply same_entry_refl].
  - destruct (entry_id m) as [i|] eqn:Ei;
      destruct (token_budgeting_message_id conv), first;
      intros [= <- <- <-]; eexists;
      (split; [reflexivity|repeat split; simpl; congruence]).
Qed.

Lemma flush_entries_spec msgs done conv db first done' conv' db' :
  flush_entries (done, conv, db) first msgs = (done', conv', db') ->
  exists tail, done' = done ++ tail /\ Forall2 same_entry msgs tail.
Proof.
  revert done conv db first.
  induction msgs as [|m msgs IH]; intros done conv db first;
    cbn [flush_entries].
  - intros [= <- <- <-]. exists []. split; [now rewrite app_nil_r|constructor].
  - destruct (flush_entry (done, conv, db) first m) as [[d1 c1] s1] eqn:E.
    apply flush_entry_spec in E as (m' & -> & Hm).
    intros H. apply IH in H as (tail & -> & Ht).
    exists (m' :: tail). split; [now rewrite <- app_assoc|now constructor].
Qed.

Lemma flush_to_db_spec self db self' db' :
  flush_to_db self db = (Ok (), (self', db')) ->
  Forall2 same_entry (messages self) (messages self') /\
  token_threshold self' = token_threshold self.
Proof.
  unfold flush_to_db. destruct (store_up db); simpl; [|discriminate].
  destruct (conv_id (conversation self));
    match goal with
    | |- context [flush_entries ?a ?f ?l] =>
        destruct (flush_entries a f l) as [[ms c] d] eqn:E
    end;
    apply flush_entries_spec in E as (tail & -> & Ht);
    intros [= <- <-]; simpl; auto.
Qed.

Lemma same_entries_tokens gen msgs msgs' :
  Forall2 same_entry msgs msgs' -> _tokens_in gen msgs' = _tokens_in gen msgs.
Proof.
  intros H. unfold _tokens_in, rough_count.
  assert (map (fun m => (role m, content m)) msgs' =
          map (fun m => (role m, content m)) msgs) as ->.
  { induction H as [|m m' l l' (_ & Hr & Hc & _) _ IH]; simpl;
      [reflexivity | now rewrite Hr, Hc, IH]. }
  assert (map (fun m => count_words false (content m)) msgs' =
          map (fun m => count_words false (content m)) msgs) as ->.
  { induction H as [|m m' l l' (_ & _ & Hc & _) _ IH]; simpl;
      [reflexivity | now rewrite Hc, IH]. }
  reflexivity.
Qed.

Lemma same_entries_last msgs msgs' m :
  Forall2 same_entry msgs msgs' -> last msgs = Some m ->
  exists m', last msgs' = Some m' /\ same_entry m m'.
Proof.
  intros H. revert m. induction H as [|x x' l l' Hx Hl IH]; intros m; simpl.
  - discriminate.
  - destruct Hl as [|y y' l l' Hy Hl].
    + intros [= <-]. eauto.
    + apply IH.
Qed.

Lemma drop_oldest_last gen threshold msgs :
  last (drop_oldest gen threshold msgs) = last msgs.
Proof.
  induction msgs as [|m [|m2 rest] IH]; simpl; try reflexivity.
  destruct (threshold <? _)%Z; [exact IH|reflexivity].
Qed.

Lemma drop_oldest_budget gen threshold msgs :
  (2 <= length (drop_oldest gen threshold msgs))%nat ->
  (_tokens_in gen (drop_oldest gen threshold msgs) <= threshold)%Z.
Proof.
  induction msgs as [|m [|m2 rest] IH]; simpl; try lia.
  destruct (threshold <? _tokens_in gen (m :: m2 :: rest))%Z eqn:E.
  - exact IH.
  - intros _. now apply Z.ltb_ge in E.
Qed.

(** *** What a flush writes *)

(** The row that [flush_to_db] writes for an entry: the entry's role,
    content, payload and time, under the entry's own id when it has one. *)
Definition stored_as (m : Entry) (row : Message) : Prop :=
  message_role row = role m /\ message_content row = content m /\
  message_context row = context m /\
  message_created_at row = created_at m /\
  (forall i, entry_id m = Some i -> message_id row = i).

(** The entries that are not yet marked as persisted, in transcript order. *)
Definition unpersisted (msgs : list Entry) : list Entry :=
  List.filter (fun m => negb (persisted m)) msgs.

(** An entry after a flush: marked, otherwise the same; untouched when it
    was marked before. *)
Definition flushed (m m' : Entry) : Prop :=
  same_entry m m' /\ persisted m' = true /\ (persisted m = true -> m' = m).

Lemma unpersisted_cons (m : Entry) (msgs : list Entry) :
  unpersisted (m :: msgs) = unpersisted [m] ++ unpersisted msgs.
Proof. unfold unpersisted. simpl. now destruct (negb (persisted m)). Qed.

Lemma flush_entry_rows done conv db first m done' conv' db' :
  flush_entry (done, conv, db) first m = (done', conv', db') ->
  conv_id conv' = conv_id conv /\ title conv' = title conv /\
  token_budgeting_summary conv' = token_budgeting_summary conv /\
  store_up db' = store_up db /\ conversations db' = conversations db /\
  (persisted m = true -> conv' = conv /\ db' = db) /\
  exists m' rows,
    done' = done ++ [m'] /\ flushed m m' /\
    stored_messages db' = stored_messages db ++ rows /\
    Forall2 stored_as (unpersisted [m]) rows /\
    Forall (fun r => conversation_id r = conv_id conv) rows.
Proof.
  unfold flush_entry, unpersisted, flushed. simpl.
  destruct (persisted m) eqn:Ep.
  - intros [= <- <- <-]. repeat split; try reflexivity.
    exists m, []. rewrite app_nil_r. repeat split; auto; constructor.
  - destruct (entry_id m) as [i|] eqn:Ei;
      destruct (token_budgeting_message_id conv), first;
      intros [= <- <- <-]; simpl; repeat split; try reflexivity;
      try discriminate;
      eexists _, [_]; simpl;
      (split; [reflexivity|]);
      (split; [repeat split; simpl; (congruence || discriminate)|]);
      (split; [reflexivity|]);
      (split; [repeat constructor; simpl; congruence|]);
      repeat constructor.
Qed.

Lemma flush_entries_rows msgs : forall done conv db first done' conv' db',
  flush_entries (done, conv, db) first msgs = (done', conv', db') ->
  conv_id conv' = conv_id conv /\ title conv' = title conv /\
  token_budgeting_summary conv' = token_budgeting_summary conv /\
  store_up db' = store_up db /\ conversations db' = conversations db /\
  (Forall (fun m => persisted m = true) msgs -> conv' = conv /\ db' = db) /\
  exists msgs' rows,
    done' = done ++ msgs' /\ Forall2 flushed msgs msgs' /\
    stored_messages db' = stored_messages db ++ rows /\
    Forall2 stored_as (unpersisted msgs) rows /\
    Forall (fun r => conversation_id r = conv_id conv) rows.
Proof.
  induction msgs as [|m msgs IH]; intros done conv db first done' conv' db';
    cbn [flush_entries].
  - intros [= <- <- <-]. repeat split; try reflexivity.
    exists [], []. rewrite !app_nil_r. repeat split; auto; constructor.
  - destruct (flush_entry (done, conv, db) first m) as [[d1 c1] s1] eqn:E.
    apply flush_entry_rows in E
      as (Hc1 & Ht1 & Hs1 & Hu1 & Hv1 & Hid1 & m' & r1 & -> & Hp1 & Hr1 & Hf1
          & Hk1).
    intros H. apply IH in H
      as (Hc2 & Ht2 & Hs2 & Hu2 & Hv2 & Hid2 & ms & r2 & -> & Hp2 & Hr2 & Hf2
          & Hk2).
    repeat split; try congruence.
    + apply Forall_cons_1 in H as [Hm Hall].
      destruct (Hid1 Hm) as [-> ->]. now destruct (Hid2 Hall).
    + apply Forall_cons_1 in H as [Hm Hall].
      destruct (Hid1 Hm) as [-> ->]. now destruct (Hid2 Hall).
    + exists (m' :: ms), (r1 ++ r2). rewrite <- !app_assoc, unpersisted_cons.
      split; [reflexivity|]. split; [now constructor|].
      split; [now rewrite Hr2, Hr1, <- app_assoc|]. split.
      * now apply Forall2_app.
      * apply Forall_app. split; [exact Hk1|].
        eapply Forall_impl; [exact Hk2|]. simpl. intros r. congruence.
Qed.

Lemma flushed_persisted msgs msgs' :
  Forall2 flushed msgs msgs' -> Forall (fun m => persisted m = true) msgs'.
Proof.
  induction 1 as [|m m' l l' (_ & Hp & _) _ IH]; constructor; auto.
Qed.

Lemma flushed_fixed msgs msgs' :
  Forall2 flushed msgs msgs' -> Forall (fun m => persisted m = true) msgs ->
  msgs' = msgs.
Proof.
  induction 1 as [|m m' l l' (_ & _ & Hid) _ IH]; [reflexivity|].
  intros Hall. apply Forall_cons_1 in Hall as [Hm Hall].
  now rewrite (Hid Hm), (IH Hall).
Qed.

Lemma upsert_upsert (conv : Conversation) (rows : list Conversation) :
  upsert conv (upsert conv rows) = upsert conv rows.
Proof.
  unfold upsert. rewrite List.filter_app. simpl.
  rewrite bool_decide_eq_true_2 by reflexivity. simpl.
  rewrite app_nil_r. f_equal.
  induction rows as [|c rows IH]; [reflexivity|]. simpl.
  destruct (negb (bool_decide _)) eqn:E; simpl; [rewrite E|]; now rewrite IH.
Qed.

(** What one flush does, for the proofs below. *)
Lemma flush_to_db_rows self db self' db' :
  flush_to_db self db = (Ok (), (self', db')) ->
  store_up db' = true /\
  token_threshold self' = token_threshold self /\
  title (conversation self') = title (conversation self) /\
  token_budgeting_summary (conversation self')
  = token_budgeting_summary (conversation self) /\
  (exists cid, conv_id (conversation self') = Some cid /\
               (forall c, conv_id (conversation self) = Some c -> cid = c)) /\
  conversations db'
  = upsert (conversation self') (conversations db) /\
  Forall2 flushed (messages self) (messages self') /\
  (conv_id (conversation self) <> None ->
   Forall (fun m => persisted m = true) (messages self) ->
   conversation self' = conversation self /\
   generated db' = generated db) /\
  exists rows,
    stored_messages db' = stored_messages db ++ rows /\
    Forall2 stored_as (unpersisted (messages self)) rows /\
    Forall (fun row => conversation_id row = conv_id (conversation self'))
           rows.
Proof.
  unfold flush_to_db. destruct (store_up db) eqn:Eup; simpl; [|discriminate].
  destruct (conv_id (conversation self)) as [cid|] eqn:Ecid;
    match goal with
    | |- context [flush_entries ?a ?f ?l] =>
        destruct (flush_entries a f l) as [[ms c] d] eqn:E
    end;
    apply flush_entries_rows in E
      as (Hc & Ht & Hs & Hu & Hv & Hid & ms' & rows & E1 & Hfl & Hr & Hst & Hk);
    simpl in E1; subst ms; intros [= <- <-]; simpl in *.
  - split; [congruence|]. split; [reflexivity|]. split; [exact Ht|].
    split; [exact Hs|]. split.
    { exists cid. split; [congruence|]. intros c' [= <-]. reflexivity. }
    split; [now rewrite Hv|]. split; [exact Hfl|]. split.
    { intros _ Hall. destruct (Hid Hall) as [-> ->]. auto. }
    exists rows. split; [exact Hr|]. split; [exact Hst|].
    eapply Forall_impl; [exact Hk|]. simpl. intros r. congruence.
  - split; [congruence|]. split; [reflexivity|]. split; [exact Ht|].
    split; [exact Hs|]. split.
    { eexists. split; [rewrite Hc; reflexivity|]. discriminate. }
    split; [now rewrite Hv|]. split; [exact Hfl|]. split.
    { intros Hne. now contradiction Hne. }
    exists rows. split; [exact Hr|]. split; [exact Hst|].
    eapply Forall_impl; [exact Hk|]. simpl. intros r. congruence.
Qed.

(** X14.  A successful [flush_to_db] writes one row for every entry that
    was not yet marked as persisted, in transcript order, with the entry's
    role, content, payload, time and id, all under the conversation's id;
    it writes no row for an entry already marked; afterwards every entry
    is marked, and otherwise unchanged. *)
Theorem flush_to_db_stores_unpersisted (self self' : ChatHistory)
    (db db' : Store) :
  flush_to_db self db = (Ok (), (self', db')) ->
  Forall2 flushed (messages self) (messages self') /\
  exists rows,
    stored_messages db' = stored_messages db ++ rows /\
    Forall2 stored_as (unpersisted (messages self)) rows /\
    Forall (fun row => conversation_id row = conv_id (conversation self'))
           rows /\
    conv_id (conversation self') <> None.
Proof.
  intros H. apply flush_to_db_rows in H
    as (_ & _ & _ & _ & (cid & Hcid & _) & _ & Hfl & _ & rows & Hr & Hs & Hk).
  split; [exact Hfl|]. exists rows. repeat split; auto. congruence.
Qed.

(** X15.  [flush_to_db] is idempotent: a second flush right after a
    successful one changes neither the transcript nor the store, so no
    message is stored twice. *)
Theorem flush_to_db_idempotent (self self' : ChatHistory) (db db' : Store) :
  flush_to_db self db = (Ok (), (self', db')) ->
  flush_to_db self' db' = (Ok (), (self', db')).
Proof.
  intros H. pose proof (flush_to_db_rows _ _ _ _ H)
    as (Hup & _ & _ & _ & (cid & Hcid & _) & Hconv & Hfl & _).
  apply flushed_persisted in Hfl.
  unfold flush_to_db. rewrite Hup, Hcid. simpl.
  destruct (flush_entries ([], conversation self', db') true (messages self'))
    as [[ms c] d] eqn:E.
  apply flush_entries_rows in E
    as (_ & _ & _ & _ & _ & Hid & ms' & rows & E1 & Hfl' & _).
  destruct (Hid Hfl) as [-> ->]. simpl in E1. subst ms.
  rewrite (flushed_fixed _ _ Hfl' Hfl).
  rewrite Hconv, upsert_upsert, <- Hconv.
  destruct self', db'. reflexivity.
Qed.

Lemma drop_oldest_suffix gen threshold msgs :
  exists dropped, msgs = dropped ++ drop_oldest gen threshold msgs.
Proof.
  induction msgs as [|m [|m2 rest] IH]; simpl.
  - now exists [].
  - now exists [].
  - destruct (threshold <? _)%Z; [|now exists []].
    destruct IH as [dropped IH]. exists (m :: dropped). simpl. now f_equal.
Qed.

Section Prompt.

(** [CONVERSATION_SUMMARIZER_PROMPT.format(conversation_history=...)] *)
Variable CONVERSATION_SUMMARIZER_PROMPT : string -> string.

Definition maybe_summarise (gen : Generator) (self : ChatHistory) (db : Store)
  : result unit * (ChatHistory * Store) :=
  if (token_count gen self <? token_threshold self)%Z then (Ok (), (self, db))
  else
    let prompt := CONVERSATION_SUMMARIZER_PROMPT (_history_as_plain self) in
    match invoke gen prompt with
    | Raise e => (Raise e, (self, db))
    | Ok summary_text =>
        match flush_to_db self db with
        | (Raise e, st) => (Raise e, st)
        | (Ok _, (self, db)) =>
            let kept := drop_oldest gen (token_threshold self) (messages self) in
            let conv summary first_id :=
              {| conv_id := conv_id (conversation self);
                 title := title (conversation self);
                 token_budgeting_summary := summary;
                 token_budgeting_message_id := first_id |} in
            match kept with
            | [] =>
                (Raise (IndexError "deque index out of range"),
                 ({| conversation :=
                       conv (Some summary_text)
                            (token_budgeting_message_id (conversation self));
                     token_threshold := token_threshold self;
                     messages := kept |}, db))
            | first_msg :: _ =>
                flush_to_db
                  {| conversation := conv (Some summary_text) (db_id first_msg);
                     token_threshold := token_threshold self;
                     messages := kept |} db
            end
        end
    end.

(** C4.  When [maybe_summarise] returns, the entry that was the most recent
    one before the call is still the last entry of the transcript, and a
    transcript of two or more entries counts at most [token_threshold]
    tokens.  The token count is the one [token_count] computes: the
    service's count, or the word count when the service fails; the service
    answers alike for equal messages. *)
Theorem maybe_summarise_keeps_latest (gen : Generator) (self self' : ChatHistory)
    (db db' : Store) :
  maybe_summarise gen self db = (Ok (), (self', db')) ->
  (forall m, last (messages self) = Some m ->
             exists m', last (messages self') = Some m' /\ same_entry m m') /\
  ((2 <= length (messages self'))%nat ->
   (token_count gen self' <= token_threshold self)%Z).
Proof.
  unfold maybe_summarise.
  destruct (token_count gen self <? token_threshold self)%Z eqn:Eearly.
  - intros [= <- <-]. split.
    + intros m Hm. exists m. split; [exact Hm|apply same_entry_refl].
    + intros _. apply Z.ltb_lt in Eearly. lia.
  - destruct (invoke gen _) as [summary_text|e]; [|discriminate].
    destruct (flush_to_db self db) as [[[]|e] [self1 db1]] eqn:F1;
      [|discriminate].
    apply flush_to_db_spec in F1 as [Hsame1 Hthr1].
    set (kept := drop_oldest gen (token_threshold self1) (messages self1)).
    pose proof (drop_oldest_last gen (token_threshold self1) (messages self1))
      as Hlast.
    pose proof (drop_oldest_budget gen (token_threshold self1) (messages self1))
      as Hbudget.
    fold kept in Hlast, Hbudget.
    destruct kept as [|first_msg kept'] eqn:Ek; [discriminate|].
    intros F2. apply flush_to_db_spec in F2 as [Hsame2 _]. simpl in Hsame2.
    split.
    + intros m Hm.
      destruct (same_entries_last _ _ m Hsame1 Hm) as (m1 & Hm1 & Hs1).
      rewrite <- Hlast in Hm1.
      destruct (same_entries_last _ _ m1 Hsame2 Hm1) as (m2 & Hm2 & Hs2).
      exists m2. split; [exact Hm2|]. eapply same_entry_trans; eauto.
    + intros Hlen. unfold token_count.
      rewrite (same_entries_tokens gen _ _ Hsame2).
      rewrite <- Hthr1. apply Hbudget.
      now rewrite (Forall2_length _ _ _ Hsame2).
Qed.

Lemma flush_to_db_ok self db :
  store_up db = true ->
  exists self' db', flush_to_db self db = (Ok (), (self', db')).
Proof.
  intros Hup. unfold flush_to_db. rewrite Hup. simpl.
  destruct (conv_id (conversation self));
    match goal with
    | |- context [flush_entries ?a ?f ?l] =>
        destruct (flush_entries a f l) as [[ms c] d]
    end; eauto.
Qed.

Lemma flush_to_db_raises self db e st :
  flush_to_db self db = (Raise e, st) -> st = (self, db).
Proof.
  unfold flush_to_db. destruct (negb (store_up db)); [now intros [= _ <-]|].
  destruct (conv_id (conversation self));
    match goal with
    | |- context [flush_entries ?a ?f ?l] =>
        destruct (flush_entries a f l) as [[ms c] d]
    end; discriminate.
Qed.

(** What [maybe_summarise] never touches: the title and the budget; and,
    when it returns, the latest entry stays the latest. *)
Lemma maybe_summarise_frame gen self db r self' db' :
  maybe_summarise gen self db = (r, (self', db')) ->
  title (conversation self') = title (conversation self) /\
  token_threshold self' = token_threshold self /\
  (r = Ok () ->
   forall m, last (messages self) = Some m ->
             exists m', last (messages self') = Some m' /\ same_entry m m').
Proof.
  unfold maybe_summarise.
  destruct (token_count gen self <? token_threshold self)%Z.
  { intros [= <- <- <-]. repeat split. intros _ m Hm. exists m.
    split; [exact Hm|apply same_entry_refl]. }
  destruct (invoke gen _) as [summary_text|e].
  2:{ intros [= <- <- <-]. repeat split. discriminate. }
  destruct (flush_to_db self db) as [[[]|e] [self1 db1]] eqn:F1.
  2:{ apply flush_to_db_raises in F1 as [= -> ->].
      intros [= <- <- <-]. repeat split. discriminate. }
  pose proof (flush_to_db_spec _ _ _ _ F1) as [Hsame1 Hthr1].
  apply flush_to_db_rows in F1 as (_ & _ & Ht1 & _).
  pose proof (drop_oldest_last gen (token_threshold self1) (messages self1))
    as Hlast.
  destruct (drop_oldest gen (token_threshold self1) (messages self1))
    as [|first_msg kept'] eqn:Ek.
  { intros [= <- <- <-]. simpl. repeat split; auto. discriminate. }
  match goal with
  | |- flush_to_db ?h ?d = _ -> _ =>
      destruct (flush_to_db h d) as [[[]|e] [self2 db2]] eqn:F2
  end.
  2:{ apply flush_to_db_raises in F2 as [= -> ->].
      intros [= <- <- <-]. simpl. repeat split; auto. discriminate. }
  pose proof (flush_to_db_spec _ _ _ _ F2) as [Hsame2 Hthr2].
  apply flush_to_db_rows in F2 as (_ & _ & Ht2 & _).
  simpl in Hsame2, Hthr2, Ht2.
  intros [= <- <- <-]. split; [congruence|]. split; [congruence|].
  intros _ m Hm.
  destruct (same_entries_last _ _ m Hsame1 Hm) as (m1 & Hm1 & Hs1).
  rewrite <- Hlast in Hm1.
  destruct (same_entries_last _ _ m1 Hsame2 Hm1) as (m2 & Hm2 & Hs2).
  exists m2. split; [exact Hm2|]. eapply same_entry_trans; eauto.
Qed.

(** X16.  When [maybe_summarise] finds the budget reached and returns,
    the summary it asked for is recorded on the conversation together with
    the store id of the oldest entry kept; the entries dropped are the
    oldest ones; and every entry of the transcript that was not yet
    persisted, dropped or kept, has its row in the store: nothing is
    dropped before it is stored. *)
Theorem maybe_summarise_records_summary (gen : Generator)
    (self self' : ChatHistory) (db db' : Store) :
  (token_threshold self <= token_count gen self)%Z ->
  maybe_summarise gen self db = (Ok (), (self', db')) ->
  exists summary_text dropped first rows,
    invoke gen (CONVERSATION_SUMMARIZER_PROMPT (_history_as_plain self))
    = Ok summary_text /\
    token_budgeting_summary (conversation self') = Some summary_text /\
    Forall2 flushed (messages self) (dropped ++ messages self') /\
    head (messages self') = Some first /\
    token_budgeting_message_id (conversation self') = db_id first /\
    stored_messages db' = stored_messages db ++ rows /\
    Forall2 stored_as (unpersisted (messages self)) rows.
Proof.
  intros Hfull. unfold maybe_summarise.
  destruct (token_count gen self <? token_threshold self)%Z eqn:Eearly;
    [apply Z.ltb_lt in Eearly; lia|].
  destruct (invoke gen _) as [summary_text|e]; [|discriminate].
  destruct (flush_to_db self db) as [[[]|e] [self1 db1]] eqn:F1;
    [|discriminate].
  apply flush_to_db_rows in F1
    as (_ & _ & _ & _ & (cid & Hcid & _) & _ & Hfl1 & _ & rows & Hr1 & Hs1 & _).
  destruct (drop_oldest_suffix gen (token_threshold self1) (messages self1))
    as [dropped Hdropped].
  destruct (drop_oldest gen (token_threshold self1) (messages self1))
    as [|first_msg kept'] eqn:Ek; [discriminate|].
  intros F2. apply flush_to_db_rows in F2
    as (_ & _ & _ & _ & _ & _ & Hfl2 & Hsame & rows2 & Hr2 & Hs2 & _).
  cbn [messages conversation conv_id] in Hfl2, Hsame, Hs2.
  assert (Forall (fun m => persisted m = true) (first_msg :: kept')) as Hkept.
  { apply flushed_persisted in Hfl1. rewrite Hdropped in Hfl1.
    now apply Forall_app in Hfl1 as [_ Hfl1]. }
  pose proof (flushed_fixed _ _ Hfl2 Hkept) as Hmsgs.
  destruct Hsame as [Hconv _]; [now rewrite Hcid|exact Hkept|].
  assert (rows2 = []) as ->.
  { assert (unpersisted (first_msg :: kept') = []) as E.
    { clear -Hkept. unfold unpersisted.
      induction Hkept as [|m l Hm _ IH]; [reflexivity|].
      simpl. now rewrite Hm. }
    rewrite E in Hs2. now apply Forall2_nil_inv_l in Hs2. }
  exists summary_text, dropped, first_msg, rows.
  split; [reflexivity|]. rewrite Hconv, Hmsgs. simpl.
  split; [reflexivity|]. split; [now rewrite <- Hdropped|].
  split; [reflexivity|]. split; [reflexivity|].
  split; [now rewrite Hr2, app_nil_r|exact Hs1].
Qed.

End Prompt.

(** *** Loading a stored conversation *)

(** The item [_load_existing] builds for a stored message: no ["id"] key,
    marked as persisted, [db_id] the row's id. *)
Definition loaded_entry (msg : Message) : Entry :=
  {| entry_id := None; role := message_role msg;
     content := message_content msg; context := message_context msg;
     created_at := message_created_at msg; persisted := true;
     db_id := Some (message_id msg) |}.

(** [for msg in query] on [reverse_acc]: the loop ends behind the message
    that exceeds the budget, which is taken back, or behind the message the
    conversation names as its cut-off.  Message ids are UUID values, which
    are never falsy. *)
Fixpoint load_rows (gen : Generator) (threshold : Z) (cutoff : option string)
    (reverse_acc : list Entry) (query : list Message) : list Entry :=
  match query with
  | [] => reverse_acc
  | msg :: rest =>
      let appended := reverse_acc ++ [loaded_entry msg] in
      if (threshold <? _tokens_in gen appended)%Z then reverse_acc
      else if bool_decide (cutoff = Some (message_id msg)) then appended
      else load_rows gen threshold cutoff appended rest
  end.

(** The entry injected for an earlier summary that is not empty;
    [updated_at] is the conversation row's [updated_at]. *)
Definition summary_entries (conv : Conversation) (updated_at : Z) : list Entry :=
  match token_budgeting_summary conv with
  | Some summary =>
      if nonempty summary then
        [ {| entry_id := None; role := "system";
             content := "(earlier summary) " +:+ summary;
             context := "{'token_budget': True}"; created_at := updated_at;
             persisted := true; db_id := None |} ]
      else []
  | None => []
  end.

(** [_load_existing]; [query] is what the query yields, the rows of the
    conversation by [created_at], latest first. *)
Definition _load_existing (gen : Generator) (self : ChatHistory)
    (updated_at : Z) (query : list Message) : ChatHistory :=
  let reverse_acc :=
    load_rows gen (token_threshold self)
              (token_budgeting_message_id (conversation self)) [] query in
  let msgs :=
    (messages self ++ summary_entries (conversation self) updated_at)
    ++ rev reverse_acc in
  {| conversation := conversation self;
     token_threshold := token_threshold self;
     messages := drop_oldest gen (token_threshold self) msgs |}.

Lemma load_rows_prefix gen threshold cutoff (query : list Message) :
  forall reverse_acc,
  exists n,
    load_rows gen threshold cutoff reverse_acc query
    = reverse_acc ++ map loaded_entry (take n query) /\
    forall i msg, query !! i = Some msg -> cutoff = Some (message_id msg) ->
                  (n <= S i)%nat.
Proof.
  induction query as [|msg rest IH]; intros acc; simpl.
  - exists O. rewrite app_nil_r. split; [reflexivity|]. intros i m. discriminate.
  - destruct (threshold <? _)%Z.
    + exists O. rewrite app_nil_r. split; [reflexivity|]. intros; lia.
    + destruct (bool_decide (cutoff = Some (message_id msg))) eqn:Ec.
      * exists 1%nat. split; [reflexivity|]. intros; lia.
      * destruct (IH (acc ++ [loaded_entry msg])) as (n & -> & Hn).
        exists (S n). split; [now rewrite <- app_assoc|].
        intros [|i] m Hm Hcut; simpl in Hm.
        -- injection Hm as <-. apply bool_decide_eq_false in Ec. contradiction.
        -- specialize (Hn i m Hm Hcut). lia.
Qed.

Lemma unpersisted_none (msgs : list Entry) :
  Forall (fun m => persisted m = true) msgs -> unpersisted msgs = [].
Proof.
  unfold unpersisted. induction 1 as [|m l Hm _ IH]; [reflexivity|].
  simpl. now rewrite Hm.
Qed.

(** X17.  [_load_existing] on a fresh history loads a run of the latest
    rows of the query and puts them in the reverse of the query's order,
    behind the earlier summary if there is one; it loads no row beyond the
    conversation's cut-off message; oldest entries are dropped until the
    transcript is within the budget or one entry long; and every entry is
    marked as persisted, so that a flush right after loading writes no
    message row. *)
Theorem load_existing_loads_latest_rows (gen : Generator) (self : ChatHistory)
    (updated_at : Z) (query : list Message) :
  messages self = [] ->
  exists n k,
    messages (_load_existing gen self updated_at query)
    = drop k (summary_entries (conversation self) updated_at
              ++ rev (map loaded_entry (take n query))) /\
    (forall i msg,
        query !! i = Some msg ->
        token_budgeting_message_id (conversation self)
        = Some (message_id msg) ->
        (n <= S i)%nat) /\
    ((2 <= length (messages (_load_existing gen self updated_at query)))%nat ->
     (token_count gen (_load_existing gen self updated_at query)
      <= token_threshold self)%Z) /\
    Forall (fun m => persisted m = true)
           (messages (_load_existing gen self updated_at query)) /\
    forall db h' db',
      flush_to_db (_load_existing gen self updated_at query) db
      = (Ok (), (h', db')) ->
      stored_messages db' = stored_messages db.
Proof.
  intros Hempty. unfold _load_existing, token_count. rewrite Hempty. simpl.
  destruct (load_rows_prefix gen (token_threshold self)
              (token_budgeting_message_id (conversation self)) query [])
    as (n & -> & Hn).
  simpl. set (msgs := summary_entries _ _ ++ rev _).
  destruct (drop_oldest_suffix gen (token_threshold self) msgs)
    as [dropped Hd].
  assert (Forall (fun m => persisted m = true)
                 (drop_oldest gen (token_threshold self) msgs)) as Hall.
  { assert (Forall (fun m => persisted m = true) msgs) as Hm.
    { unfold msgs. apply Forall_app. split.
      - unfold summary_entries.
        destruct (token_budgeting_summary _) as [s0|]; [|constructor].
        destruct (nonempty s0); repeat constructor.
      - apply List.Forall_forall. intros m Hin. apply in_rev in Hin.
        apply in_map_iff in Hin as (msg & <- & _). reflexivity. }
    rewrite Hd in Hm. now apply Forall_app in Hm as [_ Hm]. }
  exists n, (length dropped). split; [|split; [exact Hn|split; [|split]]].
  - transitivity (drop (length dropped) msgs); [|reflexivity].
    rewrite Hd at 2. now rewrite drop_app_length.
  - apply drop_oldest_budget.
  - exact Hall.
  - intros db h' db' F. apply flush_to_db_rows in F
      as (_ & _ & _ & _ & _ & _ & _ & _ & rows & -> & Hs & _).
    cbn [messages] in Hs. rewrite (unpersisted_none _ Hall) in Hs.
    apply Forall2_nil_inv_l in Hs as ->. now rewrite app_nil_r.
Qed.

(** A run: the service counts ten tokens a message, the budget is 25, the
    transcript has four entries. *)
Definition demo_generator : Generator :=
  {| invoke := fun _ => Ok "a summary";
     invoke_stream := fun _ => ([], None);
     chat_completion := fun _ => Ok "";
     count_conversation_tokens :=
       fun msgs => Ok (10 * Z.of_nat (length msgs))%Z |}.

Definition demo_entry (i text : string) : Entry :=
  {| entry_id := Some i; role := "user"; content := text; context := "";
     created_at := 0; persisted := false; db_id := None |}.

Definition demo_history : ChatHistory :=
  {| conversation :=
       {| conv_id := None; title := None; token_budgeting_summary := None;
          token_budgeting_message_id := None |};
     token_threshold := 25;
     messages := [demo_entry "m1" "one"; demo_entry "m2" "two";
                  demo_entry "m3" "three"; demo_entry "m4" "four"] |}.

Definition demo_store : Store :=
  {| store_up := true; conversations := []; stored_messages := [];
     generated := 0 |}.

Lemma maybe_summarise_keeps_latest_witness :
  exists self' db',
    maybe_summarise (fun h => h) demo_generator demo_history demo_store
    = (Ok (), (self', db')) /\
    map content (messages self') = ["three"; "four"] /\
    (token_count demo_generator self' <= 25)%Z.
Proof.
  eexists _, _. split; [vm_compute; reflexivity|]. split; [reflexivity|].
  refine (proj2 (maybe_summarise_keeps_latest (fun h => h) demo_generator
                   demo_history _ demo_store _ _) _).
  - vm_compute; reflexivity.
  - simpl; lia.
Defined.

Lemma flush_to_db_stores_unpersisted_witness :
  exists self' db',
    flush_to_db demo_history demo_store = (Ok (), (self', db')) /\
    map message_content (stored_messages db') = ["one"; "two"; "three"; "four"] /\
    Forall2 flushed (messages demo_history) (messages self').
Proof.
  eexists _, _. split; [vm_compute; reflexivity|]. split; [reflexivity|].
  refine (proj1 (flush_to_db_stores_unpersisted demo_history _ demo_store _ _)).
  vm_compute; reflexivity.
Defined.

Lemma flush_to_db_idempotent_witness :
  exists self' db',
    flush_to_db demo_history demo_store = (Ok (), (self', db')) /\
    flush_to_db self' db' = (Ok (), (self', db')).
Proof.
  eexists _, _. split; [vm_compute; reflexivity|].
  apply (flush_to_db_idempotent demo_history _ demo_store _).
  vm_compute; reflexivity.
Defined.

Lemma maybe_summarise_records_summary_witness :
  exists self' db',
    maybe_summarise (fun h => h) demo_generator demo_history demo_store
    = (Ok (), (self', db')) /\
    token_budgeting_summary (conversation self') = Some "a summary" /\
    token_budgeting_message_id (conversation self') = Some "m3" /\
    map message_content (stored_messages db') = ["one"; "two"; "three"; "four"] /\
    exists summary_text dropped first rows,
      invoke demo_generator (_history_as_plain demo_history) = Ok summary_text /\
      token_budgeting_summary (conversation self') = Some summary_text /\
      Forall2 flushed (messages demo_history) (dropped ++ messages self') /\
      head (messages self') = Some first /\
      token_budgeting_message_id (conversation self') = db_id first /\
      stored_messages db' = stored_messages demo_store ++ rows /\
      Forall2 stored_as (unpersisted (messages demo_history)) rows.
Proof.
  eexists _, _. split; [vm_compute; reflexivity|].
  split; [reflexivity|]. split; [reflexivity|]. split; [reflexivity|].
  apply (maybe_summarise_records_summary (fun h => h) demo_generator
           demo_history _ demo_store _).
  - vm_compute; discriminate.
  - vm_compute; reflexivity.
Defined.

(** A stored conversation of three rows with a summary and the cut-off at
    the second row; the budget is 25 and the service counts ten tokens a
    message. *)
Definition stored_history : ChatHistory :=
  {| conversation :=
       {| conv_id := Some "c1"; title := Some "Leave";
          token_budgeting_summary := Some "old talk";
          token_budgeting_message_id := Some "r2" |};
     token_threshold := 25;
     messages := [] |}.

Definition stored_row (i text : string) (at_ : Z) : Message :=
  {| message_id := i; conversation_id := Some "c1"; message_role := "user";
     message_content := text; message_context := "";
     message_created_at := at_ |}.

Definition stored_rows : list Message :=
  [stored_row "r3" "three" 3; stored_row "r2" "two" 2; stored_row "r1" "one" 1].

Lemma load_existing_loads_latest_rows_witness :
  map content (messages (_load_existing demo_generator stored_history 9
                                        stored_rows))
  = ["two"; "three"] /\
  exists n k,
    messages (_load_existing demo_generator stored_history 9 stored_rows)
    = drop k (summary_entries (conversation stored_history) 9
              ++ rev (map loaded_entry (take n stored_rows))) /\
    (forall i msg,
        stored_rows !! i = Some msg ->
        token_budgeting_message_id (conversation stored_history)
        = Some (message_id msg) ->
        (n <= S i)%nat) /\
    ((2 <= length (messages (_load_existing demo_generator stored_history 9
                                            stored_rows)))%nat ->
     (token_count demo_generator
                  (_load_existing demo_generator stored_history 9 stored_rows)
      <= token_threshold stored_history)%Z) /\
    Forall (fun m => persisted m = true)
           (messages (_load_existing demo_generator stored_history 9
                                     stored_rows)) /\
    forall db h' db',
      flush_to_db (_load_existing demo_generator stored_history 9 stored_rows)
                  db
      = (Ok (), (h', db')) ->
      stored_messages db' = stored_messages db.
Proof.
  split; [reflexivity|].
  apply (load_existing_loads_latest_rows demo_generator stored_history 9
           stored_rows).
  reflexivity.
Defined.

End History.

(** * chatsystem/orchestrator.py *)

Module Orchestrator.

Import History.

Record ChatSystem : Type := {
  history : ChatHistory;
  _title_generated : bool;
  persistence : bool;
  is_voicechat_pipeline : bool
}.

(** What [receive] hands to the end of a turn: the user text and its time,
    the two message ids it drew, the rewritten query, the retrieval
    diagnostics (as text), and the time read when the turn is finalised. *)
Record Turn : Type := {
  user_text : string;
  user_ts : Z;
  user_msg_id : string;
  assistant_msg_id : string;
  rewritten_query : string;
  context_items : string;
  assistant_ts : Z
}.

(** One run of the generator [_stream_response], consumed to its end: the
    tokens yielded to the caller, the tokens passed to [on_token], how the
    iteration ended, and the state left behind. *)
Record StreamRun : Type := {
  yielded : list string;
  on_token_calls : list string;
  outcome : result unit;
  after : ChatSystem * Store
}.

Section Prompts.

Variable CONVERSATION_SUMMARIZER_PROMPT : string -> string.
Variable TITLE_PROMPT_PREFIX : Z -> string -> string -> string.

(** The payloads stored with the two entries: [{"rewritten_query": ...}] for
    the user entry, and [context_info] for the assistant entry, built from
    the retrieval diagnostics, the rewritten query and the token usage
    before and after (timings are left out). *)
Variable user_payload : string -> string.
Variable context_info : string -> string -> Z -> Z -> string.

(** [self.utils = ConversationUtils(self.generator)] *)
Definition utils (gen : Generator) : Summarizer.ConversationUtils :=
  {| Summarizer.generator := gen; Summarizer.max_tokens := 50 |}.

Definition with_history (self : ChatSystem) (h : ChatHistory) : ChatSystem :=
  {| history := h; _title_generated := _title_generated self;
     persistence := persistence self;
     is_voicechat_pipeline := is_voicechat_pipeline self |}.

Definition with_title (self : ChatSystem) (t : string) : ChatSystem :=
  let h := history self in
  let c := conversation h in
  {| history :=
       {| conversation :=
            {| conv_id := conv_id c; title := Some t;
               token_budgeting_summary := token_budgeting_summary c;
               token_budgeting_message_id := token_budgeting_message_id c |};
          token_threshold := token_threshold h; messages := messages h |};
     _title_generated := true;
     persistence := persistence self;
     is_voicechat_pipeline := is_voicechat_pipeline self |}.

Definition _finalise_turn (gen : Generator) (self : ChatSystem) (db : Store)
    (t : Turn) (assistant_reply : string) (aborted : bool)
  : result unit * (ChatSystem * Store) :=
  let h1 :=
    add (history self) "user" (user_text t) (user_msg_id t) (user_ts t)
        (if nonempty (rewritten_query t) then user_payload (rewritten_query t)
         else EmptyString) in
  let tokens_before := token_count gen h1 in
  let tokens_after :=
    token_count gen
      (add h1 "assistant" assistant_reply (assistant_msg_id t) (assistant_ts t)
           EmptyString) in
  let h2 :=
    add h1 "assistant" assistant_reply (assistant_msg_id t) (assistant_ts t)
        (context_info (context_items t) (rewritten_query t)
                      tokens_before tokens_after) in
  let self := with_history self h2 in
  let titled :=
    if negb (_title_generated self) && nonempty assistant_reply
       && negb (bool_decide (messages h2 = []))
    then
      title ← Summarizer.generate_title TITLE_PROMPT_PREFIX (utils gen)
                (user_text t) assistant_reply;
      Ok (with_title self title)
    else Ok self in
  match titled with
  | Raise e => (Raise e, (self, db))
  | Ok self =>
      if negb aborted then
        let '(r, (h, db)) :=
          maybe_summarise CONVERSATION_SUMMARIZER_PROMPT gen (history self) db in
        (r, (with_history self h, db))
      else (Ok (), (self, db))
  end.

(** The body of [for token in ...]: [token_acc.append(token); partial =
    "".join(token_acc)]. *)
Definition accumulate (acc : list string * string) (token : string)
  : list string * string :=
  let token_acc := fst acc ++ [token] in
  (token_acc, join_all token_acc).

Definition _stream_response (gen : Generator) (self : ChatSystem) (db : Store)
    (prompt_str : string) (t : Turn) (on_token : bool) : StreamRun :=
  let '(tokens, failure) := invoke_stream gen prompt_str in
  let '(token_acc, partial) := fold_left accumulate tokens ([], EmptyString) in
  let calls := if on_token then tokens else [] in
  match failure with
  | Some e =>
      let '(r, st) := _finalise_turn gen self db t partial true in
      {| yielded := tokens; on_token_calls := calls;
         outcome := match r with
                    | Ok _ => Raise (GenerationAborted partial)
                    | Raise e' => Raise e'
                    end;
         after := st |}
  | None =>
      let assistant_reply := join_all token_acc in
      let '(r, st) := _finalise_turn gen self db t assistant_reply false in
      {| yielded := tokens; on_token_calls := calls; outcome := r; after := st |}
  end.

Lemma fold_accumulate (tokens acc : list string) :
  fold_left accumulate tokens (acc, join_all acc)
  = (acc ++ tokens, join_all (acc ++ tokens)).
Proof.
  revert acc. induction tokens as [|tok tokens IH]; intros acc; simpl.
  - now rewrite app_nil_r.
  - unfold accumulate at 2. simpl. rewrite IH. now rewrite <- app_assoc.
Qed.

(** The title step of [_finalise_turn] for a reply, as a value. *)
Definition title_step (gen : Generator) (self : ChatSystem) (t : Turn)
    (assistant_reply : string) : result string :=
  if negb (_title_generated self) && nonempty assistant_reply
  then Summarizer.generate_title TITLE_PROMPT_PREFIX (utils gen) (user_text t)
         assistant_reply
  else Ok EmptyString.

Lemma finalise_aborted gen self db t reply :
  let '(r, (self', _)) := _finalise_turn gen self db t reply true in
  (exists ctx1 ctx2,
      messages (history self') =
      messages (history self) ++
      [ {| entry_id := Some (user_msg_id t); role := "user";
           content := user_text t; context := ctx1;
           created_at := user_ts t; persisted := false; db_id := None |};
        {| entry_id := Some (assistant_msg_id t); role := "assistant";
           content := reply; context := ctx2;
           created_at := assistant_ts t; persisted := false;
           db_id := None |} ]) /\
  r = (_ ← title_step gen self t reply; Ok ()).
Proof.
  unfold _finalise_turn, title_step.
  match goal with
  | |- context [bool_decide ?P] =>
      assert (bool_decide P = false) as ->
  end.
  { apply bool_decide_eq_false. simpl. rewrite <- app_assoc.
    intros H. now apply app_eq_nil in H as [_ [=]]. }
  simpl negb at 3. rewrite andb_true_r. simpl _title_generated.
  destruct (negb (_title_generated self) && nonempty reply).
  - destruct (Summarizer.generate_title _ _ _ _) as [title|e]; simpl.
    + split; [|reflexivity]. rewrite <- app_assoc. eauto.
    + split; [|reflexivity]. rewrite <- app_assoc. eauto.
  - simpl. split; [|reflexivity]. rewrite <- app_assoc. eauto.
Qed.

(** X18.  What the abort path of [_stream_response] does, for every stream
    that raises after yielding [tokens]: the turn is finalised with the
    concatenation of [tokens] as the reply and [aborted=True], so the
    transcript ends with the assistant entry of that content; the caller
    receives [GenerationAborted] with that text when the title step of the
    finalisation returns, and the exception of the title step otherwise. *)
Lemma stream_abort_finalised gen self db prompt t on_token tokens e :
  invoke_stream gen prompt = (tokens, Some e) ->
  let run := _stream_response gen self db prompt t on_token in
  yielded run = tokens /\
  after run = snd (_finalise_turn gen self db t (join_all tokens) true) /\
  (exists m, last (messages (history (fst (after run)))) = Some m /\
             role m = "assistant" /\ content m = join_all tokens) /\
  outcome run =
  match title_step gen self t (join_all tokens) with
  | Ok _ => Raise (GenerationAborted (join_all tokens))
  | Raise e' => Raise e'
  end.
Proof.
  intros Hs. unfold _stream_response. rewrite Hs.
  change ([], EmptyString) with (@nil string, join_all []).
  rewrite fold_accumulate. simpl app.
  pose proof (finalise_aborted gen self db t (join_all tokens)) as Hf.
  destruct (_finalise_turn gen self db t (join_all tokens) true)
    as [r [self' db']].
  destruct Hf as [(c1 & c2 & Hm) Hr]. simpl.
  split; [reflexivity|]. split; [reflexivity|]. split.
  - rewrite Hm. eexists. rewrite last_app. simpl. eauto.
  - rewrite Hr. now destruct (title_step gen self t (join_all tokens)).
Qed.

(** *** The end of a session and the whole turn *)

(** [ChatSystem.close] *)
Definition close (self : ChatSystem) (db : Store)
  : result unit * (ChatSystem * Store) :=
  if persistence self then
    let '(r, (h, db)) := flush_to_db (history self) db in
    (r, (with_history self h, db))
  else (Ok (), (self, db)).

Variable REWRITE_PROMPT_PREFIX : Z -> string -> string -> string.
Variables BASE_SYSTEM_PREAMBLE VOICE_SYSTEM_PREAMBLE : string.
Variable CONTEXT_BLOCK_TEMPLATE : string -> string.

(** An item of the list the retriever returns, as [receive] reads it: the
    chunk's id and text, and the four scores (as text). *)
Record Retrieved : Type := {
  chunk_id : string;
  chunk_text : string;
  chunk_scores : string
}.

(** [context_items], the diagnostics built from the retrieved items, as the
    text stored with the assistant entry. *)
Variable render_items : list Retrieved -> string.

(** What [receive] reads from outside the chat system: the clock when the
    turn starts and when it is finalised, and the two ids it draws. *)
Record TurnInput : Type := {
  user_now : Z;
  assistant_now : Z;
  user_uuid : string;
  assistant_uuid : string
}.

Definition nl : string := String newline EmptyString.

(** Step 1 of [receive]: the query sent to the retriever, and the prompts
    sent to the generation service to obtain it. *)
Definition rewritten_query_of (gen : Generator) (self : ChatSystem)
    (user_text : string) : result string * list string :=
  match messages (history self) with
  | [] => (Ok user_text, [])
  | _ :: _ =>
      Summarizer.rewrite REWRITE_PROMPT_PREFIX (utils gen) user_text
                         (to_openai_format (history self))
  end.

(** Step 3 of [receive]: the Qwen-style prompt. *)
Definition build_prompt (self : ChatSystem) (context_text user_text : string)
  : string :=
  let system_preamble :=
    (if is_voicechat_pipeline self then VOICE_SYSTEM_PREAMBLE
     else BASE_SYSTEM_PREAMBLE)
    +:+ (if nonempty context_text then CONTEXT_BLOCK_TEMPLATE context_text
         else EmptyString) in
  let prompt_parts :=
    ["<|im_start|>system" +:+ nl +:+ system_preamble +:+ nl +:+ "<|im_end|>"]
    ++ map (fun msg => "<|im_start|>" +:+ fst msg +:+ nl +:+ snd msg +:+ nl
                       +:+ "<|im_end|>")
           (to_openai_format (history self))
    ++ ["<|im_start|>user" +:+ nl +:+ user_text +:+ nl +:+ "<|im_end|>";
        "<|im_start|>assistant" +:+ nl] in
  join_with nl prompt_parts.

(** What [receive] returns: the reply, or the token generator, here with
    the run that consuming it makes. *)
Inductive Reply : Type :=
| Text (assistant_reply : string)
| Tokens (run : StreamRun).

(** [ChatSystem.receive]: the value returned (with the ids when
    [include_ids] is set) or the exception raised, and the state left
    behind; for [stream=True] the state is the one left by consuming the
    generator.  Timings are left out. *)
Definition receive (gen : Generator)
    (retriever : string -> result (list Retrieved))
    (self : ChatSystem) (db : Store) (input : TurnInput) (user_text : string)
    (stream on_token include_ids : bool)
  : result (Reply * option (string * string)) * (ChatSystem * Store) :=
  match fst (rewritten_query_of gen self user_text) with
  | Raise e => (Raise e, (self, db))
  | Ok rewritten_query =>
      match retriever rewritten_query with
      | Raise e => (Raise e, (self, db))
      | Ok context_chunks =>
          let context_text :=
            join_with (nl +:+ nl) (map chunk_text context_chunks) in
          let prompt_str := build_prompt self context_text user_text in
          let t :=
            {| user_text := user_text; user_ts := user_now input;
               user_msg_id := user_uuid input;
               assistant_msg_id := assistant_uuid input;
               rewritten_query := rewritten_query;
               context_items := render_items context_chunks;
               assistant_ts := assistant_now input |} in
          let ids :=
            if include_ids
            then Some (user_uuid input, assistant_uuid input) else None in
          if stream then
            let run := _stream_response gen self db prompt_str t on_token in
            (Ok (Tokens run, ids), after run)
          else
            match invoke gen prompt_str with
            | Raise e => (Raise e, (self, db))
            | Ok assistant_reply =>
                match _finalise_turn gen self db t assistant_reply false with
                | (Raise e, st) => (Raise e, st)
                | (Ok _, st) => (Ok (Text assistant_reply, ids), st)
                end
            end
      end
  end.

(** What [_finalise_turn] keeps, and what it leaves when it returns. *)
Lemma finalise_turn_frame gen self db t reply aborted r self' db' :
  _finalise_turn gen self db t reply aborted = (r, (self', db')) ->
  persistence self' = persistence self /\
  (_title_generated self = true ->
   _title_generated self' = true /\
   title (conversation (history self')) = title (conversation (history self)))
  /\
  (aborted = true -> db' = db) /\
  (r = Ok () ->
   exists m, last (messages (history self')) = Some m /\
             entry_id m = Some (assistant_msg_id t) /\
             role m = "assistant" /\ content m = reply).
Proof.
  unfold _finalise_turn.
  set (h1 := add (history self) "user" (user_text t) (user_msg_id t)
                 (user_ts t) _).
  set (h2 := add h1 "assistant" reply (assistant_msg_id t) (assistant_ts t) _).
  assert (exists m, last (messages h2) = Some m /\
                    entry_id m = Some (assistant_msg_id t) /\
                    role m = "assistant" /\ content m = reply) as Hlast.
  { unfold h2. simpl. eexists. rewrite last_app. simpl. eauto. }
  assert (title (conversation h2) = title (conversation (history self)))
    as Hh2 by reflexivity.
  destruct (negb (_title_generated (with_history self h2)) && nonempty reply
            && negb (bool_decide (messages h2 = []))) eqn:Etitle.
  - assert (_title_generated self = false) as Hnot.
    { simpl in Etitle. now destruct (_title_generated self). }
    destruct (Summarizer.generate_title _ _ _ _) as [new_title|e]; simpl.
    + destruct aborted; simpl.
      * intros [= <- <- <-]. simpl.
        split; [reflexivity|]. split; [congruence|].
        split; [reflexivity|]. intros _. exact Hlast.
      * destruct (maybe_summarise _ gen _ db) as [r0 [h db0]] eqn:Ems.
        intros [= <- <- <-]. simpl.
        apply maybe_summarise_frame in Ems as (Ht & _ & Hl).
        split; [reflexivity|]. split; [congruence|].
        split; [discriminate|].
        intros ->. destruct Hlast as (m & Hm & Hid & Hr & Hc).
        destruct (Hl eq_refl m Hm) as (m' & Hm' & Hi' & Hr' & Hc' & _).
        exists m'. split; [exact Hm'|]. repeat split; congruence.
    + intros [= <- <- <-]. simpl.
      split; [reflexivity|]. split; [congruence|].
      split; [reflexivity|]. discriminate.
  - simpl. destruct aborted; simpl.
    + intros [= <- <- <-]. simpl.
      split; [reflexivity|]. split; [auto|].
      split; [reflexivity|]. intros _. exact Hlast.
    + destruct (maybe_summarise _ gen _ db) as [r0 [h db0]] eqn:Ems.
      intros [= <- <- <-]. simpl.
      apply maybe_summarise_frame in Ems as (Ht & _ & Hl).
      split; [reflexivity|].
      split; [intros Hg; split; [exact Hg|congruence]|].
      split; [discriminate|].
      intros ->. destruct Hlast as (m & Hm & Hid & Hr & Hc).
      destruct (Hl eq_refl m Hm) as (m' & Hm' & Hi' & Hr' & Hc' & _).
      exists m'. split; [exact Hm'|]. repeat split; congruence.
Qed.

Lemma unpersisted_app (l1 l2 : list Entry) :
  unpersisted (l1 ++ l2) = unpersisted l1 ++ unpersisted l2.
Proof. unfold unpersisted. apply List.filter_app. Qed.

(** X19.  An aborted stream writes nothing to the store: the partial reply
    is kept in the transcript only.  It is stored when the session is
    closed: with persistence on and the store up, [close] right after the
    abort writes the row of the assistant message last, under the id drawn
    for it, with the concatenation of the yielded tokens as its content. *)
Theorem aborted_turn_is_stored_on_close (gen : Generator) (self : ChatSystem)
    (db : Store) (prompt : string) (t : Turn) (on_token : bool)
    (tokens : list string) (e : exn) :
  invoke_stream gen prompt = (tokens, Some e) ->
  persistence self = true ->
  store_up db = true ->
  let run := _stream_response gen self db prompt t on_token in
  snd (after run) = db /\
  exists self' db' rows row,
    close (fst (after run)) db = (Ok (), (self', db')) /\
    stored_messages db' = stored_messages db ++ rows /\
    last rows = Some row /\
    message_id row = assistant_msg_id t /\
    message_role row = "assistant" /\
    message_content row = join_all tokens.
Proof.
  intros Hs Hp Hup. unfold _stream_response. rewrite Hs.
  change ([], EmptyString) with (@nil string, join_all []).
  rewrite fold_accumulate. simpl app.
  pose proof (finalise_aborted gen self db t (join_all tokens)) as Hf.
  destruct (_finalise_turn gen self db t (join_all tokens) true)
    as [r [self1 db1]] eqn:Ef.
  destruct Hf as [(c1 & c2 & Hm) _].
  apply finalise_turn_frame in Ef as (Hpers & _ & Hdb & _).
  specialize (Hdb eq_refl). subst db1. simpl. split; [reflexivity|].
  unfold close. rewrite Hpers, Hp.
  destruct (flush_to_db_ok (history self1) db Hup) as (h' & db' & F).
  rewrite F. pose proof (flush_to_db_rows _ _ _ _ F)
    as (_ & _ & _ & _ & _ & _ & _ & _ & rows & Hr & Hst & _).
  rewrite Hm, unpersisted_app in Hst.
  apply Forall2_app_inv_l in Hst as (r1 & r2 & _ & Hst & ->).
  unfold unpersisted in Hst. simpl in Hst.
  apply Forall2_cons_inv_l in Hst as (ru & r2' & _ & Hst & ->).
  apply Forall2_cons_inv_l in Hst as (ra & r2'' & Ha & Hst & ->).
  apply Forall2_nil_inv_l in Hst as ->.
  destruct Ha as (Hrole & Hcontent & _ & _ & Hid).
  exists (with_history self1 h'), db', (r1 ++ [ru; ra]), ra.
  split; [reflexivity|]. split; [exact Hr|]. split.
  - rewrite last_app. reflexivity.
  - split; [now apply Hid|]. split; [exact Hrole|exact Hcontent].
Qed.

(** X20.  The title is generated once.  When [_title_generated] is set,
    [_finalise_turn] leaves the flag set and the conversation's title as it
    is, whether the turn is aborted or not and whether it returns or
    raises. *)
Theorem title_is_generated_once (gen : Generator) (self : ChatSystem)
    (db : Store) (t : Turn) (reply : string) (aborted : bool) :
  _title_generated self = true ->
  _title_generated (fst (snd (_finalise_turn gen self db t reply aborted)))
  = true /\
  title (conversation
           (history (fst (snd (_finalise_turn gen self db t reply aborted)))))
  = title (conversation (history self)).
Proof.
  intros Hg.
  destruct (_finalise_turn gen self db t reply aborted) as [r [self' db']]
    eqn:Ef.
  apply finalise_turn_frame in Ef as (_ & Ht & _). simpl. now apply Ht.
Qed.

(** X21.  A turn received without streaming.  When [receive] returns, the
    reply is the answer of the generation service to the prompt built from
    the retrieved chunks, the ids are the ones drawn for the turn, and the
    transcript ends with the assistant entry of that reply under its id.
    When it raises, either nothing has changed, transcript and store, or
    the reply had been generated and the exception comes from finalising
    the turn. *)
Theorem receive_without_stream (gen : Generator)
    (retriever : string -> result (list Retrieved))
    (self self' : ChatSystem) (db db' : Store) (input : TurnInput)
    (user_text : string) (on_token include_ids : bool)
    (r : result (Reply * option (string * string))) :
  receive gen retriever self db input user_text false on_token include_ids
  = (r, (self', db')) ->
  match r with
  | Ok (reply, ids) =>
      exists query chunks answer,
        fst (rewritten_query_of gen self user_text) = Ok query /\
        retriever query = Ok chunks /\
        invoke gen (build_prompt self
                      (join_with (nl +:+ nl) (map chunk_text chunks))
                      user_text) = Ok answer /\
        reply = Text answer /\
        ids = (if include_ids
               then Some (user_uuid input, assistant_uuid input) else None) /\
        exists m, last (messages (history self')) = Some m /\
                  entry_id m = Some (assistant_uuid input) /\
                  role m = "assistant" /\ content m = answer
  | Raise e =>
      (self' = self /\ db' = db) \/
      exists query chunks answer,
        fst (rewritten_query_of gen self user_text) = Ok query /\
        retriever query = Ok chunks /\
        invoke gen (build_prompt self
                      (join_with (nl +:+ nl) (map chunk_text chunks))
                      user_text) = Ok answer /\
        _finalise_turn gen self db
          {| user_text := user_text; user_ts := user_now input;
             user_msg_id := user_uuid input;
             assistant_msg_id := assistant_uuid input;
             rewritten_query := query;
             context_items := render_items chunks;
             assistant_ts := assistant_now input |}
          answer false
        = (Raise e, (self', db'))
  end.
Proof.
  unfold receive.
  destruct (fst (rewritten_query_of gen self user_text)) as [query|e] eqn:Eq.
  2:{ intros [= <- <- <-]. now left. }
  destruct (retriever query) as [chunks|e] eqn:Er.
  2:{ intros [= <- <- <-]. now left. }
  destruct (invoke gen _) as [answer|e] eqn:Ei.
  2:{ intros [= <- <- <-]. now left. }
  destruct (_finalise_turn _ _ _ _ _ _) as [[[]|e] [self1 db1]] eqn:Ef.
  - intros [= <- <- <-]. exists query, chunks, answer.
    repeat (split; [reflexivity || assumption|]).
    apply finalise_turn_frame in Ef as (_ & _ & _ & Hl). exact (Hl eq_refl).
  - intros [= <- <- <-]. right. exists query, chunks, answer. auto.
Qed.


End Prompts.

(** *** The first turn of a conversation, with a generation service that
    goes down in mid-stream *)

Definition down_generator : Generator :=
  {| invoke := fun _ => Raise (ServiceError "connection refused");
     invoke_stream :=
       fun _ => (["Hello "], Some (ServiceError "connection closed"));
     chat_completion := fun _ => Raise (ServiceError "connection refused");
     count_conversation_tokens :=
       fun _ => Raise (ServiceError "connection refused") |}.

Definition fresh_chat : ChatSystem :=
  {| history :=
       {| conversation :=
            {| conv_id := None; title := None;
               token_budgeting_summary := None;
               token_budgeting_message_id := None |};
          token_threshold := 1000; messages := [] |};
     _title_generated := false; persistence := true;
     is_voicechat_pipeline := false |}.

Definition first_turn : Turn :=
  {| user_text := "hi"; user_ts := 1; user_msg_id := "u1";
     assistant_msg_id := "a1"; rewritten_query := "hi";
     context_items := ""; assistant_ts := 2 |}.

Definition down_run : StreamRun :=
  _stream_response (fun h => h) (fun _ u a => u +:+ a)
                   (fun q => q) (fun _ _ _ _ => "")
                   down_generator fresh_chat History.demo_store
                   "prompt" first_turn false.

(** The same turn when only the stream fails: the title request is answered,
    and the caller receives [GenerationAborted] with the partial text. *)
Definition flaky_generator : Generator :=
  {| invoke := fun _ => Ok "TITLE: Greeting";
     invoke_stream :=
       fun _ => (["Hel"; "lo "], Some (ServiceError "connection closed"));
     chat_completion := fun _ => Ok "";
     count_conversation_tokens := fun msgs => Ok (Z.of_nat (length msgs)) |}.

Definition flaky_run : StreamRun :=
  _stream_response (fun h => h) (fun _ u a => u +:+ a)
                   (fun q => q) (fun _ _ _ _ => "")
                   flaky_generator fresh_chat History.demo_store
                   "prompt" first_turn true.

Example stream_abort_run :
  yielded flaky_run = ["Hel"; "lo "] /\
  on_token_calls flaky_run = ["Hel"; "lo "] /\
  outcome flaky_run = Raise (GenerationAborted "Hello ") /\
  map content (messages (history (fst (after flaky_run)))) = ["hi"; "Hello "] /\
  title (conversation (history (fst (after flaky_run)))) = Some "Greeting" /\
  stored_messages (snd (after flaky_run)) = [].
Proof. vm_compute. repeat split. Qed.

(** C3, on the code.  The stream yields ["Hello "] and raises; the entry
    with content ["Hello "] is appended, but the title request made while
    finalising raises too, and that exception is what the caller receives:
    no [GenerationAborted] is raised. *)
Theorem stream_abort_masked_by_title_failure :
  yielded down_run = ["Hello "] /\
  map content (messages (history (fst (after down_run)))) = ["hi"; "Hello "] /\
  outcome down_run = Raise (ServiceError "connection refused") /\
  outcome down_run <> Raise (GenerationAborted "Hello ").
Proof.
  repeat split; try reflexivity. vm_compute. discriminate.
Qed.

(** *** Runs of the properties above *)

Lemma stream_abort_finalised_witness :
  yielded flaky_run = ["Hel"; "lo "] /\
  outcome flaky_run = Raise (GenerationAborted "Hello ") /\
  exists m, last (messages (history (fst (after flaky_run)))) = Some m /\
            role m = "assistant" /\ content m = "Hello ".
Proof.
  destruct (stream_abort_finalised (fun h => h) (fun _ u a => u +:+ a)
              (fun q => q) (fun _ _ _ _ => "")
              flaky_generator fresh_chat History.demo_store
              "prompt" first_turn true ["Hel"; "lo "]
              (ServiceError "connection closed") eq_refl)
    as (Hy & _ & Hm & Ho).
  split; [exact Hy|]. split; [exact Ho|exact Hm].
Defined.

Lemma aborted_turn_is_stored_on_close_witness :
  snd (after flaky_run) = History.demo_store /\
  exists self' db' rows row,
    close (fst (after flaky_run)) History.demo_store = (Ok (), (self', db')) /\
    stored_messages db' = stored_messages History.demo_store ++ rows /\
    last rows = Some row /\
    message_id row = "a1" /\ message_role row = "assistant" /\
    message_content row = "Hello ".
Proof.
  exact (aborted_turn_is_stored_on_close (fun h => h) (fun _ u a => u +:+ a)
           (fun q => q) (fun _ _ _ _ => "")
           flaky_generator fresh_chat History.demo_store
           "prompt" first_turn true ["Hel"; "lo "]
           (ServiceError "connection closed") eq_refl eq_refl eq_refl).
Defined.

(** A chat whose title exists already, with a generation service that is
    down. *)
Definition titled_chat : ChatSystem :=
  {| history :=
       {| conversation :=
            {| conv_id := Some "c1"; title := Some "Leave";
               token_budgeting_summary := None;
               token_budgeting_message_id := None |};
          token_threshold := 1000; messages := [] |};
     _title_generated := true; persistence := true;
     is_voicechat_pipeline := false |}.

Lemma title_is_generated_once_witness :
  _title_generated
    (fst (snd (_finalise_turn (fun h => h) (fun _ u a => u +:+ a)
                 (fun q => q) (fun _ _ _ _ => "")
                 down_generator titled_chat History.demo_store first_turn
                 "Hello" false))) = true /\
  title (conversation
           (history
              (fst (snd (_finalise_turn (fun h => h) (fun _ u a => u +:+ a)
                           (fun q => q) (fun _ _ _ _ => "")
                           down_generator titled_chat History.demo_store
                           first_turn "Hello" false)))))
  = Some "Leave".
Proof.
  exact (title_is_generated_once (fun h => h) (fun _ u a => u +:+ a)
           (fun q => q) (fun _ _ _ _ => "")
           down_generator titled_chat History.demo_store first_turn
           "Hello" false eq_refl).
Defined.

(** A first turn without streaming: one chunk retrieved, the service
    answers every prompt with the same text. *)
Definition echo_generator : Generator :=
  {| invoke := fun _ => Ok "TITLE: Greeting";
     invoke_stream := fun _ => ([], None);
     chat_completion := fun _ => Ok "";
     count_conversation_tokens := fun msgs => Ok (Z.of_nat (length msgs)) |}.

Definition one_chunk_retriever (query : string) : result (list Retrieved) :=
  Ok [ {| chunk_id := "b1"; chunk_text := "Leave policy";
          chunk_scores := "" |} ].

Definition first_input : TurnInput :=
  {| user_now := 1; assistant_now := 2; user_uuid := "u1";
     assistant_uuid := "a1" |}.

Definition plain_turn
  : result (Reply * option (string * string)) * (ChatSystem * Store) :=
  receive (fun h => h) (fun _ u a => u +:+ a) (fun q => q)
          (fun _ _ _ _ => "") (fun _ h q => h +:+ q) "BASE" "VOICE"
          (fun c => c) (fun _ => "") echo_generator one_chunk_retriever
          fresh_chat History.demo_store first_input "hi" false false true.

Lemma receive_without_stream_witness :
  fst plain_turn = Ok (Text "TITLE: Greeting", Some ("u1", "a1")) /\
  exists query chunks answer,
    one_chunk_retriever query = Ok chunks /\
    query = "hi" /\ answer = "TITLE: Greeting" /\
    exists m, last (messages (history (fst (snd plain_turn)))) = Some m /\
              entry_id m = Some "a1" /\ role m = "assistant" /\
              content m = answer.
Proof.
  split; [vm_compute; reflexivity|].
  pose proof (receive_without_stream (fun h => h) (fun _ u a => u +:+ a)
                (fun q => q) (fun _ _ _ _ => "") (fun _ h q => h +:+ q)
                "BASE" "VOICE" (fun c => c) (fun _ => "") echo_generator
                one_chunk_retriever fresh_chat (fst (snd plain_turn))
                History.demo_store (snd (snd plain_turn)) first_input "hi"
                false true (fst plain_turn)) as H.
  assert (fst plain_turn = Ok (Text "TITLE: Greeting", Some ("u1", "a1")))
    as E by (vm_compute; reflexivity).
  rewrite E in H.
  destruct H as (query & chunks & answer & Hq & Hc & Ha & Hr & _ & Hm).
  { unfold plain_turn in E |- *. rewrite <- E.
    now destruct (receive _ _ _ _ _ _ _ _ _ _ _ _ _ _ _ _ _ _) as [? [? ?]]. }
  exists query, chunks, answer. split; [exact Hc|].
  injection Hq as <-. injection Hr as <-. auto.
Defined.

End Orchestrator.

(** * insertion/neo_inserter.py and database/__init__.py *)

Module Inserter.

Definition Vec : Type := list Z.

Inductive FileStatus : Type := PROCESSING | FAILED | OK.

Record File : Type := {
  file_id : string;
  file_title : string;
  status : FileStatus;
  error_message : option string
}.

Record SmallChunkRow : Type := { small_text : string; small_embedding : Vec }.
Record SummaryRow : Type := { summary_text : string; summary_embedding : Vec }.

(** A [BigChunk] row with the rows that hang from it. *)
Record BigChunkRow : Type := {
  big_file_id : string;
  big_text : string;
  summary_rows : list SummaryRow;
  small_rows : list SmallChunkRow
}.

(** The committed contents of the knowledge-base tables. *)
Record Db : Type := {
  files : gmap string File;
  big_chunks : list BigChunkRow
}.

(** [session_scope(write_enabled=True)]: [body] runs on the session; its
    changes are committed when it returns and the commit succeeds, and
    rolled back when it raises or the commit raises ([commit] is the outcome
    of [session.commit()]). *)
Definition session_scope {A : Type} (commit : result unit) (db : Db)
    (body : Db -> result (A * Db)) : result A * Db :=
  match body db with
  | Raise e => (Raise e, db)
  | Ok (a, db') =>
      match commit with
      | Ok _ => (Ok a, db')
      | Raise e => (Raise e, db)
      end
  end.

Inductive Phase : Type := Bootstrap | Persist | MarkFailed.

(** What one call of [insert] meets outside the inserter: the primary key
    the new [File] row gets, the summarising and embedding services, and the
    outcome of the commit of each of the three transactions. *)
Record Env : Type := {
  new_file_id : string;
  generator : Generator;
  embedder : list string -> result (list Vec);
  commit : Phase -> result unit
}.

Record NeoInserter : Type := {
  enable_summaries : bool;
  big_chunker : Chunker.GoldenChunker;
  small_chunker : Chunker.GoldenChunker;
  batch_size : nat
}.

(** [NeoInserter.__init__]; the chunkers are built with the default
    [merge_reversed=False]. *)
Definition new (bc_size bc_max_size bc_min_size sc_size sc_max_size sc_min_size
                batch_size : Z) (enable : bool) : result NeoInserter :=
  big ← Chunker.new bc_max_size bc_size bc_min_size false;
  small ← Chunker.new sc_max_size sc_size sc_min_size false;
  Ok {| enable_summaries := enable; big_chunker := big; small_chunker := small;
        batch_size := Z.to_nat (Z.max 1 batch_size) |}.

Inductive ItemKind : Type := summary | small_chunk (small_idx : nat).

Record WorkItem : Type := {
  kind : ItemKind;
  big_idx : nat;
  item_text : string
}.

Record BigWork : Type := {
  work_text : string;
  work_summary : option (WorkItem * Vec);
  work_small_chunks : list (WorkItem * Vec)
}.

(** [range(start, stop, step)] for a positive step. *)
Fixpoint range_from (fuel start stop step : nat) : list nat :=
  match fuel with
  | O => []
  | S fuel' =>
      if (start <? stop)%nat
      then start :: range_from fuel' (start + step) stop step
      else []
  end.

Definition py_range (start stop step : nat) : result (list nat) :=
  if (step =? 0)%nat then Raise (ValueError "range() arg 3 must not be zero")
  else Ok (range_from stop start stop step).

Definition _embed_in_batches (self : NeoInserter) (env : Env)
    (payload : list string) : result (list Vec) :=
  match payload with
  | [] => Ok []
  | _ :: _ =>
      starts ← py_range 0 (length payload) (batch_size self);
      foldM (fun acc start =>
               let batch := take (batch_size self) (drop start payload) in
               embeds ← embedder env batch;
               Ok (acc ++ embeds))
            [] starts
  end.

(** [zip(work_items, embeddings, strict=True)] *)
Definition zip_strict {A B : Type} (xs : list A) (ys : list B)
  : result (list (A * B)) :=
  if (length ys <? length xs)%nat
  then Raise (ValueError "zip() argument 2 is shorter than argument 1")
  else if (length xs <? length ys)%nat
  then Raise (ValueError "zip() argument 2 is longer than argument 1")
  else Ok (zip xs ys).

(** *** Batches *)

(** The batches [_embed_in_batches] cuts. *)
Definition embed_batches (self : NeoInserter) (payload : list string)
  : list (list string) :=
  map (fun start => take (batch_size self) (drop start payload))
      (range_from (length payload) 0 (length payload) (batch_size self)).

(** The slices [payload[start : start + step]] for the starts of
    [range(start, len(payload), step)] cover the payload from [start] on,
    piece by piece. *)
Lemma range_from_slices {A : Type} (l : list A) (step : nat) :
  (1 <= step)%nat ->
  forall fuel start,
    (length l - start <= fuel)%nat ->
    concat (map (fun i => take step (drop i l))
                (range_from fuel start (length l) step))
    = drop start l /\
    Forall (fun i => (i < length l)%nat)
           (range_from fuel start (length l) step).
Proof.
  intros Hstep. induction fuel as [|fuel IH]; intros start Hfuel; simpl.
  - split; [|constructor]. rewrite drop_ge by lia. reflexivity.
  - destruct (start <? length l)%nat eqn:E.
    + apply Nat.ltb_lt in E. destruct (IH (start + step)%nat) as [Hc Hall];
        [lia|].
      split; [|constructor; assumption].
      simpl. rewrite Hc. rewrite <- (drop_drop l step start).
      apply take_drop.
    + apply Nat.ltb_ge in E. split; [|constructor].
      rewrite drop_ge by lia. reflexivity.
Qed.

Lemma embed_batches_cover self payload :
  (1 <= batch_size self)%nat ->
  concat (embed_batches self payload) = payload /\
  Forall (fun batch => (1 <= length batch <= batch_size self)%nat)
         (embed_batches self payload).
Proof.
  intros Hb. unfold embed_batches.
  destruct (range_from_slices payload (batch_size self) Hb
              (length payload) 0) as [Hc Hall]; [lia|].
  split; [exact Hc|].
  apply Forall_map. eapply Forall_impl; [exact Hall|].
  intros i Hi. cbv beta in Hi |- *. rewrite length_take, length_drop. lia.
Qed.

Lemma embed_in_batches_unfold self env payload :
  (1 <= batch_size self)%nat ->
  _embed_in_batches self env payload =
  foldM (fun acc batch => embeds ← embedder env batch; Ok (acc ++ embeds))
        [] (embed_batches self payload).
Proof.
  intros Hb. unfold _embed_in_batches, embed_batches, py_range.
  destruct payload as [|p payload]; [reflexivity|].
  destruct (batch_size self =? 0)%nat eqn:E; [apply Nat.eqb_eq in E; lia|].
  simpl mbind. unfold mbind, result_bind, rbind.
  now rewrite foldM_map.
Qed.

Lemma foldM_pointwise {A B : Type} (embed : list A -> result (list B))
    (f : A -> B) (batches : list (list A)) (acc : list B) :
  (forall batch, embed batch = Ok (map f batch)) ->
  foldM (fun acc batch => embeds ← embed batch; Ok (acc ++ embeds))
        acc batches
  = Ok (acc ++ map f (concat batches)).
Proof.
  intros Hf. revert acc. induction batches as [|b bs IH]; intros acc; simpl.
  - now rewrite app_nil_r.
  - rewrite Hf. simpl. rewrite IH, map_app, app_assoc. reflexivity.
Qed.

(** X22.  [_embed_in_batches] sends every text of the payload to the
    embedding service exactly once and in order, in consecutive batches of
    one to [batch_size] texts; so with a service that embeds each text by
    itself, the result is the list of the texts' embeddings, whatever the
    batch size. *)
Theorem embed_in_batches_sends_every_text_once (self : NeoInserter) (env : Env)
    (payload : list string) :
  (1 <= batch_size self)%nat ->
  exists batches,
    concat batches = payload /\
    Forall (fun batch => (1 <= length batch <= batch_size self)%nat) batches /\
    _embed_in_batches self env payload =
    foldM (fun acc batch => embeds ← embedder env batch; Ok (acc ++ embeds))
          [] batches /\
    forall f,
      (forall batch, embedder env batch = Ok (map f batch)) ->
      _embed_in_batches self env payload = Ok (map f payload).
Proof.
  intros Hb. exists (embed_batches self payload).
  destruct (embed_batches_cover self payload Hb) as [Hc Hall].
  split; [exact Hc|]. split; [exact Hall|]. split.
  - now apply embed_in_batches_unfold.
  - intros f Hf. rewrite embed_in_batches_unfold by exact Hb.
    rewrite (foldM_pointwise _ f _ [] Hf). now rewrite Hc.
Qed.

Section WithSplitter.

Variable split_text : Z -> string -> result (list string).
Variable DEFAULT_SUMMARIZATION_SYSPROMPT : string.

Definition _generate_summary (env : Env) (text : string) : result string :=
  chat_completion (generator env)
    [("system", DEFAULT_SUMMARIZATION_SYSPROMPT); ("user", text)].

(** The body of [for big_idx, big_text in enumerate(big_chunk_texts)] on
    [work_items]. *)
Definition collect (self : NeoInserter) (env : Env) (work_items : list WorkItem)
    (entry : nat * string) : result (list WorkItem) :=
  let '(big_idx, big_text) := entry in
  let work_items :=
    if enable_summaries self then
      let summary_text :=
        match _generate_summary env big_text with
        | Ok s => s
        | Raise _ => str_take 200 big_text
        end in
      work_items ++
      [ {| kind := summary; big_idx := big_idx; item_text := summary_text |} ]
    else work_items in
  small_chunks_texts ← Chunker.chunk split_text (small_chunker self) big_text;
  Ok (work_items ++
      imap (fun small_idx small_text =>
              {| kind := small_chunk small_idx; big_idx := big_idx;
                 item_text := small_text |})
           small_chunks_texts).

Definition place (big_work : list BigWork) (item : WorkItem * Vec)
  : list BigWork :=
  alter (fun bw =>
           match kind (fst item) with
           | summary =>
               {| work_text := work_text bw; work_summary := Some item;
                  work_small_chunks := work_small_chunks bw |}
           | small_chunk _ =>
               {| work_text := work_text bw; work_summary := work_summary bw;
                  work_small_chunks := work_small_chunks bw ++ [item] |}
           end)
        (big_idx (fst item)) big_work.

(** The steps of the [try] block before the last transaction: [None] is the
    early [return None] for a text without chunks. *)
Definition prepare (self : NeoInserter) (env : Env) (text : string)
  : result (option (list BigWork)) :=
  big_chunk_texts ← Chunker.chunk split_text (big_chunker self) text;
  match big_chunk_texts with
  | [] => Ok None
  | _ :: _ =>
      work_items ← foldM (collect self env) [] (imap pair big_chunk_texts);
      let embed_payload := map item_text work_items in
      embeddings ← _embed_in_batches self env embed_payload;
      items ← zip_strict work_items embeddings;
      let big_work :=
        map (fun t => {| work_text := t; work_summary := None;
                         work_small_chunks := [] |}) big_chunk_texts in
      Ok (Some (fold_left place items big_work))
  end.

Definition bootstrap (env : Env) (title : string) (db : Db)
  : result (string * Db) :=
  match files db !! new_file_id env with
  | Some _ => Raise (ServiceError "duplicate key value")
  | None =>
      Ok (new_file_id env,
          {| files :=
               <[new_file_id env :=
                   {| file_id := new_file_id env; file_title := title;
                      status := PROCESSING; error_message := None |}]>
               (files db);
             big_chunks := big_chunks db |})
  end.

Definition persist (inserted_file_id : string) (big_work : list BigWork)
    (db : Db) : result (unit * Db) :=
  match files db !! inserted_file_id with
  | None =>
      Raise (RuntimeError "Bootstrap File row vanished before persistence step")
  | Some file_obj =>
      Ok ((),
          {| files :=
               <[inserted_file_id :=
                   {| file_id := file_id file_obj;
                      file_title := file_title file_obj;
                      status := OK; error_message := None |}]>
               (files db);
             big_chunks :=
               big_chunks db ++
               map (fun bw =>
                      {| big_file_id := inserted_file_id;
                         big_text := work_text bw;
                         summary_rows :=
                           match work_summary bw with
                           | Some (item, v) =>
                               [ {| summary_text := item_text item;
                                    summary_embedding := v |} ]
                           | None => []
                           end;
                         small_rows :=
                           map (fun iv =>
                                  {| small_text := item_text (fst iv);
                                     small_embedding := snd iv |})
                               (work_small_chunks bw) |})
                   big_work |})
  end.

Definition mark_failed (inserted_file_id : string) (exc : exn) (db : Db)
  : result (unit * Db) :=
  match files db !! inserted_file_id with
  | None => Ok ((), db)
  | Some file_row =>
      Ok ((),
          {| files :=
               <[inserted_file_id :=
                   {| file_id := file_id file_row;
                      file_title := file_title file_row;
                      status := FAILED; error_message := Some (str exc) |}]>
               (files db);
             big_chunks := big_chunks db |})
  end.

(** How a call of [insert] ends: it returns, or an exception reaches the
    caller from the [raise] that ends the failure handler, from the failure
    handler's own transaction, or from the first transaction. *)
Inductive Outcome : Type :=
| Returned (inserted_file_id : option string)
| Reraised (exc : exn)
| HandlerRaised (e : exn)
| BootstrapRaised (e : exn).

(** The [try] block: its value or the exception it raises, and the store. *)
Definition attempt (self : NeoInserter) (env : Env) (db : Db)
    (inserted_file_id text : string) : result (option string) * Db :=
  match prepare self env text with
  | Raise e => (Raise e, db)
  | Ok None => (Ok None, db)
  | Ok (Some big_work) =>
      match session_scope (commit env Persist) db
                          (persist inserted_file_id big_work) with
      | (Raise e, db) => (Raise e, db)
      | (Ok _, db) => (Ok (Some inserted_file_id), db)
      end
  end.

(** [NeoInserter.insert(title, text)]; [file_kwargs] are left out. *)
Definition insert (self : NeoInserter) (env : Env) (db : Db)
    (title text : string) : Outcome * Db :=
  match session_scope (commit env Bootstrap) db (bootstrap env title) with
  | (Raise e, db) => (BootstrapRaised e, db)
  | (Ok inserted_file_id, db) =>
      match attempt self env db inserted_file_id text with
      | (Ok r, db) => (Returned r, db)
      | (Raise exc, db) =>
          match session_scope (commit env MarkFailed) db
                              (mark_failed inserted_file_id exc) with
          | (Raise e, db) => (HandlerRaised e, db)
          | (Ok _, db) => (Reraised exc, db)
          end
      end
  end.

Lemma bootstrap_scope env title db r db1 :
  session_scope (commit env Bootstrap) db (bootstrap env title) = (Ok r, db1) ->
  r = new_file_id env /\
  big_chunks db1 = big_chunks db /\
  files db1 !! new_file_id env =
  Some {| file_id := new_file_id env; file_title := title;
          status := PROCESSING; error_message := None |}.
Proof.
  unfold session_scope, bootstrap.
  destruct (files db !! new_file_id env); [discriminate|].
  destruct (commit env Bootstrap); [|discriminate].
  intros [= <- <-]. simpl. now rewrite lookup_insert_eq.
Qed.

(** The [try] block raises only after a rollback: the store is as the first
    transaction left it. *)
Lemma attempt_raises self env db fid text exc db' :
  attempt self env db fid text = (Raise exc, db') -> db' = db.
Proof.
  unfold attempt, session_scope.
  destruct (prepare self env text) as [[big_work|]|e]; try congruence.
  destruct (persist fid big_work db) as [[u d]|e]; [|congruence].
  destruct (commit env Persist); congruence.
Qed.

(** Read from the caller's side: when an exception [exc] raised in the
    [try] block of [insert] (chunking, summaries, embedding or the last
    transaction) reaches the caller, the [File] row of the call has status
    [failed] and error message [str(exc)], and the call has committed no
    chunk row. *)
Theorem insert_failure_marks_failed (self : NeoInserter) (env : Env) (db db' : Db)
    (title text : string) (exc : exn) :
  insert self env db title text = (Reraised exc, db') ->
  (exists db1, fst (attempt self env db1 (new_file_id env) text) = Raise exc) /\
  (exists f, files db' !! new_file_id env = Some f /\
             status f = FAILED /\ error_message f = Some (str exc)) /\
  big_chunks db' = big_chunks db.
Proof.
  unfold insert.
  destruct (session_scope (commit env Bootstrap) db (bootstrap env title))
    as [[fid|e] db1] eqn:Eb; [|discriminate].
  apply bootstrap_scope in Eb as (-> & Hrows & Hfile).
  destruct (attempt self env db1 (new_file_id env) text) as [[r|e] db2] eqn:Ea;
    [discriminate|].
  pose proof (attempt_raises _ _ _ _ _ _ _ Ea) as ->.
  unfold session_scope, mark_failed. rewrite Hfile.
  destruct (commit env MarkFailed); [|discriminate].
  intros [= <- <-]. simpl. split; [|split].
  - exists db1. now rewrite Ea.
  - rewrite lookup_insert_eq. eauto.
  - exact Hrows.
Qed.

(** Every exception of the [try] block is re-raised with the row marked,
    provided the failure handler's transaction commits. *)
Lemma insert_reraises self env db title text exc :
  files db !! new_file_id env = None ->
  commit env Bootstrap = Ok () ->
  commit env MarkFailed = Ok () ->
  (forall db1, fst (attempt self env db1 (new_file_id env) text) = Raise exc) ->
  exists db', insert self env db title text = (Reraised exc, db').
Proof.
  intros Hfresh Hb Hm Hraise. unfold insert, session_scope at 1, bootstrap.
  rewrite Hfresh, Hb.
  match goal with
  | |- context [attempt self env ?d ?i text] =>
      specialize (Hraise d);
      destruct (attempt self env d i text) as [[r|e] db2] eqn:Ea
  end; simpl in Hraise; [discriminate|]. injection Hraise as ->.
  pose proof (attempt_raises _ _ _ _ _ _ _ Ea) as ->.
  unfold session_scope, mark_failed. simpl. rewrite lookup_insert_eq, Hm.
  eauto.
Qed.

(** When the failure handler's own transaction raises, that exception
    reaches the caller and the row stays [processing]. *)
Lemma insert_handler_failure self env db db' title text e :
  insert self env db title text = (HandlerRaised e, db') ->
  commit env MarkFailed = Raise e /\
  exists f, files db' !! new_file_id env = Some f /\ status f = PROCESSING.
Proof.
  unfold insert.
  destruct (session_scope (commit env Bootstrap) db (bootstrap env title))
    as [[fid|e0] db1] eqn:Eb; [|discriminate].
  apply bootstrap_scope in Eb as (-> & Hrows & Hfile).
  destruct (attempt self env db1 (new_file_id env) text) as [[r|e1] db2] eqn:Ea;
    [discriminate|].
  pose proof (attempt_raises _ _ _ _ _ _ _ Ea) as ->.
  unfold session_scope, mark_failed. rewrite Hfile.
  destruct (commit env MarkFailed) as [|e2]; [discriminate|].
  intros [= <- <-]. split; [reflexivity|]. rewrite Hfile. eauto.
Qed.

(** C7.  When the [try] block of [insert] raises [exc] (chunking, summaries,
    embedding or the last transaction), the call commits no chunk row, and
    what the caller receives depends on the failure handler's own
    transaction.  When it commits, the caller receives [exc] and the [File]
    row of the call has status [failed] and error message [str(exc)].  When
    it raises [e], the caller receives [e] instead and the row is left in
    status [processing] without error message. *)
Theorem insert_failure_depends_on_handler (self : NeoInserter) (env : Env)
    (db db1 : Db) (title text fid : string) (exc : exn) :
  session_scope (commit env Bootstrap) db (bootstrap env title)
  = (Ok fid, db1) ->
  fst (attempt self env db1 fid text) = Raise exc ->
  big_chunks (snd (insert self env db title text)) = big_chunks db /\
  match commit env MarkFailed with
  | Ok _ =>
      fst (insert self env db title text) = Reraised exc /\
      files (snd (insert self env db title text)) !! fid =
      Some {| file_id := fid; file_title := title; status := FAILED;
              error_message := Some (str exc) |}
  | Raise e =>
      fst (insert self env db title text) = HandlerRaised e /\
      files (snd (insert self env db title text)) !! fid =
      Some {| file_id := fid; file_title := title; status := PROCESSING;
              error_message := None |}
  end.
Proof.
  intros Hb Ha. unfold insert. rewrite Hb.
  apply bootstrap_scope in Hb as (-> & Hrows & Hfile).
  destruct (attempt self env db1 (new_file_id env) text) as [[r|e] db2] eqn:Ea;
    simpl in Ha; [discriminate|]. injection Ha as ->.
  pose proof (attempt_raises _ _ _ _ _ _ _ Ea) as ->.
  unfold session_scope, mark_failed. rewrite Hfile.
  destruct (commit env MarkFailed) as [u|e]; simpl.
  - split; [exact Hrows|]. split; [reflexivity|]. apply lookup_insert_eq.
  - split; [exact Hrows|]. split; [reflexivity|exact Hfile].
Qed.

(** A text without sections makes every chunker return the empty list. *)
Lemma chunk_empty_text (chunker : Chunker.GoldenChunker) :
  Chunker.chunk split_text chunker EmptyString = Ok [].
Proof. reflexivity. Qed.

(** For an empty text [insert] takes the early [return None]: no exception,
    so the failure handler does not run, and the row created by the first
    transaction keeps its initial status. *)
Lemma insert_empty_text self env db title :
  files db !! new_file_id env = None ->
  commit env Bootstrap = Ok () ->
  exists db',
    insert self env db title EmptyString = (Returned None, db') /\
    files db' !! new_file_id env =
    Some {| file_id := new_file_id env; file_title := title;
            status := PROCESSING; error_message := None |}.
Proof.
  intros Hfresh Hb. unfold insert, session_scope, bootstrap.
  rewrite Hfresh, Hb. unfold attempt, prepare. rewrite chunk_empty_text.
  simpl. eexists. split; [reflexivity|]. simpl. now rewrite lookup_insert_eq.
Qed.

(** *** What a successful insertion stores *)

Definition is_small_of (i : nat) (w : WorkItem) : bool :=
  match kind w with
  | small_chunk _ => (big_idx w =? i)%nat
  | summary => false
  end.

Definition is_summary_of (i : nat) (w : WorkItem) : bool :=
  match kind w with
  | summary => (big_idx w =? i)%nat
  | small_chunk _ => false
  end.

(** The text embedded as the summary of a large chunk: the generated
    summary, or the first 200 characters when the service fails. *)
Definition summary_text_of (env : Env) (big_text : string) : string :=
  match _generate_summary env big_text with
  | Ok s => s
  | Raise _ => str_take 200 big_text
  end.

Definition summary_item (env : Env) (i : nat) (big_text : string) : WorkItem :=
  {| kind := summary; big_idx := i; item_text := summary_text_of env big_text |}.

Definition small_items (i : nat) (small_chunks_texts : list string)
  : list WorkItem :=
  imap (fun small_idx small_text =>
          {| kind := small_chunk small_idx; big_idx := i;
             item_text := small_text |})
       small_chunks_texts.

(** The work items [collect] appends for the large chunk [i]. *)
Definition items_for (self : NeoInserter) (env : Env) (i : nat)
    (big_text : string) (small_chunks_texts : list string) : list WorkItem :=
  (if enable_summaries self then [summary_item env i big_text] else [])
  ++ small_items i small_chunks_texts.

(** The entry of [big_work] for the large chunk [i], given the embedded
    work items. *)
Definition work_of (items : list (WorkItem * Vec)) (i : nat) (big_text : string)
  : BigWork :=
  {| work_text := big_text;
     work_summary :=
       last (List.filter (fun it => is_summary_of i (fst it)) items);
     work_small_chunks :=
       List.filter (fun it => is_small_of i (fst it)) items |}.

(** The row [persist] adds for an entry of [big_work], with the rows that
    hang from it. *)
Definition row_of (inserted_file_id : string) (bw : BigWork) : BigChunkRow :=
  {| big_file_id := inserted_file_id;
     big_text := work_text bw;
     summary_rows :=
       match work_summary bw with
       | Some (item, v) =>
           [ {| summary_text := item_text item; summary_embedding := v |} ]
       | None => []
       end;
     small_rows :=
       map (fun iv => {| small_text := item_text (fst iv);
                         small_embedding := snd iv |})
           (work_small_chunks bw) |}.

Lemma collect_items self env acc j t r :
  collect self env acc (j, t) = Ok r ->
  exists c,
    Chunker.chunk split_text (small_chunker self) t = Ok c /\
    r = acc ++ items_for self env j t c.
Proof.
  unfold collect, items_for, summary_item, summary_text_of, small_items.
  destruct (Chunker.chunk split_text (small_chunker self) t) as [c|e];
    simpl; [|discriminate].
  intros [= <-]. exists c. split; [reflexivity|].
  destruct (enable_summaries self); [now rewrite <- app_assoc|reflexivity].
Qed.

Lemma filter_imap_small (i j : nat) (G : nat -> string -> WorkItem)
    (c : list string) :
  (forall n t, exists k, kind (G n t) = small_chunk k) ->
  (forall n t, big_idx (G n t) = j) ->
  List.filter (is_small_of i) (imap G c)
  = (if (j =? i)%nat then imap G c else []) /\
  List.filter (is_summary_of i) (imap G c) = [].
Proof.
  revert G. induction c as [|t c IH]; intros G Hk Hb; simpl.
  - split; [now destruct (j =? i)%nat|reflexivity].
  - destruct (IH (G ∘ S)) as [IH1 IH2];
      [intros n t'; apply Hk|intros n t'; apply Hb|].
    unfold is_small_of at 1, is_summary_of at 1.
    destruct (Hk 0%nat t) as [k ->]. rewrite Hb, IH1, IH2.
    now destruct (j =? i)%nat.
Qed.

Lemma filter_items_for self env (i j : nat) (t : string) (c : list string) :
  List.filter (is_small_of i) (items_for self env j t c)
  = (if (j =? i)%nat then small_items j c else []) /\
  List.filter (is_summary_of i) (items_for self env j t c)
  = (if (j =? i)%nat && enable_summaries self
     then [summary_item env j t] else []).
Proof.
  unfold items_for. rewrite !List.filter_app.
  destruct (filter_imap_small i j
              (fun small_idx small_text =>
                 {| kind := small_chunk small_idx; big_idx := j;
                    item_text := small_text |}) c) as [H1 H2];
    [intros; simpl; eauto|reflexivity|].
  fold (small_items j c) in H1, H2. rewrite H1, H2, app_nil_r.
  destruct (enable_summaries self); simpl.
  - unfold is_small_of, is_summary_of. simpl.
    destruct (j =? i)%nat; split; reflexivity.
  - now rewrite andb_false_r.
Qed.

(** The work items of a text, large chunk by large chunk. *)
Lemma foldM_collect self env (texts : list string) :
  forall k acc r,
    foldM (collect self env) acc (imap (fun i t => ((k + i)%nat, t)) texts)
    = Ok r ->
    exists cs,
      Forall2 (fun t c =>
                 Chunker.chunk split_text (small_chunker self) t = Ok c)
              texts cs /\
      forall i,
        List.filter (is_small_of i) r
        = List.filter (is_small_of i) acc ++
          match cs !! (i - k)%nat with
          | Some c => if (k <=? i)%nat then small_items i c else []
          | None => []
          end /\
        List.filter (is_summary_of i) r
        = List.filter (is_summary_of i) acc ++
          match texts !! (i - k)%nat with
          | Some t =>
              if (k <=? i)%nat && enable_summaries self
              then [summary_item env i t] else []
          | None => []
          end.
Proof.
  induction texts as [|t texts IH]; intros k acc r; cbn [imap foldM].
  - intros [= <-]. exists []. split; [constructor|].
    intros i. rewrite !lookup_nil, !app_nil_r. auto.
  - rewrite Nat.add_0_r.
    destruct (collect self env acc (k, t)) as [r1|e] eqn:Ec;
      [|discriminate].
    change (foldM (collect self env) r1
                  (imap ((fun i t => ((k + i)%nat, t)) ∘ S) texts) = Ok r ->
            exists cs,
              Forall2 (fun t c =>
                         Chunker.chunk split_text (small_chunker self) t
                         = Ok c) (t :: texts) cs /\
              forall i,
                List.filter (is_small_of i) r
                = List.filter (is_small_of i) acc ++
                  match cs !! (i - k)%nat with
                  | Some c => if (k <=? i)%nat then small_items i c else []
                  | None => []
                  end /\
                List.filter (is_summary_of i) r
                = List.filter (is_summary_of i) acc ++
                  match (t :: texts) !! (i - k)%nat with
                  | Some t =>
                      if (k <=? i)%nat && enable_summaries self
                      then [summary_item env i t] else []
                  | None => []
                  end).
    apply collect_items in Ec as (c0 & Hc0 & ->).
    rewrite (imap_ext _ (fun i t => ((S k + i)%nat, t)))
      by (intros; simpl; f_equal; lia).
    intros H. apply IH in H as (cs & Hcs & Hf).
    exists (c0 :: cs). split; [now constructor|].
    intros i. destruct (Hf i) as [Hs Hu]. rewrite Hs, Hu.
    rewrite !List.filter_app.
    destruct (filter_items_for self env i k t c0) as [-> ->].
    rewrite <- !app_assoc.
    destruct (Nat.lt_trichotomy i k) as [Hlt|[->|Hgt]].
    + replace (i - k)%nat with O by lia. replace (i - S k)%nat with O by lia.
      replace (k =? i)%nat with false by (symmetry; apply Nat.eqb_neq; lia).
      replace (k <=? i)%nat with false by (symmetry; apply Nat.leb_gt; lia).
      replace (S k <=? i)%nat with false by (symmetry; apply Nat.leb_gt; lia).
      simpl. destruct (cs !! 0%nat), (texts !! 0%nat); auto.
    + rewrite Nat.sub_diag. replace (k - S k)%nat with O by lia.
      rewrite Nat.eqb_refl, Nat.leb_refl.
      replace (S k <=? k)%nat with false by (symmetry; apply Nat.leb_gt; lia).
      simpl. destruct (cs !! 0%nat), (texts !! 0%nat);
        rewrite ?app_nil_r; auto.
    + replace (i - k)%nat with (S (i - S k)) by lia.
      replace (k =? i)%nat with false by (symmetry; apply Nat.eqb_neq; lia).
      replace (k <=? i)%nat with true by (symmetry; apply Nat.leb_le; lia).
      replace (S k <=? i)%nat with true by (symmetry; apply Nat.leb_le; lia).
      simpl. auto.
Qed.

(** [place] files every item under its large chunk. *)
Lemma fold_place_lookup (items : list (WorkItem * Vec)) :
  forall (big_work : list BigWork) (i : nat),
    fold_left place items big_work !! i =
    (fun bw =>
       {| work_text := work_text bw;
          work_summary :=
            match last (List.filter (fun it => is_summary_of i (fst it))
                                    items) with
            | Some it => Some it
            | None => work_summary bw
            end;
          work_small_chunks :=
            work_small_chunks bw ++
            List.filter (fun it => is_small_of i (fst it)) items |})
    <$> big_work !! i.
Proof.
  induction items as [|it items IH]; intros big_work i; simpl.
  - destruct (big_work !! i) as [bw|]; simpl; [|reflexivity].
    rewrite app_nil_r. now destruct bw.
  - rewrite IH. unfold place.
    destruct (decide (big_idx (fst it) = i)) as [<-|Hne].
    + rewrite list_lookup_alter_eq.
      destruct (big_work !! big_idx (fst it)) as [bw|]; simpl; [|reflexivity].
      f_equal.
      assert (is_summary_of (big_idx (fst it)) (fst it)
              = match kind (fst it) with summary => true | _ => false end /\
              is_small_of (big_idx (fst it)) (fst it)
              = match kind (fst it) with summary => false | _ => true end)
        as [-> ->].
      { unfold is_summary_of, is_small_of. rewrite Nat.eqb_refl.
        now destruct (kind (fst it)). }
      destruct (kind (fst it)); simpl.
      * rewrite last_cons. now destruct (last _).
      * now rewrite <- app_assoc.
    + rewrite list_lookup_alter_ne by exact Hne.
      assert (is_summary_of i (fst it) = false /\
              is_small_of i (fst it) = false) as [-> ->].
      { unfold is_summary_of, is_small_of.
        replace (big_idx (fst it) =? i)%nat with false
          by (symmetry; now apply Nat.eqb_neq).
        now destruct (kind (fst it)). }
      reflexivity.
Qed.

Lemma fold_place_fresh (items : list (WorkItem * Vec)) (texts : list string) :
  fold_left place items
            (map (fun t => {| work_text := t; work_summary := None;
                              work_small_chunks := [] |}) texts)
  = imap (work_of items) texts.
Proof.
  apply list_eq. intros i.
  rewrite fold_place_lookup, list_lookup_fmap, list_lookup_imap.
  destruct (texts !! i) as [t|]; simpl; [|reflexivity].
  unfold work_of. f_equal. f_equal. now destruct (last _).
Qed.

Lemma filter_zip_fst {A B : Type} (P : A -> bool) (l : list A) (k : list B) :
  length l = length k ->
  map fst (List.filter (fun it => P (fst it)) (zip l k)) = List.filter P l.
Proof.
  revert k. induction l as [|x l IH]; intros [|y k] Hlen; simpl in *;
    try reflexivity; try discriminate.
  destruct (P x); simpl; rewrite IH by lia; reflexivity.
Qed.

Lemma zip_strict_ok {A B : Type} (xs : list A) (ys : list B) items :
  zip_strict xs ys = Ok items -> items = zip xs ys /\ length xs = length ys.
Proof.
  unfold zip_strict.
  destruct (length ys <? length xs)%nat eqn:E1; [discriminate|].
  destruct (length xs <? length ys)%nat eqn:E2; [discriminate|].
  intros [= <-]. apply Nat.ltb_ge in E1, E2. split; [reflexivity|lia].
Qed.

(** What [prepare] hands to the last transaction. *)
Lemma prepare_work self env text big_work :
  prepare self env text = Ok (Some big_work) ->
  exists chunks cs work_items embeddings,
    Chunker.chunk split_text (big_chunker self) text = Ok chunks /\
    chunks <> [] /\
    Forall2 (fun t c => Chunker.chunk split_text (small_chunker self) t = Ok c)
            chunks cs /\
    _embed_in_batches self env (map item_text work_items) = Ok embeddings /\
    length work_items = length embeddings /\
    big_work = imap (work_of (zip work_items embeddings)) chunks /\
    forall i,
      List.filter (is_small_of i) work_items
      = match cs !! i with Some c => small_items i c | None => [] end /\
      List.filter (is_summary_of i) work_items
      = match chunks !! i with
        | Some t => if enable_summaries self then [summary_item env i t] else []
        | None => []
        end.
Proof.
  unfold prepare.
  destruct (Chunker.chunk split_text (big_chunker self) text) as [chunks|e];
    simpl; [|discriminate].
  destruct chunks as [|t0 chunks]; [discriminate|].
  set (texts := t0 :: chunks).
  destruct (foldM (collect self env) [] (imap pair texts)) as [ws|e] eqn:Ew;
    simpl; [|discriminate].
  destruct (_embed_in_batches self env (map item_text ws)) as [es|e] eqn:Ee;
    simpl; [|discriminate].
  destruct (zip_strict ws es) as [items|e] eqn:Ez; simpl; [|discriminate].
  apply zip_strict_ok in Ez as [-> Hlen].
  intros [= <-].
  rewrite (imap_ext _ (fun i t => ((0 + i)%nat, t))) in Ew by reflexivity.
  apply foldM_collect in Ew as (cs & Hcs & Hf).
  exists texts, cs, ws, es.
  split; [reflexivity|]. split; [discriminate|]. split; [exact Hcs|].
  split; [exact Ee|]. split; [exact Hlen|].
  split; [exact (fold_place_fresh (zip ws es) texts)|].
  intros i. destruct (Hf i) as [Hs Hu].
  rewrite Nat.sub_0_r in Hs, Hu. simpl in Hs, Hu. auto.
Qed.

Lemma small_items_texts (i : nat) (c : list string) :
  map item_text (small_items i c) = c.
Proof.
  unfold small_items. change (map item_text ?l) with (item_text <$> l).
  rewrite fmap_imap.
  rewrite (imap_ext _ (const id)) by reflexivity.
  rewrite imap_const. apply list_fmap_id.
Qed.

(** The rows added for the large chunk [i] of text [t]. *)
Lemma row_of_work self env (chunks : list string) (cs : list (list string))
    (ws : list WorkItem) (es : list Vec) (fid : string) (i : nat) (t : string) :
  Forall2 (fun t c => Chunker.chunk split_text (small_chunker self) t = Ok c)
          chunks cs ->
  length ws = length es ->
  (forall i,
      List.filter (is_small_of i) ws
      = match cs !! i with Some c => small_items i c | None => [] end /\
      List.filter (is_summary_of i) ws
      = match chunks !! i with
        | Some t => if enable_summaries self then [summary_item env i t] else []
        | None => []
        end) ->
  chunks !! i = Some t ->
  let row := row_of fid (work_of (zip ws es) i t) in
  big_file_id row = fid /\ big_text row = t /\
  Chunker.chunk split_text (small_chunker self) t
  = Ok (map small_text (small_rows row)) /\
  map summary_text (summary_rows row)
  = (if enable_summaries self then [summary_text_of env t] else []).
Proof.
  intros Hcs Hlen Hf Ht row. destruct (Hf i) as [Hs Hu]. rewrite Ht in Hu.
  split; [reflexivity|]. split; [reflexivity|]. split.
  - destruct (Forall2_lookup_l _ _ _ _ _ Hcs Ht) as (c & Hc & Hchunk).
    rewrite Hc in Hs. rewrite Hchunk. f_equal.
    unfold row, row_of, work_of. simpl. rewrite map_map. simpl.
    rewrite <- (map_map fst item_text).
    rewrite (filter_zip_fst (is_small_of i) ws es Hlen), Hs.
    symmetry. apply small_items_texts.
  - unfold row, row_of, work_of. simpl.
    pose proof (filter_zip_fst (is_summary_of i) ws es Hlen) as Hz.
    rewrite Hu in Hz.
    destruct (enable_summaries self).
    + destruct (List.filter _ (zip ws es)) as [|[w v] [|x l]]; try discriminate.
      simpl in *. injection Hz as ->. reflexivity.
    + destruct (List.filter _ (zip ws es)) as [|x l]; [reflexivity|discriminate].
Qed.

Lemma Forall2_imap_r {A B : Type} (P : A -> B -> Prop) (F : nat -> A -> B)
    (l : list A) :
  (forall i x, l !! i = Some x -> P x (F i x)) -> Forall2 P l (imap F l).
Proof.
  intros H. apply Forall2_same_length_lookup_2.
  - now rewrite length_imap.
  - intros i x y Hx Hy. rewrite list_lookup_imap, Hx in Hy.
    injection Hy as <-. now apply H.
Qed.

(** The outcome [Returned (Some _)] of [insert], step by step. *)
Lemma insert_returned self env db db' title text fid :
  insert self env db title text = (Returned (Some fid), db') ->
  fid = new_file_id env /\
  files db !! new_file_id env = None /\
  exists big_work,
    prepare self env text = Ok (Some big_work) /\
    files db' =
    <[new_file_id env :=
        {| file_id := new_file_id env; file_title := title; status := OK;
           error_message := None |}]> (files db) /\
    big_chunks db' = big_chunks db ++ map (row_of (new_file_id env)) big_work.
Proof.
  unfold insert.
  destruct (session_scope (commit env Bootstrap) db (bootstrap env title))
    as [[fid0|e] db1] eqn:Eb; [|discriminate].
  assert (files db !! new_file_id env = None /\ fid0 = new_file_id env /\
          db1 = {| files :=
                     <[new_file_id env :=
                         {| file_id := new_file_id env; file_title := title;
                            status := PROCESSING; error_message := None |}]>
                     (files db);
                   big_chunks := big_chunks db |}) as (Hfresh & -> & ->).
  { unfold session_scope, bootstrap in Eb.
    destruct (files db !! new_file_id env); [discriminate|].
    destruct (commit env Bootstrap); [|discriminate].
    now injection Eb as <- <-. }
  unfold attempt.
  destruct (prepare self env text) as [[big_work|]|e] eqn:Ep.
  - destruct (session_scope (commit env Persist) _ _) as [[u|e] db2] eqn:Es.
    + intros [= <- <-]. split; [reflexivity|]. split; [exact Hfresh|].
      exists big_work. split; [reflexivity|].
      unfold session_scope, persist in Es. simpl in Es.
      rewrite lookup_insert_eq in Es.
      destruct (commit env Persist); [|discriminate].
      injection Es as _ <-. simpl.
      split; [apply insert_insert_eq|reflexivity].
    + destruct (session_scope (commit env MarkFailed) _ _) as [[u'|e'] d];
      discriminate.
  - discriminate.
  - destruct (session_scope (commit env MarkFailed) _ _) as [[u'|e'] d];
      discriminate.
Qed.

(** X23.  When [insert] returns an id, it is the id of the [File] row, which
    is [ok] with no error message; the large-chunk rows added are the chunks
    of the text, in order, one row each; for every one of them the
    small-chunk rows are the small chunker's chunks of its text, in order;
    and its summary rows are one row with the generated summary (the first
    200 characters of the chunk when the generation service fails), or none
    when summaries are disabled. *)
Theorem insert_stores_the_chunks (self : NeoInserter) (env : Env) (db db' : Db)
    (title text fid : string) :
  insert self env db title text = (Returned (Some fid), db') ->
  fid = new_file_id env /\
  files db' !! fid =
  Some {| file_id := fid; file_title := title; status := OK;
          error_message := None |} /\
  exists chunks rows,
    Chunker.chunk split_text (big_chunker self) text = Ok chunks /\
    chunks <> [] /\
    big_chunks db' = big_chunks db ++ rows /\
    Forall2 (fun chunk row =>
               big_file_id row = fid /\ big_text row = chunk /\
               Chunker.chunk split_text (small_chunker self) chunk
               = Ok (map small_text (small_rows row)) /\
               map summary_text (summary_rows row)
               = (if enable_summaries self
                  then [summary_text_of env chunk] else []))
            chunks rows.
Proof.
  intros H. apply insert_returned in H
    as (-> & _ & big_work & Hp & Hfiles & Hrows).
  split; [reflexivity|]. split; [rewrite Hfiles; apply lookup_insert_eq|].
  apply prepare_work in Hp
    as (chunks & cs & ws & es & Hchunk & Hne & Hcs & _ & Hlen & -> & Hf).
  exists chunks, (map (row_of (new_file_id env))
                      (imap (work_of (zip ws es)) chunks)).
  split; [exact Hchunk|]. split; [exact Hne|]. split; [exact Hrows|].
  change (map ?f ?l) with (f <$> l). rewrite fmap_imap.
  apply Forall2_imap_r. intros i t Ht.
  exact (row_of_work self env chunks cs ws es (new_file_id env) i t
           Hcs Hlen Hf Ht).
Qed.

Lemma embed_in_batches_pointwise self env payload es (f : string -> Vec) :
  (forall batch, embedder env batch = Ok (map f batch)) ->
  _embed_in_batches self env payload = Ok es ->
  es = map f payload.
Proof.
  intros Hf. destruct (Nat.eq_dec (batch_size self) 0) as [E|Hne].
  - unfold _embed_in_batches, py_range.
    destruct payload; [now intros [= <-]|]. rewrite E. discriminate.
  - rewrite embed_in_batches_unfold by lia.
    rewrite (foldM_pointwise _ f _ [] Hf).
    destruct (embed_batches_cover self payload) as [-> _]; [lia|].
    now intros [= <-].
Qed.

(** X24.  The vectors stay with their texts.  With an embedding service
    that embeds each text by itself, every small-chunk row and every
    summary row stored by a successful [insert] carries the embedding of
    its own text, whatever the batch size. *)
Theorem insert_stores_aligned_embeddings (self : NeoInserter) (env : Env)
    (db db' : Db) (title text fid : string) (f : string -> Vec) :
  (forall batch, embedder env batch = Ok (map f batch)) ->
  insert self env db title text = (Returned (Some fid), db') ->
  exists rows,
    big_chunks db' = big_chunks db ++ rows /\
    Forall (fun row =>
              Forall (fun r => small_embedding r = f (small_text r))
                     (small_rows row) /\
              Forall (fun r => summary_embedding r = f (summary_text r))
                     (summary_rows row))
           rows.
Proof.
  intros Hf H. apply insert_returned in H
    as (-> & _ & big_work & Hp & _ & Hrows).
  exists (map (row_of (new_file_id env)) big_work).
  split; [exact Hrows|].
  apply prepare_work in Hp
    as (chunks & cs & ws & es & _ & _ & _ & Hes & _ & -> & _).
  apply (embed_in_batches_pointwise _ _ _ _ f Hf) in Hes. subst es.
  assert (Forall (fun it => snd it = f (item_text (fst it)))
                 (zip ws (map f (map item_text ws)))) as Hall.
  { clear. induction ws; simpl; constructor; auto. }
  apply Forall_map. apply List.Forall_forall. intros bw Hbw.
  apply list_elem_of_In, list_elem_of_lookup in Hbw as [i Hbw].
  rewrite list_lookup_imap in Hbw.
  destruct (chunks !! i) as [t|]; [|discriminate]. injection Hbw as <-.
  unfold row_of, work_of. simpl. split.
  - apply Forall_map. apply List.Forall_forall. intros it Hit.
    apply filter_In in Hit as [Hit _]. rewrite List.Forall_forall in Hall.
    exact (Hall it Hit).
  - destruct (last _) as [[w v]|] eqn:El; [|constructor].
    apply last_Some in El as [l' El].
    assert (In (w, v) (zip ws (map f (map item_text ws)))) as Hin.
    { assert (In (w, v) (l' ++ [(w, v)])) as Hin
        by (apply in_or_app; right; now left).
      rewrite <- El in Hin. now apply filter_In in Hin as [Hin _]. }
    rewrite List.Forall_forall in Hall. specialize (Hall _ Hin).
    repeat constructor. exact Hall.
Qed.

(** X25.  [insert] returns [None] only for a text that the large chunker
    splits into no chunk at all; the call then adds no chunk row and leaves
    the [File] row it created in status [processing]. *)
Theorem insert_returns_none_without_chunks (self : NeoInserter) (env : Env)
    (db db' : Db) (title text : string) :
  insert self env db title text = (Returned None, db') ->
  Chunker.chunk split_text (big_chunker self) text = Ok [] /\
  big_chunks db' = big_chunks db /\
  files db' !! new_file_id env =
  Some {| file_id := new_file_id env; file_title := title;
          status := PROCESSING; error_message := None |}.
Proof.
  unfold insert.
  destruct (session_scope (commit env Bootstrap) db (bootstrap env title))
    as [[fid0|e] db1] eqn:Eb; [|discriminate].
  apply bootstrap_scope in Eb as (-> & Hrows & Hfile).
  unfold attempt.
  destruct (prepare self env text) as [[big_work|]|e] eqn:Ep.
  - destruct (session_scope (commit env Persist) _ _) as [[u|e] db2];
      [discriminate|].
    destruct (session_scope (commit env MarkFailed) _ _) as [[u'|e'] d];
      discriminate.
  - intros [= <-]. split; [|auto]. revert Ep. unfold prepare.
    destruct (Chunker.chunk split_text (big_chunker self) text)
      as [chunks|e]; simpl; [|discriminate].
    destruct chunks as [|t0 chunks]; [reflexivity|].
    set (texts := t0 :: chunks).
    destruct (foldM (collect self env) [] (imap pair texts)) as [ws|e];
      simpl; [|discriminate].
    destruct (_embed_in_batches self env (map item_text ws)) as [es|e];
      simpl; [|discriminate].
    destruct (zip_strict ws es) as [items|e]; simpl; discriminate.
  - destruct (session_scope (commit env MarkFailed) _ _) as [[u'|e'] d];
      discriminate.
Qed.

(** X26.  Whatever its outcome, [insert] changes no [File] row but the one
    it creates and removes no chunk row; and when its first transaction
    fails, the store is left as it was. *)
Theorem insert_touches_one_file (self : NeoInserter) (env : Env) (db : Db)
    (title text : string) :
  (forall other,
      other <> new_file_id env ->
      files (snd (insert self env db title text)) !! other
      = files db !! other) /\
  (exists rows,
      big_chunks (snd (insert self env db title text))
      = big_chunks db ++ rows) /\
  (forall e,
      fst (insert self env db title text) = BootstrapRaised e ->
      snd (insert self env db title text) = db).
Proof.
  unfold insert.
  destruct (session_scope (commit env Bootstrap) db (bootstrap env title))
    as [[fid0|e] db1] eqn:Eb.
  2:{ assert (db1 = db) as ->.
      { unfold session_scope in Eb.
        destruct (bootstrap env title db) as [[a d]|e0];
          [destruct (commit env Bootstrap)|]; congruence. }
      simpl. split; [auto|]. split; [exists []; now rewrite app_nil_r|auto]. }
  assert (fid0 = new_file_id env /\
          big_chunks db1 = big_chunks db /\
          forall other, other <> new_file_id env ->
                        files db1 !! other = files db !! other)
    as (-> & Hrows1 & Hfiles1).
  { unfold session_scope, bootstrap in Eb.
    destruct (files db !! new_file_id env); [discriminate|].
    destruct (commit env Bootstrap); [|discriminate].
    injection Eb as <- <-. simpl. split; [reflexivity|]. split; [reflexivity|].
    intros other Hne. now apply lookup_insert_ne. }
  assert (forall db2 r,
             attempt self env db1 (new_file_id env) text = (r, db2) ->
             (forall other, other <> new_file_id env ->
                            files db2 !! other = files db1 !! other) /\
             exists rows, big_chunks db2 = big_chunks db1 ++ rows) as Hattempt.
  { intros db2 r. unfold attempt, session_scope, persist.
    destruct (prepare self env text) as [[big_work|]|e].
    - destruct (files db1 !! new_file_id env) as [file_obj|].
      + destruct (commit env Persist).
        * intros [= <- <-]. simpl. split; [|eauto].
          intros other Hne. now apply lookup_insert_ne.
        * intros [= <- <-]. split; [auto|exists []; now rewrite app_nil_r].
      + intros [= <- <-]. split; [auto|exists []; now rewrite app_nil_r].
    - intros [= <- <-]. split; [auto|exists []; now rewrite app_nil_r].
    - intros [= <- <-]. split; [auto|exists []; now rewrite app_nil_r]. }
  destruct (attempt self env db1 (new_file_id env) text) as [ra db2].
  destruct (Hattempt _ _ eq_refl) as [Hfiles2 [rows Hrows2]]. clear Hattempt.
  destruct ra as [r|exc].
  - simpl. split; [|split; [|discriminate]].
    + intros other Hne. rewrite Hfiles2, Hfiles1; auto.
    + exists rows. now rewrite Hrows2, Hrows1.
  - assert (forall db3 r3,
               session_scope (commit env MarkFailed) db2
                 (mark_failed (new_file_id env) exc) = (r3, db3) ->
               (forall other, other <> new_file_id env ->
                              files db3 !! other = files db2 !! other) /\
               big_chunks db3 = big_chunks db2) as Hmark.
    { intros db3 r3. unfold session_scope, mark_failed.
      destruct (files db2 !! new_file_id env) as [file_row|].
      - destruct (commit env MarkFailed).
        + intros [= <- <-]. simpl. split; [|reflexivity].
          intros other Hne. now apply lookup_insert_ne.
        + intros [= <- <-]. auto.
      - destruct (commit env MarkFailed); intros [= <- <-]; auto. }
    destruct (session_scope (commit env MarkFailed) db2 _) as [rm db3].
    destruct (Hmark _ _ eq_refl) as [Hfiles3 Hrows3]. clear Hmark.
    destruct rm as [u|e3]; simpl;
      (split; [|split; [|discriminate]]);
      [intros other Hne; rewrite Hfiles3, Hfiles2, Hfiles1; auto
      |exists rows; now rewrite Hrows3, Hrows2, Hrows1
      |intros other Hne; rewrite Hfiles3, Hfiles2, Hfiles1; auto
      |exists rows; now rewrite Hrows3, Hrows2, Hrows1].
Qed.

End WithSplitter.

(** *** Runs of [insert] on an empty store *)

Definition default_inserter : NeoInserter :=
  {| enable_summaries := true;
     big_chunker :=
       {| Chunker.max_size := 7000; Chunker.chunk_size := 5000;
          Chunker.min_size := 3000; Chunker.merge_reversed := false |};
     small_chunker :=
       {| Chunker.max_size := 1024; Chunker.chunk_size := 512;
          Chunker.min_size := 256; Chunker.merge_reversed := false |};
     batch_size := 128 |}.

Example new_default :
  new 5000 7000 3000 512 1024 256 128 true = Ok default_inserter.
Proof. reflexivity. Qed.

Definition empty_db : Db := {| files := ∅; big_chunks := [] |}.

Definition healthy_generator : Generator :=
  {| invoke := fun _ => Ok "text";
     invoke_stream := fun _ => ([], None);
     chat_completion := fun _ => Ok "a summary";
     count_conversation_tokens := fun _ => Ok 0%Z |}.

(** Every service answers and every transaction commits. *)
Definition healthy_env : Env :=
  {| new_file_id := "file-1";
     generator := healthy_generator;
     embedder := fun batch => Ok (map (fun _ => [0%Z]) batch);
     commit := fun _ => Ok () |}.

(** The embedding service is down. *)
Definition embedder_down_env : Env :=
  {| new_file_id := "file-1";
     generator := healthy_generator;
     embedder := fun _ => Raise (ServiceError "embedding service unavailable");
     commit := fun _ => Ok () |}.

Definition run (env : Env) (text : string) : Outcome * Db :=
  insert Chunker.fixed_size_splitter "Summarize." default_inserter env empty_db
         "notes.md" text.

Example insert_ok :
  fst (run healthy_env "hello") = Returned (Some "file-1") /\
  status <$> files (snd (run healthy_env "hello")) !! "file-1" = Some OK /\
  big_chunks (snd (run healthy_env "hello")) =
  [ {| big_file_id := "file-1"; big_text := "hello";
       summary_rows := [ {| summary_text := "a summary";
                            summary_embedding := [0%Z] |} ];
       small_rows := [ {| small_text := "hello";
                          small_embedding := [0%Z] |} ] |} ].
Proof. vm_compute. auto. Qed.

Lemma insert_failure_marks_failed_witness :
  fst (run embedder_down_env "hello")
  = Reraised (ServiceError "embedding service unavailable") /\
  (exists f, files (snd (run embedder_down_env "hello")) !! "file-1" = Some f /\
             status f = FAILED /\
             error_message f = Some "embedding service unavailable") /\
  big_chunks (snd (run embedder_down_env "hello")) = [].
Proof.
  split; [vm_compute; reflexivity|].
  refine (proj2 (insert_failure_marks_failed Chunker.fixed_size_splitter
                   "Summarize." default_inserter embedder_down_env empty_db
                   (snd (run embedder_down_env "hello")) "notes.md" "hello"
                   (ServiceError "embedding service unavailable") _)).
  vm_compute; reflexivity.
Defined.

Lemma embed_in_batches_sends_every_text_once_witness :
  exists batches,
    concat batches = ["a"; "b"; "c"] /\
    Forall (fun batch => (1 <= length batch <= 128)%nat) batches /\
    _embed_in_batches default_inserter healthy_env ["a"; "b"; "c"] =
    foldM (fun acc batch =>
             embeds ← embedder healthy_env batch; Ok (acc ++ embeds))
          [] batches /\
    forall f,
      (forall batch, embedder healthy_env batch = Ok (map f batch)) ->
      _embed_in_batches default_inserter healthy_env ["a"; "b"; "c"]
      = Ok (map f ["a"; "b"; "c"]).
Proof.
  apply (embed_in_batches_sends_every_text_once default_inserter healthy_env
           ["a"; "b"; "c"]).
  simpl. lia.
Defined.

Lemma insert_stores_the_chunks_witness :
  fst (run healthy_env "hello") = Returned (Some "file-1") /\
  files (snd (run healthy_env "hello")) !! "file-1" =
  Some {| file_id := "file-1"; file_title := "notes.md"; status := OK;
          error_message := None |} /\
  exists chunks rows,
    Chunker.chunk Chunker.fixed_size_splitter (big_chunker default_inserter)
                  "hello" = Ok chunks /\
    chunks <> [] /\
    big_chunks (snd (run healthy_env "hello")) = big_chunks empty_db ++ rows /\
    Forall2 (fun chunk row =>
               big_file_id row = "file-1" /\ big_text row = chunk /\
               Chunker.chunk Chunker.fixed_size_splitter
                             (small_chunker default_inserter) chunk
               = Ok (map small_text (small_rows row)) /\
               map summary_text (summary_rows row)
               = (if enable_summaries default_inserter
                  then [summary_text_of "Summarize." healthy_env chunk]
                  else []))
            chunks rows.
Proof.
  split; [vm_compute; reflexivity|].
  refine (proj2 (insert_stores_the_chunks Chunker.fixed_size_splitter
                   "Summarize." default_inserter healthy_env empty_db
                   (snd (run healthy_env "hello")) "notes.md" "hello"
                   "file-1" _)).
  vm_compute; reflexivity.
Defined.

Lemma insert_stores_aligned_embeddings_witness :
  exists rows,
    big_chunks (snd (run healthy_env "hello")) = big_chunks empty_db ++ rows /\
    Forall (fun row =>
              Forall (fun r => small_embedding r = [0%Z]) (small_rows row) /\
              Forall (fun r => summary_embedding r = [0%Z]) (summary_rows row))
           rows.
Proof.
  refine (insert_stores_aligned_embeddings Chunker.fixed_size_splitter
            "Summarize." default_inserter healthy_env empty_db
            (snd (run healthy_env "hello")) "notes.md" "hello" "file-1"
            (fun _ => [0%Z]) _ _).
  - intros batch. reflexivity.
  - vm_compute; reflexivity.
Defined.

Lemma insert_returns_none_without_chunks_witness :
  Chunker.chunk Chunker.fixed_size_splitter (big_chunker default_inserter)
                "---" = Ok [] /\
  big_chunks (snd (run healthy_env "---")) = big_chunks empty_db /\
  files (snd (run healthy_env "---")) !! "file-1" =
  Some {| file_id := "file-1"; file_title := "notes.md";
          status := PROCESSING; error_message := None |}.
Proof.
  refine (insert_returns_none_without_chunks Chunker.fixed_size_splitter
            "Summarize." default_inserter healthy_env empty_db
            (snd (run healthy_env "---")) "notes.md" "---" _).
  vm_compute; reflexivity.
Defined.

(** The store is lost after the first transaction: the last transaction
    and the failure handler's transaction both fail to commit. *)
Definition store_lost_env : Env :=
  {| new_file_id := "file-1";
     generator := healthy_generator;
     embedder := fun batch => Ok (map (fun _ => [0%Z]) batch);
     commit := fun phase =>
                 match phase with
                 | Bootstrap => Ok ()
                 | Persist | MarkFailed =>
                     Raise (ServiceError "connection lost")
                 end |}.

(** The store after the first transaction of [run]. *)
Definition bootstrapped (env : Env) : Db :=
  snd (session_scope (commit env Bootstrap) empty_db
                     (bootstrap env "notes.md")).

Lemma insert_failure_depends_on_handler_witness :
  big_chunks (snd (run embedder_down_env "hello")) = big_chunks empty_db /\
  fst (run embedder_down_env "hello")
  = Reraised (ServiceError "embedding service unavailable") /\
  files (snd (run embedder_down_env "hello")) !! "file-1" =
  Some {| file_id := "file-1"; file_title := "notes.md"; status := FAILED;
          error_message := Some "embedding service unavailable" |}.
Proof.
  refine (insert_failure_depends_on_handler Chunker.fixed_size_splitter
            "Summarize." default_inserter embedder_down_env empty_db
            (bootstrapped embedder_down_env) "notes.md" "hello" "file-1"
            (ServiceError "embedding service unavailable") _ _);
    vm_compute; reflexivity.
Defined.

(** C7, as the claim has it.  The last transaction of [insert] fails to
    commit, so the [try] block raises; the failure handler's transaction
    fails in the same way; [insert] raises to its caller, and the [File] row
    of the call is not [failed]: it keeps status [processing] and has no
    error message. *)
Theorem insert_failure_left_processing :
  fst (attempt Chunker.fixed_size_splitter "Summarize." default_inserter
               store_lost_env (bootstrapped store_lost_env) "file-1" "hello")
  = Raise (ServiceError "connection lost") /\
  fst (run store_lost_env "hello")
  = HandlerRaised (ServiceError "connection lost") /\
  files (snd (run store_lost_env "hello")) !! "file-1" =
  Some {| file_id := "file-1"; file_title := "notes.md";
          status := PROCESSING; error_message := None |} /\
  big_chunks (snd (run store_lost_env "hello")) = [].
Proof. vm_compute. auto. Qed.

(** C2, on the code.  [insert] of an empty text returns [None] and leaves
    the row it created in status [processing]. *)
Theorem insert_empty_text_stays_processing :
  fst (run healthy_env "") = Returned None /\
  status <$> files (snd (run healthy_env "")) !! "file-1" = Some PROCESSING /\
  big_chunks (snd (run healthy_env "")) = [].
Proof. vm_compute. auto. Qed.

End Inserter.

(** ** llm_client/reranker.py *)

Module Reranker.

Section Rerank.

Variable score : Type.

(** What the request of [_rerank] gives when [client.post] and
    [response.json()] return: a response whose [raise_for_status()] raises
    the [RequestException] [e], a body [data] without the key ["results"],
    or the entries [(c['index'], c['relevance_score'])] of
    [data["results"]]. *)
Inductive Response : Type :=
| HttpError (e : string)
| Malformed (data : string)
| Results (results : list (nat * score)).

(** The rerank service behind [self.client]: [post query documents]; an
    exception of [client.post] or [response.json()] is raised as it is. *)
Record Service : Type := {
  post : string -> list string -> result Response
}.

Definition _rerank (svc : Service) (query : string) (candidates : list string)
    (batch_idx : nat) : result (list (nat * score)) :=
  response ← post svc query candidates;
  match response with
  | HttpError e => Raise (RuntimeError ("Rerank request failed: " +:+ e))
  | Malformed data =>
      Raise (ValueError ("Unexpected rerank response format: " +:+ data))
  | Results results =>
      Ok (map (fun c => ((batch_idx + fst c)%nat, snd c)) results)
  end.

(** [range(0, stop, step)] for any integer [step]. *)
Definition py_range0 (stop : nat) (step : Z) : result (list nat) :=
  if (step =? 0)%Z then Raise (ValueError "range() arg 3 must not be zero")
  else if (step <? 0)%Z then Ok []
  else Ok (Inserter.range_from stop 0 stop (Z.to_nat step)).

(** [sorted(results, key=lambda x: x[0])]: ascending by key, items with
    equal keys in their original order.  [insert_asc] passes the items whose
    key is smaller. *)
Fixpoint insert_asc {A : Type} (key : A -> nat) (x : A) (l : list A) : list A :=
  match l with
  | [] => [x]
  | y :: rest =>
      if (key y <? key x)%nat then y :: insert_asc key x rest else x :: l
  end.

Definition sort_asc {A : Type} (key : A -> nat) (l : list A) : list A :=
  fold_right (insert_asc key) [] l.

Definition rerank (svc : Service) (query : string) (candidates : list string)
    (batch_size : Z) : result (list (nat * score)) :=
  starts ← py_range0 (length candidates) batch_size;
  results ←
    foldM (fun results i =>
             let batch := take (Z.to_nat batch_size) (drop i candidates) in
             r ← _rerank svc query batch i;
             Ok (results ++ r))
          [] starts;
  Ok (sort_asc fst results).

(** The answer expected for the documents [batch]: one entry per document,
    with its position and its score. *)
Definition scored (f : string -> score) (batch : list string)
  : list (nat * score) :=
  imap (fun i d => (i, f d)) batch.

Lemma insert_asc_perm {A : Type} (key : A -> nat) x l :
  Permutation (insert_asc key x l) (x :: l).
Proof.
  induction l as [|y l IH]; simpl; [reflexivity|].
  destruct (key y <? key x)%nat; [|reflexivity].
  rewrite IH. apply perm_swap.
Qed.

Lemma sort_asc_perm {A : Type} (key : A -> nat) l :
  Permutation (sort_asc key l) l.
Proof.
  induction l as [|x l IH]; simpl; [reflexivity|].
  rewrite insert_asc_perm. now constructor.
Qed.

Lemma insert_asc_sorted {A : Type} (key : A -> nat) x l :
  StronglySorted (fun a b => (key a <= key b)%nat) l ->
  StronglySorted (fun a b => (key a <= key b)%nat) (insert_asc key x l).
Proof.
  induction 1 as [|y l Hs IH Hy]; simpl.
  - repeat constructor.
  - destruct (key y <? key x)%nat eqn:E.
    + apply Nat.ltb_lt in E. constructor; [exact IH|].
      rewrite List.Forall_forall in *. intros z Hz.
      apply (Permutation_in _ (insert_asc_perm key x l)) in Hz.
      destruct Hz as [<-|Hz]; [lia|auto].
    + apply Nat.ltb_ge in E. constructor; [now constructor|].
      constructor; [exact E|].
      rewrite List.Forall_forall in *. intros z Hz. specialize (Hy z Hz). lia.
Qed.

Lemma sort_asc_sorted {A : Type} (key : A -> nat) l :
  StronglySorted (fun a b => (key a <= key b)%nat) (sort_asc key l).
Proof.
  induction l as [|x l IH]; simpl; [constructor|].
  now apply insert_asc_sorted.
Qed.

Lemma scored_keys (f : string -> score) (l : list string) :
  map fst (scored f l) = seq 0 (length l).
Proof.
  unfold scored. change (map fst ?x) with (fst <$> x). rewrite fmap_imap.
  rewrite (imap_ext _ (fun i _ => i)) by reflexivity.
  rewrite imap_seq_0. apply list_fmap_id.
Qed.

Lemma scored_sorted (f : string -> score) (l : list string) :
  StronglySorted (fun a b => (fst a <= fst b)%nat) (scored f l).
Proof.
  assert (forall (t : list (nat * score)) k,
             map fst t = seq k (length t) ->
             StronglySorted (fun a b => (fst a <= fst b)%nat) t) as H.
  { induction t as [|a t IH]; intros k Hk; [constructor|].
    simpl in Hk. injection Hk as Ha Ht. constructor; [eauto|].
    rewrite List.Forall_forall. intros b Hb.
    apply (in_map fst) in Hb. rewrite Ht in Hb. apply in_seq in Hb. lia. }
  apply (H _ 0%nat). rewrite scored_keys. unfold scored.
  now rewrite length_imap.
Qed.

Lemma sorted_perm_unique {A : Type} (R : A -> A -> Prop) (l1 l2 : list A) :
  (forall x y, In x l1 -> In y l1 -> R x y -> R y x -> x = y) ->
  StronglySorted R l1 -> StronglySorted R l2 -> Permutation l1 l2 -> l1 = l2.
Proof.
  intros Hanti H1. revert l2.
  induction H1 as [|a l1 Hs1 IH Ha]; intros l2 H2 Hp.
  - apply Permutation_nil in Hp. now subst.
  - destruct H2 as [|b l2 Hs2 Hb].
    + symmetry in Hp. apply Permutation_nil in Hp. discriminate.
    + assert (a = b) as <-.
      { assert (In a (b :: l2)) as Hin
          by (apply (Permutation_in _ Hp); now left).
        assert (In b (a :: l1)) as Hin'
          by (apply (Permutation_in _ (Permutation_sym Hp)); now left).
        destruct Hin as [->|Hin]; [reflexivity|].
        destruct Hin' as [->|Hin']; [reflexivity|].
        rewrite List.Forall_forall in Ha, Hb.
        apply Hanti; [now left|now right|auto|auto]. }
      f_equal. apply IH; [|exact Hs2|now apply Permutation_cons_inv in Hp].
      intros x y Hx Hy. apply Hanti; now right.
Qed.

(** A permutation of the expected answer is put back in order by the sort. *)
Lemma sort_asc_scored (f : string -> score) (l : list string)
    (results : list (nat * score)) :
  Permutation results (scored f l) ->
  sort_asc fst results = scored f l.
Proof.
  intros Hp. symmetry.
  apply (sorted_perm_unique (fun a b => (fst a <= fst b)%nat)).
  - intros [i a] [j b] Hi Hj Hab Hba. simpl in *.
    assert (i = j) as <- by lia. f_equal.
    apply list_elem_of_In, list_elem_of_lookup in Hi as [n Hn].
    apply list_elem_of_In, list_elem_of_lookup in Hj as [m Hm].
    unfold scored in Hn, Hm. rewrite list_lookup_imap in Hn, Hm.
    destruct (l !! n) as [d|] eqn:En; [|discriminate].
    destruct (l !! m) as [d'|] eqn:Em; [|discriminate].
    simpl in Hn, Hm. injection Hn as <- <-. injection Hm as Hnm <-.
    subst m. congruence.
  - apply scored_sorted.
  - apply sort_asc_sorted.
  - symmetry. now rewrite sort_asc_perm.
Qed.

(** The entries of a batch, numbered from its start, are the entries of the
    whole list at the batch's place. *)
Lemma scored_slice (f : string -> score) (l : list string) (step i : nat) :
  map (fun c => ((i + fst c)%nat, snd c)) (scored f (take step (drop i l)))
  = take step (drop i (scored f l)).
Proof.
  apply list_eq. intros k. unfold scored.
  change (map ?g ?x) with (g <$> x).
  rewrite list_lookup_fmap, list_lookup_imap.
  destruct (decide (k < step)%nat) as [Hk|Hk].
  - rewrite !lookup_take_lt, !lookup_drop, list_lookup_imap by exact Hk.
    now destruct (l !! (i + k)%nat).
  - now rewrite !lookup_take_ge by lia.
Qed.

Lemma foldM_batches (svc : Service) (query : string) (f : string -> score)
    (candidates : list string) (step : nat) :
  (forall batch,
      exists results,
        post svc query batch = Ok (Results results) /\
        Permutation results (scored f batch)) ->
  forall starts acc,
  exists results,
    foldM (fun results i =>
             let batch := take step (drop i candidates) in
             r ← _rerank svc query batch i;
             Ok (results ++ r))
          acc starts
    = Ok (acc ++ results) /\
    Permutation results
      (concat (map (fun i => take step (drop i (scored f candidates)))
                   starts)).
Proof.
  intros Hsvc. induction starts as [|i starts IH]; intros acc; simpl.
  - exists []. now rewrite app_nil_r.
  - destruct (Hsvc (take step (drop i candidates))) as (r & Hpost & Hr).
    assert (_rerank svc query (take step (drop i candidates)) i
            = Ok (map (fun c => ((i + fst c)%nat, snd c)) r)) as ->
      by (unfold _rerank; now rewrite Hpost).
    destruct (IH (acc ++ map (fun c => ((i + fst c)%nat, snd c)) r))
      as (rest & Hfold & Hrest).
    exists (map (fun c => ((i + fst c)%nat, snd c)) r ++ rest).
    split; [simpl in Hfold |- *; rewrite Hfold; now rewrite app_assoc|].
    apply Permutation_app; [|exact Hrest].
    rewrite <- scored_slice. now apply Permutation_map.
Qed.

Lemma rerank_restores_candidate_order_aux (svc : Service) (query : string)
    (candidates : list string) (batch_size : Z) (f : string -> score) :
  (1 <= batch_size)%Z ->
  (forall batch,
      exists results,
        post svc query batch = Ok (Results results) /\
        Permutation results (scored f batch)) ->
  rerank svc query candidates batch_size = Ok (scored f candidates).
Proof.
  intros Hb Hsvc. unfold rerank, py_range0.
  destruct (batch_size =? 0)%Z eqn:E0; [apply Z.eqb_eq in E0; lia|].
  destruct (batch_size <? 0)%Z eqn:E1; [apply Z.ltb_lt in E1; lia|].
  destruct (foldM_batches svc query f candidates (Z.to_nat batch_size) Hsvc
              (Inserter.range_from (length candidates) 0 (length candidates)
                 (Z.to_nat batch_size)) [])
    as (results & Hfold & Hperm).
  simpl in Hfold |- *. rewrite Hfold. simpl. f_equal. apply sort_asc_scored.
  rewrite Hperm.
  assert (length (scored f candidates) = length candidates) as Hlen
    by (unfold scored; now rewrite length_imap).
  rewrite <- Hlen.
  destruct (Inserter.range_from_slices (scored f candidates)
              (Z.to_nat batch_size) ltac:(lia)
              (length (scored f candidates)) 0%nat ltac:(lia)) as [-> _].
  reflexivity.
Qed.

(** X27.  [rerank] gives the candidates' scores in the candidates' order:
    when the service answers every batch with one entry per document, in
    any order, each with the document's position in the batch and its
    score, the result lists every candidate once, at its own position, with
    its own score, whatever the batch size. *)
Theorem rerank_restores_candidate_order (svc : Service) (query : string)
    (candidates : list string) (batch_size : Z) (f : string -> score) :
  (1 <= batch_size)%Z ->
  (forall batch,
      exists results,
        post svc query batch = Ok (Results results) /\
        Permutation results (scored f batch)) ->
  rerank svc query candidates batch_size = Ok (scored f candidates).
Proof. apply rerank_restores_candidate_order_aux. Qed.

Lemma foldM_steps_ok {B : Type} (g : nat -> result (list B))
    (starts : list nat) (acc res : list B) :
  foldM (fun results i => r ← g i; Ok (results ++ r)) acc starts = Ok res ->
  Forall (fun i => exists r, g i = Ok r) starts.
Proof.
  revert acc. induction starts as [|i starts IH]; intros acc; simpl;
    [constructor|].
  destruct (g i) as [r|e] eqn:E; simpl; [|discriminate].
  intros H. constructor; [eauto|]. exact (IH _ H).
Qed.

(** X28.  [rerank] returns nothing partial: when it returns, the candidates
    were sent in consecutive batches of one to [batch_size] documents and
    the service answered every one of them with results; one request that
    raises, an error status or an answer without results makes the whole
    call raise. *)
Theorem rerank_needs_every_batch (svc : Service) (query : string)
    (candidates : list string) (batch_size : Z)
    (results : list (nat * score)) :
  (1 <= batch_size)%Z ->
  rerank svc query candidates batch_size = Ok results ->
  exists batches,
    concat batches = candidates /\
    Forall (fun batch =>
              (1 <= Z.of_nat (length batch) <= batch_size)%Z /\
              exists r, post svc query batch = Ok (Results r))
           batches.
Proof.
  intros Hb. unfold rerank, py_range0.
  destruct (batch_size =? 0)%Z eqn:E0; [apply Z.eqb_eq in E0; lia|].
  destruct (batch_size <? 0)%Z eqn:E1; [apply Z.ltb_lt in E1; lia|].
  set (step := Z.to_nat batch_size).
  set (starts := Inserter.range_from (length candidates) 0 (length candidates)
                   step).
  change (Ok starts ≫= ?k) with (k starts). cbv beta.
  destruct (foldM _ [] starts) as [res|e] eqn:Ef; simpl; [|discriminate].
  intros _.
  apply (foldM_steps_ok
           (fun i => _rerank svc query (take step (drop i candidates)) i))
    in Ef.
  destruct (Inserter.range_from_slices candidates step ltac:(unfold step; lia)
              (length candidates) 0%nat ltac:(lia)) as [Hc Hall].
  fold starts in Hc, Hall.
  exists (map (fun i => take step (drop i candidates)) starts).
  split; [exact Hc|].
  apply Forall_map. rewrite List.Forall_forall in *. intros i Hi.
  specialize (Hall i Hi). destruct (Ef i Hi) as [r Hr]. split.
  - rewrite length_take, length_drop. unfold step. lia.
  - unfold _rerank in Hr.
    destruct (post svc query _) as [[e|data|r']|e]; try discriminate. eauto.
Qed.

Variable sleb : score -> score -> bool.

(** X29.  The retriever pairs every large chunk with the score of its own
    text.  With [Reranker.rerank] at its default batch size behind
    [_rerank_chunks_with_scores], and a service that answers each batch with
    one entry per document in any order, the chunks come back in descending
    order of the score of their text (ties in their original order), each
    with that score. *)
Theorem reranked_chunks_carry_their_scores (rsvc : Service)
    (svc : Retriever.Services score) (query : string)
    (big_chunks : list Retriever.BigChunk) (f : string -> score) :
  Retriever.rerank score svc = (fun q c => rerank rsvc q c 128) ->
  (forall batch,
      exists results,
        post rsvc query batch = Ok (Results results) /\
        Permutation results (scored f batch)) ->
  let sorted_pairs :=
    Retriever.sort_desc score sleb snd
      (map (fun c => (c, f (Retriever.text c))) big_chunks) in
  Retriever._rerank_chunks_with_scores score sleb svc query big_chunks
  = Ok (map fst sorted_pairs, map snd sorted_pairs).
Proof.
  intros Hsvc Hpost sorted_pairs. unfold Retriever._rerank_chunks_with_scores.
  destruct big_chunks as [|c cs] eqn:Ebc; [reflexivity|]. rewrite <- Ebc.
  rewrite Hsvc.
  rewrite (rerank_restores_candidate_order_aux rsvc query _ 128 f
             ltac:(lia) Hpost).
  simpl.
  assert (zip big_chunks
              (map snd (scored f (map Retriever.text big_chunks)))
          = map (fun c => (c, f (Retriever.text c))) big_chunks) as ->.
  { unfold scored. clear.
    assert (forall (g : nat -> nat) (l : list Retriever.BigChunk),
               zip l (map snd (imap (fun i d => (g i, f d))
                                    (map Retriever.text l)))
               = map (fun c => (c, f (Retriever.text c))) l) as H.
    { intros g l. revert g. induction l as [|a l IH]; intros g; simpl;
        [reflexivity|].
      f_equal. exact (IH (g ∘ S)). }
    exact (H (fun i => i) big_chunks). }
  unfold sorted_pairs. now rewrite Ebc.
Qed.

End Rerank.

Arguments HttpError {score} e.
Arguments Malformed {score} data.
Arguments Results {score} results.

(** *** A service that lists the documents of a batch last first *)

Definition length_score (d : string) : Q :=
  inject_Z (Z.of_nat (String.length d)).

Definition reversing_service : Service Q :=
  {| post := fun _ documents =>
               Ok (Results (rev (scored Q length_score documents))) |}.

Lemma reversing_service_answers (query : string) (batch : list string) :
  exists results,
    post Q reversing_service query batch = Ok (Results results) /\
    Permutation results (scored Q length_score batch).
Proof.
  eexists. split; [reflexivity|]. symmetry. apply Permutation_rev.
Qed.

Lemma rerank_restores_candidate_order_witness :
  rerank Q reversing_service "q" ["aa"; "b"; "cccc"] 2
  = Ok (scored Q length_score ["aa"; "b"; "cccc"]).
Proof.
  apply rerank_restores_candidate_order; [lia|].
  apply reversing_service_answers.
Defined.

Lemma rerank_needs_every_batch_witness :
  exists batches,
    concat batches = ["aa"; "b"; "cccc"] /\
    Forall (fun batch =>
              (1 <= Z.of_nat (length batch) <= 2)%Z /\
              exists r, post Q reversing_service "q" batch = Ok (Results r))
           batches.
Proof.
  apply (rerank_needs_every_batch Q reversing_service "q" ["aa"; "b"; "cccc"]
           2 (scored Q length_score ["aa"; "b"; "cccc"])); [lia|].
  vm_compute. reflexivity.
Defined.

Definition reranking_services : Retriever.Services Q :=
  {| Retriever.embedder := fun _ => Ok [1%Q];
     Retriever.nearest := fun _ _ _ => Ok [];
     Retriever.select_big_chunks := fun _ => Ok [];
     Retriever.rerank := fun q c => rerank Q reversing_service q c 128 |}.

Lemma reranked_chunks_carry_their_scores_witness :
  Retriever._rerank_chunks_with_scores Q Qle_bool reranking_services "q"
    [ {| Retriever.id := "a"; Retriever.text := "aa" |};
      {| Retriever.id := "b"; Retriever.text := "bbbb" |} ]
  = Ok ([ {| Retriever.id := "b"; Retriever.text := "bbbb" |};
          {| Retriever.id := "a"; Retriever.text := "aa" |} ],
        [inject_Z 4; inject_Z 2]).
Proof.
  exact (reranked_chunks_carry_their_scores Q Qle_bool reversing_service
           reranking_services "q"
           [ {| Retriever.id := "a"; Retriever.text := "aa" |};
             {| Retriever.id := "b"; Retriever.text := "bbbb" |} ]
           length_score eq_refl (reversing_service_answers "q")).
Defined.

End Reranker.

(** ** api/knowledgebase/upload.py: the job queue *)

Module Upload.

Inductive JobStatus : Type := queued | processing | completed | failed.

(** The [dict] stored under ["job:<job_id>"]; a key that is absent is
    [None], and [{}] is the record without keys.  [file_kwargs] is left
    out. *)
Record Job : Type := {
  status : option JobStatus;
  file_path : option string;
  title : option string;
  error : option string
}.

Definition empty_job : Job :=
  {| status := None; file_path := None; title := None; error := None |}.

(** [not job] for a stored [dict]. *)
Definition is_empty (job : Job) : bool :=
  match status job, file_path job, title job, error job with
  | None, None, None, None => true
  | _, _, _, _ => false
  end.

(** The disk cache: the deque [queue], the set under ["in_progress"] and
    the job records by job id. *)
Record Cache : Type := {
  queue : list string;
  in_progress : gset string;
  jobs : gmap string Job
}.

Inductive http_result (A : Type) : Type :=
| Done (a : A)
| HTTPException (status_code : Z) (detail : string).

Arguments Done {A} a.
Arguments HTTPException {A} status_code detail.

(** What the thread of [_process_job] meets once it holds the job's path
    and title: [NeoInserter()] raises, or the [try] block (reading the file
    and [inserter.insert]) returns or raises. *)
Inductive Work : Type :=
| ConstructorRaised
| Inserted
| InsertRaised (exc : exn).

Section Limits.

Variables CONCURRENCY_LIMIT QUEUE_LIMIT : Z.

(** [_enqueue_job], under the lock; [job_id] is [str(uuid.uuid4())]. *)
Definition _enqueue_job (job_id path job_title : string) (cache : Cache)
  : http_result string * Cache :=
  if (QUEUE_LIMIT <=? Z.of_nat (length (queue cache)))%Z
  then (HTTPException 503 "Server busy, please try again later.", cache)
  else (Done job_id,
        {| queue := queue cache ++ [job_id];
           in_progress := in_progress cache;
           jobs := <[job_id := {| status := Some queued;
                                  file_path := Some path;
                                  title := Some job_title;
                                  error := None |}]> (jobs cache) |}).

(** [_maybe_start_next_job], under the lock: the id of the job whose thread
    it starts, if any. *)
Definition _maybe_start_next_job (cache : Cache) : option string * Cache :=
  let in_prog := in_progress cache in
  if (CONCURRENCY_LIMIT <=? Z.of_nat (size in_prog))%Z then (None, cache)
  else
    match queue cache with
    | [] => (None, cache)
    | job_id :: rest =>
        let job := default empty_job (jobs cache !! job_id) in
        (Some job_id,
         {| queue := rest;
            in_progress := in_prog ∪ {[job_id]};
            jobs := <[job_id := {| status := Some processing;
                                   file_path := file_path job;
                                   title := title job;
                                   error := error job |}]> (jobs cache) |})
    end.

(** [_process_job] up to its last call: the thread ends early when the job
    record is missing or empty, with a [KeyError] when it lacks the path or
    the title, and with the exception of [NeoInserter()]; otherwise the
    block under the lock takes the job out of [in_progress] and stores its
    new status.  The record is read when the thread starts; job ids are
    drawn fresh, so no other step writes the record of a job in progress
    and the block under the lock finds it as the thread read it. *)
Definition _process_job (job_id : string) (work : Work) (cache : Cache)
  : Cache :=
  match jobs cache !! job_id with
  | None => cache
  | Some job =>
      if is_empty job then cache
      else
        match file_path job, title job, work with
        | None, _, _ | _, None, _ | _, _, ConstructorRaised => cache
        | Some _, Some _, Inserted =>
            {| queue := queue cache;
               in_progress := in_progress cache ∖ {[job_id]};
               jobs := <[job_id := {| status := Some completed;
                                      file_path := file_path job;
                                      title := title job;
                                      error := error job |}]> (jobs cache) |}
        | Some _, Some _, InsertRaised exc =>
            {| queue := queue cache;
               in_progress := in_progress cache ∖ {[job_id]};
               jobs := <[job_id := {| status := Some failed;
                                      file_path := file_path job;
                                      title := title job;
                                      error := Some (str exc) |}]>
                       (jobs cache) |}
        end
  end.

(** The steps that take the lock, in the order they take it. *)
Inductive Event : Type :=
| Enqueue (job_id path job_title : string)
| MaybeStart
| Process (job_id : string) (work : Work).

(** What a run of events did: the ids [_enqueue_job] returned and the ids
    whose thread was started, in order. *)
Record Log : Type := {
  accepted : list string;
  started : list string
}.

Definition step (state : Cache * Log) (event : Event) : Cache * Log :=
  let '(cache, log) := state in
  match event with
  | Enqueue job_id path job_title =>
      match _enqueue_job job_id path job_title cache with
      | (Done job_id, cache') =>
          (cache', {| accepted := accepted log ++ [job_id];
                      started := started log |})
      | (HTTPException _ _, cache') => (cache', log)
      end
  | MaybeStart =>
      match _maybe_start_next_job cache with
      | (Some job_id, cache') =>
          (cache', {| accepted := accepted log;
                      started := started log ++ [job_id] |})
      | (None, cache') => (cache', log)
      end
  | Process job_id work => (_process_job job_id work cache, log)
  end.

Definition run (events : list Event) (cache : Cache) : Cache * Log :=
  fold_left step events (cache, {| accepted := []; started := [] |}).

(** The bounds the two limits put on the cache. *)
Definition within_limits (cache : Cache) : Prop :=
  (Z.of_nat (size (in_progress cache)) <= CONCURRENCY_LIMIT)%Z /\
  (Z.of_nat (length (queue cache)) <= QUEUE_LIMIT)%Z.

Lemma step_within_limits state event :
  within_limits (fst state) -> within_limits (fst (step state event)).
Proof.
  destruct state as [cache log]. unfold within_limits. simpl.
  intros [Hp Hq]. destruct event as [job_id path job_title| |job_id work]; simpl.
  - unfold _enqueue_job.
    destruct (QUEUE_LIMIT <=? _)%Z eqn:E; simpl; [auto|].
    apply Z.leb_gt in E. split; [exact Hp|].
    rewrite length_app. simpl. lia.
  - unfold _maybe_start_next_job.
    destruct (CONCURRENCY_LIMIT <=? _)%Z eqn:E; simpl; [auto|].
    apply Z.leb_gt in E.
    destruct (queue cache) as [|job_id rest] eqn:Eq; simpl;
      [rewrite Eq; auto|].
    cbn [length] in Hq. split; [|lia].
    pose proof (size_union_alt (in_progress cache) {[job_id]}) as Hs.
    assert ({[job_id]} ∖ in_progress cache ⊆ ({[job_id]} : gset string))
      as Hd by (apply subseteq_difference_l; reflexivity).
    apply subseteq_size in Hd.
    rewrite size_singleton in Hd. lia.
  - unfold _process_job.
    destruct (jobs cache !! job_id) as [job|]; [|auto].
    destruct (is_empty job); [auto|].
    assert (in_progress cache ∖ {[job_id]} ⊆ in_progress cache)
      as Hd by (apply subseteq_difference_l; reflexivity).
    apply subseteq_size in Hd.
    destruct (file_path job), (title job), work; simpl; auto; split; auto;
      lia.
Qed.

Lemma step_order state event (queue0 : list string) :
  started (snd state) ++ queue (fst state)
  = queue0 ++ accepted (snd state) ->
  started (snd (step state event)) ++ queue (fst (step state event))
  = queue0 ++ accepted (snd (step state event)).
Proof.
  destruct state as [cache log]. simpl. intros H.
  destruct event as [job_id path job_title| |job_id work]; simpl.
  - unfold _enqueue_job.
    destruct (QUEUE_LIMIT <=? _)%Z; simpl; [exact H|].
    now rewrite !app_assoc, H.
  - unfold _maybe_start_next_job.
    destruct (CONCURRENCY_LIMIT <=? _)%Z; simpl; [exact H|].
    destruct (queue cache) as [|job_id rest] eqn:Eq; simpl;
      [now rewrite Eq|].
    rewrite <- H, <- app_assoc. reflexivity.
  - unfold _process_job.
    destruct (jobs cache !! job_id) as [job|]; [|exact H].
    destruct (is_empty job); [exact H|].
    destruct (file_path job), (title job), work; simpl; exact H.
Qed.

(** X30.  The job queue keeps its limits and its order.  Whatever steps
    are taken on a cache that is within the limits, never more than
    [CONCURRENCY_LIMIT] jobs are in progress and never more than
    [QUEUE_LIMIT] are queued; and the jobs are started in the order they
    were queued: the started ids followed by the queue are the initial
    queue followed by the accepted ids. *)
Theorem queue_keeps_limits_and_order (events : list Event) (cache : Cache) :
  within_limits cache ->
  within_limits (fst (run events cache)) /\
  started (snd (run events cache)) ++ queue (fst (run events cache))
  = queue cache ++ accepted (snd (run events cache)).
Proof.
  intros Hlim. unfold run.
  set (state := (cache, {| accepted := []; started := [] |})).
  assert (within_limits (fst state) /\
          started (snd state) ++ queue (fst state)
          = queue cache ++ accepted (snd state)) as Hinv
    by (split; [exact Hlim|simpl; now rewrite app_nil_r]).
  clearbody state. revert state Hinv.
  induction events as [|event events IH]; intros state [H1 H2]; simpl;
    [auto|].
  apply IH. split; [now apply step_within_limits|now apply step_order].
Qed.

End Limits.

(** *** A run with the default limits *)

Definition empty_cache : Cache :=
  {| queue := []; in_progress := ∅; jobs := ∅ |}.

Definition busy_day : list Event :=
  [ Enqueue "j1" "/tmp/a.txt" "a"; Enqueue "j2" "/tmp/b.txt" "b"; MaybeStart;
    Enqueue "j3" "/tmp/c.txt" "c"; MaybeStart;
    Process "j1" (InsertRaised (ServiceError "embedding service unavailable"));
    MaybeStart; Process "j2" Inserted ].

Example busy_day_runs :
  started (snd (run 3 10 busy_day empty_cache)) = ["j1"; "j2"; "j3"] /\
  queue (fst (run 3 10 busy_day empty_cache)) = [] /\
  status <$> jobs (fst (run 3 10 busy_day empty_cache)) !! "j1" = Some (Some failed) /\
  status <$> jobs (fst (run 3 10 busy_day empty_cache)) !! "j3"
  = Some (Some processing).
Proof. vm_compute. auto. Qed.

Lemma queue_keeps_limits_and_order_witness :
  within_limits 3 10 (fst (run 3 10 busy_day empty_cache)) /\
  started (snd (run 3 10 busy_day empty_cache))
  ++ queue (fst (run 3 10 busy_day empty_cache))
  = queue empty_cache ++ accepted (snd (run 3 10 busy_day empty_cache)).
Proof.
  apply (queue_keeps_limits_and_order 3 10 busy_day empty_cache).
  split; vm_compute; discriminate.
Defined.

End Upload.
